(** * gocassa connection pool and executor: model and properties

    A shallow embedding of the Cassandra connection pool
    ([gocqlConnectionPool]: [init], [checkout], [checkin], [connect],
    [Size], [Close]) and of the two revisions of [gocqlExecutor] found in
    [gocassa/executor.go] (the session-backed one, whose [switchConfig] can
    fail, and the pool-backed one).

    Go code runs here in a small state monad whose computations either
    return, park the goroutine forever on a channel operation, or panic.
    What the code cannot decide by itself (the host the selector picks, the
    outcome of a dial, what the configuration service answers) is passed
    in as an explicit oracle argument. *)

From Stdlib Require Import ZArith Lia DecimalString.
From stdpp Require Import base option list gmap strings sorting.

Open Scope string_scope.
Open Scope list_scope.
Open Scope Z_scope.

(** ** Go runtime: outcomes, buffered channels, [int] *)

Module Go.

(** How a call ends.  [Blocks] is a goroutine parked for ever (a send on a
    full or nil channel with nobody ever receiving); [Panics] is a run-time
    panic.  Both keep the state reached so far. *)
Inductive outcome (S A : Type) : Type :=
| Returns (a : A) (s : S)
| Blocks (s : S)
| Panics (s : S).
Arguments Returns {S A} a s.
Arguments Blocks {S A} s.
Arguments Panics {S A} s.

Definition state_of {S A} (r : outcome S A) : S :=
  match r with Returns _ s | Blocks s | Panics s => s end.

Definition value_of {S A} (r : outcome S A) : option A :=
  match r with Returns a _ => Some a | _ => None end.

Definition M (S A : Type) : Type := S → outcome S A.

Definition ret {S A} (a : A) : M S A := λ s, Returns a s.

Definition bind {S A B} (m : M S A) (k : A → M S B) : M S B :=
  λ s, match m s with
       | Returns a s' => k a s'
       | Blocks s' => Blocks s'
       | Panics s' => Panics s'
       end.

Definition get {S} : M S S := λ s, Returns s s.
Definition put {S} (s : S) : M S unit := λ _, Returns tt s.
Definition modify {S} (f : S → S) : M S unit := λ s, Returns tt (f s).
Definition block {S A} : M S A := λ s, Blocks s.
Definition panic {S A} : M S A := λ s, Panics s.

(** Run a computation on a component of the state. *)
Definition zoom {S T A} (rd : S → T) (wr : T → S → S) (m : M T A) : M S A :=
  λ s, match m (rd s) with
       | Returns a t => Returns a (wr t s)
       | Blocks t => Blocks (wr t s)
       | Panics t => Panics (wr t s)
       end.

(** A buffered channel [make(chan A, cap)]: a FIFO of at most [chan_cap]
    values.  A nil channel is [None] at the use site. *)
Record chan (A : Type) : Type := Chan { chan_cap : nat; chan_buf : list A }.
Arguments Chan {A} chan_cap chan_buf.
Arguments chan_cap {A} c.
Arguments chan_buf {A} c.

Definition chan_len {A} (c : chan A) : nat := length (chan_buf c).

(** Receive without waiting: [None] when nothing is buffered (or the
    channel is nil). *)
Definition chan_poll {A} (c : option (chan A)) : option (A * chan A) :=
  match c with
  | Some (Chan cap (v :: rest)) => Some (v, Chan cap rest)
  | _ => None
  end.

(** Send with no receiver waiting: succeeds when there is room, otherwise
    ([None]) the sender parks.  An unbuffered channel has [chan_cap = 0]. *)
Definition chan_offer {A} (c : option (chan A)) (v : A) : option (chan A) :=
  match c with
  | Some (Chan cap buf) =>
      if decide (length buf < cap)%nat then Some (Chan cap (buf ++ [v])) else None
  | None => None
  end.

(** Go's [int] on the 64-bit platforms the service runs on. *)
Definition wrap_int (z : Z) : Z := (z + 2 ^ 63) `mod` 2 ^ 64 - 2 ^ 63.

End Go.

Import Go.

Declare Scope go_scope.
Delimit Scope go_scope with go.
Notation "x <- m ;; k" := (bind m (λ x, k))
  (at level 100, m at next level, right associativity) : go_scope.
Notation "m ;; k" := (bind m (λ _, k))
  (at level 100, right associativity) : go_scope.
Open Scope go_scope.

(** ** The driver and the outside world *)

Module Driver.

(** [error] values are compared by message only; a nil error is [None]. *)
Abbreviation error := string (only parsing).

(** [*gocql.Conn]: the address of a connection object.  A nil pointer is
    [None] where the code allows one. *)
Abbreviation Conn := nat (only parsing).

(** The fields of [gocql.ClusterConfig] this package reads. *)
Record ClusterConfig : Type := {
  ProtoVersion : Z;
  CQLVersion : string;
  Timeout : Z;
  NumStreams : Z;
  Compressor : string;
  Authenticator : string;
  SocketKeepalive : Z;
  NumConns : Z;
  Consistency : Z
}.

Record ConnConfig : Type := {
  cc_ProtoVersion : Z;
  cc_CQLVersion : string;
  cc_Timeout : Z;
  cc_NumStreams : Z;
  cc_Compressor : string;
  cc_Authenticator : string;
  cc_Keepalive : Z
}.

(** Modelled from the spec: the declaration of [ksConfig] is not among the
    sources; these are the fields the pool and the executor read (the
    keyspace name, the ordered host list and the cluster configuration
    carrying max-connections-per-host).  Its content hash is taken as a
    parameter where the executor needs it. *)
Record ksConfig : Type := {
  ks : string;
  hosts : list string;
  cc : ClusterConfig
}.

Inductive level : Type := Trace | Debug | Info | Warn | Error.

(** What the code does to the outside world, newest event first. *)
Inductive event : Type :=
| EvLog (l : level) (fmt : string)
| EvTimerStart (secs : Z)
| EvTimerFired (secs : Z)
| EvTimerStop
| EvDial (host : string) (cfg : ConnConfig) (res : option Conn)
| EvConnClose (c : Conn)
| EvLoadConfig (keyspace : string)
| EvCreateSession (ok : bool)
| EvSessionClose (s : nat)
| EvNewSession (ok : bool)
| EvStatement (stmt : string) (nparams : nat)
| EvSleep (secs : Z)
| EvGo (task : string).

(** The connection objects ever allocated (index = address, value = what
    [Closed()] reports) and the event trace. *)
Record driver : Type := Driver {
  conns : list bool;
  trace : list event
}.

Class HasDriver (St : Type) : Type := {
  get_drv : St → driver;
  set_drv : driver → St → St
}.

#[global] Instance driver_HasDriver : HasDriver driver :=
  {| get_drv := id; set_drv := λ d _, d |}.

#[global] Instance pair_HasDriver (A : Type) : HasDriver (A * driver) :=
  {| get_drv := snd; set_drv := λ d s, (s.1, d) |}.

Definition emit {St : Type} `{!HasDriver St} (e : event) : M St unit :=
  modify (λ s, set_drv (Driver (conns (get_drv s)) (e :: trace (get_drv s))) s).

Definition logf {St : Type} `{!HasDriver St} (l : level) (fmt : string) : M St unit :=
  emit (EvLog l fmt).

(** [conn.Closed()] *)
Definition Closed {St : Type} `{!HasDriver St} (c : Conn) : M St bool :=
  s <- get ;; ret (default false (conns (get_drv s) !! c)).

(** [conn.Close()] *)
Definition Conn_Close {St : Type} `{!HasDriver St} (c : Conn) : M St unit :=
  modify (λ s, set_drv (Driver (<[c := true]> (conns (get_drv s)))
                               (EvConnClose c :: trace (get_drv s))) s).

(** A successful [gocql.Connect] hands back a new, open connection object. *)
Definition new_conn {St : Type} `{!HasDriver St} : M St Conn :=
  s <- get ;;
  let d := get_drv s in
  put (set_drv (Driver (conns d ++ [false]) (trace d)) s) ;;
  ret (length (conns d)).

End Driver.

Import Driver.

(** ** The connection pool *)

Module Pool.

(** The host selector ([hostpool.HostPool]) is a library: what matters here
    is the fixed host list it was built from and the outcomes reported back
    to it with [Mark], newest first. *)
Record HostPool : Type := {
  hp_hosts : list string;
  hp_marks : list (string * option error)
}.

(** [hostpool.HostPoolResponse]: the pick; [Host()] is its host. *)
Record HostPoolResponse : Type := { Host : string }.

Record gocqlConnCheckout : Type := {
  conn : option Conn;
  hpResp : HostPoolResponse
}.

Record gocqlConnectionPool : Type := {
  Cfg : ksConfig;
  hp : option HostPool;
  activeConns : list Conn;
  hostConnsEstablished : gmap string (chan (option Conn));
  hostConnsUnestablished : gmap string (chan (option Conn))
}.

(** [&gocqlConnectionPool{Cfg: cfg}] *)
Definition new (cfg : ksConfig) : gocqlConnectionPool :=
  {| Cfg := cfg; hp := None; activeConns := [];
     hostConnsEstablished := ∅; hostConnsUnestablished := ∅ |}.

Definition set_hp (h : option HostPool) (p : gocqlConnectionPool) :=
  {| Cfg := Cfg p; hp := h; activeConns := activeConns p;
     hostConnsEstablished := hostConnsEstablished p;
     hostConnsUnestablished := hostConnsUnestablished p |}.

Definition set_activeConns (l : list Conn) (p : gocqlConnectionPool) :=
  {| Cfg := Cfg p; hp := hp p; activeConns := l;
     hostConnsEstablished := hostConnsEstablished p;
     hostConnsUnestablished := hostConnsUnestablished p |}.

Definition set_established (m : gmap string (chan (option Conn)))
    (p : gocqlConnectionPool) :=
  {| Cfg := Cfg p; hp := hp p; activeConns := activeConns p;
     hostConnsEstablished := m;
     hostConnsUnestablished := hostConnsUnestablished p |}.

Definition set_unestablished (m : gmap string (chan (option Conn)))
    (p : gocqlConnectionPool) :=
  {| Cfg := Cfg p; hp := hp p; activeConns := activeConns p;
     hostConnsEstablished := hostConnsEstablished p;
     hostConnsUnestablished := m |}.

(** Pool methods run on the pool object and the driver. *)
Definition state : Type := gocqlConnectionPool * driver.

Definition self : M state gocqlConnectionPool := s <- get ;; ret s.1.
Definition update (f : gocqlConnectionPool → gocqlConnectionPool) : M state unit :=
  modify (λ s, (f s.1, s.2)).

(** What the environment decides during one [checkout]: the host the
    selector picks, which ready case a [select] takes when two are ready,
    and whether the dial fails (with which error). *)
Record oracle : Type := {
  o_pick : string;
  o_coin : bool;
  o_dial : option error
}.

(** One turn of the loop in [init] for [host]. *)
Definition init_host (host : string) : M state unit :=
  p <- self ;;
  let n := NumConns (cc (Cfg p)) in
  if decide (n < 0) then panic else
  update (λ p, set_established
                 (<[host := Chan (Z.to_nat n) []]> (hostConnsEstablished p)) p) ;;
  let hostChanUn := Chan (Z.to_nat n) (replicate (Z.to_nat n) (None : option Conn)) in
  update (λ p, set_unestablished
                 (<[host := hostChanUn]> (hostConnsUnestablished p)) p).

Fixpoint init_hosts (hs : list string) : M state unit :=
  match hs with
  | [] => ret tt
  | host :: rest => init_host host ;; init_hosts rest
  end.

Definition init : M state unit :=
  p <- self ;;
  let hs := hosts (Cfg p) in
  update (set_hp (Some {| hp_hosts := hs; hp_marks := [] |})) ;;
  if decide (wrap_int (Z.of_nat (length hs) * NumConns (cc (Cfg p))) < 0) then panic else
  update (set_activeConns []) ;;
  update (set_established ∅) ;;
  update (set_unestablished ∅) ;;
  init_hosts hs.

(** [p.hp.Get()]: the selector answers with the host the oracle names; a
    pool whose selector was never built has a nil interface there. *)
Definition hp_Get (pick : string) : M state HostPoolResponse :=
  p <- self ;;
  match hp p with
  | None => panic
  | Some _ => ret {| Host := pick |}
  end.

(** [hpResp.Mark(err)] *)
Definition Mark (r : HostPoolResponse) (err : option error) : M state unit :=
  update (λ p, set_hp
    ((λ h, {| hp_hosts := hp_hosts h; hp_marks := (Host r, err) :: hp_marks h |}) <$> hp p) p).

Definition connCfg_of (c : ClusterConfig) : ConnConfig :=
  {| cc_ProtoVersion := ProtoVersion c;
     cc_CQLVersion := CQLVersion c;
     cc_Timeout := Timeout c;
     cc_NumStreams := NumStreams c;
     cc_Compressor := Compressor c;
     cc_Authenticator := Authenticator c;
     cc_Keepalive := SocketKeepalive c |}.

Definition connect (host : string) (dial : option error) : M state (option Conn) :=
  p <- self ;;
  let connCfg := connCfg_of (cc (Cfg p)) in
  logf Trace "Establishing new connection" ;;
  match dial with
  | Some err =>
      emit (EvDial host connCfg None) ;;
      logf Error "Error establishing connection" ;;
      ret None
  | None =>
      c <- new_conn ;;
      emit (EvDial host connCfg (Some c)) ;;
      update (λ p, set_activeConns (activeConns p ++ [c]) p) ;;
      ret (Some c)
  end.

(** [hostChanEstablished <- v] and [hostChanUnestablished <- v]: the sender
    parks when the channel is full or nil. *)
Definition send_established (host : string) (v : option Conn) : M state unit :=
  p <- self ;;
  match chan_offer (hostConnsEstablished p !! host) v with
  | Some c => update (set_established (<[host := c]> (hostConnsEstablished p)))
  | None => block
  end.

Definition send_unestablished (host : string) (v : option Conn) : M state unit :=
  p <- self ;;
  match chan_offer (hostConnsUnestablished p !! host) v with
  | Some c => update (set_unestablished (<[host := c]> (hostConnsUnestablished p)))
  | None => block
  end.

Definition took_established (host : string) (r : option Conn * chan (option Conn))
    : M state (option (option Conn)) :=
  update (λ p, set_established (<[host := r.2]> (hostConnsEstablished p)) p) ;;
  ret (Some r.1).

Definition took_unestablished (host : string) (r : option Conn * chan (option Conn))
    : M state (option (option Conn)) :=
  update (λ p, set_unestablished (<[host := r.2]> (hostConnsUnestablished p)) p) ;;
  ret (Some r.1).

(** The two nested [select]s of [checkout].  [Some v] is the value received
    ([v] itself may be a nil pointer); [None] is the timeout case.  With
    nothing else running, the timer case is taken exactly when neither
    channel has anything buffered. *)
Definition select_conn (host : string) (coin : bool) : M state (option (option Conn)) :=
  p <- self ;;
  let hostChanEstablished := hostConnsEstablished p !! host in
  let hostChanUnestablished := hostConnsUnestablished p !! host in
  match chan_poll hostChanEstablished with
  | Some r => took_established host r
  | None =>
      emit (EvTimerStart 5) ;;
      match chan_poll hostChanEstablished, chan_poll hostChanUnestablished with
      | Some r, None => took_established host r ;; emit EvTimerStop ;; ret (Some r.1)
      | None, Some r => took_unestablished host r ;; emit EvTimerStop ;; ret (Some r.1)
      | Some re, Some ru =>
          (if coin then took_established host re ;; emit EvTimerStop ;; ret (Some re.1)
           else took_unestablished host ru ;; emit EvTimerStop ;; ret (Some ru.1))
      | None, None =>
          emit (EvTimerFired 5) ;;
          logf Warn "Timed-out waiting for connection pool" ;;
          ret None
      end
  end.

(** The part of [checkout] after a value [conn0] was received: dial when
    it is nil or closed, put the token back when the dial fails. *)
Definition establish (hpResp : HostPoolResponse) (conn0 : option Conn)
    (dial : option error) : M state gocqlConnCheckout :=
  dead <- match conn0 with
          | None => ret true
          | Some c => Closed c
          end ;;
  r <- (if dead : bool then
          c <- connect (Host hpResp) dial ;;
          match c with
          | None => send_unestablished (Host hpResp) c
          | Some _ => ret tt
          end ;;
          ret (true, c)
        else ret (false, conn0)) ;;
  match r.2 with
  | Some _ =>
      if r.1 then logf Trace "Checked-out new connection"
      else logf Trace "Checked-out reused connection"
  | None => logf Trace "Failed to check-out connection"
  end ;;
  ret {| conn := r.2; hpResp := hpResp |}.

Definition checkout (o : oracle) : M state gocqlConnCheckout :=
  hpResp <- hp_Get (o_pick o) ;;
  sel <- select_conn (Host hpResp) (o_coin o) ;;
  match sel with
  | None => ret {| conn := None; hpResp := hpResp |}
  | Some conn0 => establish hpResp conn0 (o_dial o)
  end.

Definition checkin (h : gocqlConnCheckout) (err : option error) : M state unit :=
  Mark (hpResp h) err ;;
  match conn h with
  | Some _ =>
      send_established (Host (hpResp h)) (conn h) ;;
      logf Trace "Checked-in connection"
  | None => ret tt
  end.

Definition Pick : M state (option Conn) := ret None.

Definition Size : M state nat := p <- self ;; ret (length (activeConns p)).

Definition HandleError : M state unit := ret tt.

Fixpoint close_all (cs : list Conn) : M state unit :=
  match cs with
  | [] => ret tt
  | c :: rest => Conn_Close c ;; close_all rest
  end.

Definition Close : M state unit :=
  p <- self ;;
  close_all (activeConns p) ;;
  update (set_activeConns []).

Definition SetHosts : M state unit := ret tt.

End Pool.

(** ** Callers of the pool

    The pool does not know which handles are out; its callers do.  A
    [system] is a pool together with the handles its callers currently
    hold, and an [op] is one thing that can happen to it. *)

Module Client.
Import Pool.

Record system : Type := System {
  sys_pool : gocqlConnectionPool;
  sys_drv : driver;
  held : list gocqlConnCheckout
}.

Inductive op : Type :=
| OpCheckout (o : oracle)
| OpCheckin (i : nat) (err : option error)
| OpClose
| OpSever (c : Conn).

Definition on_pool {A} (m : M Pool.state A) : M system A :=
  zoom (λ s, (sys_pool s, sys_drv s)) (λ t s, System t.1 t.2 (held s)) m.

Definition hold (h : gocqlConnCheckout) : M system unit :=
  modify (λ s, System (sys_pool s) (sys_drv s) (held s ++ [h])).

Definition release (i : nat) : M system unit :=
  modify (λ s, System (sys_pool s) (sys_drv s) (delete i (held s))).

(** [OpCheckin i err] checks in the [i]-th handle held (and does nothing
    when there is no such handle: a handle is checked in once);
    [OpSever c] is the network or the server closing connection [c]. *)
Definition step (o : op) : M system unit :=
  match o with
  | OpCheckout orc => h <- on_pool (checkout orc) ;; hold h
  | OpCheckin i err =>
      s <- get ;;
      match held s !! i with
      | Some h => release i ;; on_pool (checkin h err)
      | None => ret tt
      end
  | OpClose => on_pool Close
  | OpSever c => on_pool (Conn_Close c)
  end.

Fixpoint run (ops : list op) : M system unit :=
  match ops with
  | [] => ret tt
  | o :: rest => step o ;; run rest
  end.

(** A pool built from [cfg] as the executor builds it
    ([&gocqlConnectionPool{Cfg: cfg}] then [init()]), then used. *)
Definition fresh (cfg : ksConfig) (d : driver) : system := System (new cfg) d [].

Definition session (cfg : ksConfig) (d : driver) (ops : list op) : outcome system unit :=
  (on_pool init ;; run ops) (fresh cfg d).

(** The three quantities of slot accounting for [host]. *)
Definition established_count (p : gocqlConnectionPool) (host : string) : nat :=
  from_option chan_len 0%nat (hostConnsEstablished p !! host).

Definition unestablished_count (p : gocqlConnectionPool) (host : string) : nat :=
  from_option chan_len 0%nat (hostConnsUnestablished p !! host).

Definition holds_slot (host : string) (h : gocqlConnCheckout) : bool :=
  bool_decide (is_Some (conn h)) && bool_decide (Host (hpResp h) = host).

Definition in_flight (hs : list gocqlConnCheckout) (host : string) : nat :=
  length (List.filter (holds_slot host) hs).

Definition slots (s : system) (host : string) : nat :=
  (established_count (sys_pool s) host + unestablished_count (sys_pool s) host
   + in_flight (held s) host)%nat.

(** The scenario of [TestConnectionReuse] on a freshly built pool: check
    out, read [Size()], check in with a nil error, check out again. *)
Definition reuse_scenario (o1 o2 : oracle)
    : M Pool.state (gocqlConnCheckout * nat * gocqlConnCheckout) :=
  init ;;
  a <- checkout o1 ;;
  n <- Size ;;
  checkin a None ;;
  b <- checkout o2 ;;
  ret (a, n, b).

End Client.

(** ** The executor, session-backed revision

    [gocqlExecutor] holding a [*gocql.Session]; [switchConfig] can fail. *)

Module SessionExecutor.

Section Executor.

(** [ksConfig.hash()], a [uint32]; its definition is not among the sources. *)
Variable hash : ksConfig → Z.

Record gocqlExecutor : Type := {
  ks : string;
  initialised : bool;
  lastHash : Z;
  cfg : ksConfig;
  session : option nat
}.

(** The executor, the session objects ever created (index = address,
    value = closed) and the driver. *)
Record machine : Type := Machine {
  exec : gocqlExecutor;
  sessions : list bool;
  drv : driver
}.

#[global] Instance machine_HasDriver : HasDriver machine :=
  {| get_drv := drv; set_drv := λ d m, Machine (exec m) (sessions m) d |}.

Definition zero_cc : ClusterConfig :=
  {| ProtoVersion := 0; CQLVersion := ""; Timeout := 0; NumStreams := 0;
     Compressor := ""; Authenticator := ""; SocketKeepalive := 0;
     NumConns := 0; Consistency := 0 |}.

(** [&gocqlExecutor{ks: ks}] *)
Definition new (keyspace : string) : gocqlExecutor :=
  {| ks := keyspace; initialised := false; lastHash := 0;
     cfg := {| Driver.ks := ""; hosts := []; cc := zero_cc |};
     session := None |}.

Definition self : M machine gocqlExecutor := m <- get ;; ret (exec m).

Definition update (f : gocqlExecutor → gocqlExecutor) : M machine unit :=
  modify (λ m, Machine (f (exec m)) (sessions m) (drv m)).

Definition set_initialised (b : bool) (e : gocqlExecutor) :=
  {| ks := ks e; initialised := b; lastHash := lastHash e; cfg := cfg e;
     session := session e |}.
Definition set_lastHash (h : Z) (e : gocqlExecutor) :=
  {| ks := ks e; initialised := initialised e; lastHash := h; cfg := cfg e;
     session := session e |}.
Definition set_cfg (c : ksConfig) (e : gocqlExecutor) :=
  {| ks := ks e; initialised := initialised e; lastHash := lastHash e; cfg := c;
     session := session e |}.
Definition set_session (s : option nat) (e : gocqlExecutor) :=
  {| ks := ks e; initialised := initialised e; lastHash := lastHash e; cfg := cfg e;
     session := s |}.

(** [session.Close()] *)
Definition Session_Close (s : nat) : M machine unit :=
  modify (λ m, Machine (exec m) (<[s := true]> (sessions m)) (drv m)) ;;
  emit (EvSessionClose s).

(** [getKsConfig(ks)]: the configuration service answers [load]. *)
Definition getKsConfig (keyspace : string) (load : error + ksConfig)
    : M machine (error + ksConfig) :=
  emit (EvLoadConfig keyspace) ;; ret load.

(** [cc.CreateSession()]: fails with [create], or hands back a new open
    session. *)
Definition CreateSession (create : option error) : M machine (error + nat) :=
  match create with
  | Some err => emit (EvCreateSession false) ;; ret (inl err)
  | None =>
      m <- get ;;
      put (Machine (exec m) (sessions m ++ [false]) (drv m)) ;;
      emit (EvCreateSession true) ;;
      ret (inr (length (sessions m)))
  end.

Definition switchConfig (newConfig : ksConfig) (create : option error)
    : M machine (option error) :=
  e <- self ;;
  match session e with
  | Some s => Session_Close s
  | None => ret tt
  end ;;
  update (set_cfg newConfig) ;;
  r <- CreateSession create ;;
  match r with
  | inl err => ret (Some err)
  | inr s =>
      update (set_session (Some s)) ;;
      update (set_lastHash (hash newConfig)) ;;
      ret None
  end.

(** [retryCh <- struct{}{}] from inside [reloadSession]: the goroutine
    that would receive is the one sending. *)
Definition send_retry (retryCh : chan unit) : M machine unit :=
  match chan_offer (Some retryCh) tt with
  | Some _ => ret tt
  | None => block
  end.

Definition reloadSession (retryCh : chan unit) (load : error + ksConfig)
    (create : option error) : M machine unit :=
  e <- self ;;
  let keyspace := ks e in
  let last := lastHash e in
  r <- getKsConfig keyspace load ;;
  match r with
  | inl err => logf Error "Error getting new config"
  | inr c =>
      if decide (hash c ≠ last) then
        logf Info "Config changed; invalidating connection pool" ;;
        err <- switchConfig c create ;;
        match err with
        | Some _ =>
            logf Error "Error creating session, retrying after 1s delay" ;;
            emit (EvSleep 1) ;;
            send_retry retryCh
        | None => ret tt
        end ;;
        logf Info "Switched config to"
      else
        logf Debug "Config changed but not invalidating connection pool"
  end.

(** The watcher's loop, for the notifications [ns] that arrive on the
    configuration channel (each with what the outside answers while it is
    handled).  [retryCh] is unbuffered and local to the watcher. *)
Fixpoint watch_loop (retryCh : chan unit) (ns : list ((error + ksConfig) * option error))
    : M machine unit :=
  match ns with
  | [] => ret tt
  | n :: rest => reloadSession retryCh n.1 n.2 ;; watch_loop retryCh rest
  end.

Definition watchConfig (ns : list ((error + ksConfig) * option error)) : M machine unit :=
  watch_loop (Chan 0 []) ns.

Definition init (load : error + ksConfig) (create : option error)
    : M machine (option error) :=
  e <- self ;;
  if initialised e then ret None else
  r <- getKsConfig (ks e) load ;;
  match r with
  | inl err => ret (Some err)
  | inr c =>
      err <- switchConfig c create ;;
      match err with
      | Some er => ret (Some er)
      | None =>
          emit (EvGo "watchConfig") ;;
          update (set_initialised true) ;;
          ret None
      end
  end.

Section Statements.

(** Column values ([interface{}]) and what the server answers to the
    statement: the rows and the error of [iter.Close()] or [Exec()]. *)
Variable value : Type.

Definition Query (load : error + ksConfig) (create : option error)
    (answer : list (gmap string value) * option error)
    (stmt : string) (params : list value)
    : M machine (list (gmap string value) * option error) :=
  err <- init load create ;;
  match err with
  | Some er => ret ([], Some er)
  | None =>
      e <- self ;;
      match session e with
      | None => ret ([], Some "No open session")
      | Some _ =>
          emit (EvStatement stmt (length params)) ;;
          logf Trace "Query took" ;;
          ret answer
      end
  end.

Definition Execute (load : error + ksConfig) (create : option error)
    (answer : option error) (stmt : string) (params : list value)
    : M machine (option error) :=
  err <- init load create ;;
  match err with
  | Some er => ret (Some er)
  | None =>
      e <- self ;;
      match session e with
      | None => ret (Some "No open session")
      | Some _ =>
          emit (EvStatement stmt (length params)) ;;
          logf Trace "Execute took" ;;
          ret answer
      end
  end.

Definition ExecuteAtomically (stmt : list string) (params : list (list value))
    : M machine (option error) :=
  ret (Some "Execute atomically is not implemented yet").

End Statements.

End Executor.

End SessionExecutor.

(** ** The executor, pool-backed revision

    [gocqlExecutor] holding a [*gocqlConnectionPool]; every statement
    checks a connection out and back in. *)

Module PoolExecutor.

Import Pool.

Section Executor.

(** [ksConfig.hash()], a [uint32]; its definition is not among the sources. *)
Variable hash : ksConfig → Z.

Record gocqlExecutor : Type := {
  ks : string;
  initialised : bool;
  lastHash : Z;
  pool : option nat
}.

(** The executor, the pool objects ever built (index = address) and the
    driver.  [pool] above is such an address, or nil. *)
Record machine : Type := Machine {
  exec : gocqlExecutor;
  pools : list gocqlConnectionPool;
  drv : driver
}.

#[global] Instance machine_HasDriver : HasDriver machine :=
  {| get_drv := drv; set_drv := λ d m, Machine (exec m) (pools m) d |}.

(** [&gocqlExecutor{ks: ks}] *)
Definition new (keyspace : string) : gocqlExecutor :=
  {| ks := keyspace; initialised := false; lastHash := 0; pool := None |}.

Definition self : M machine gocqlExecutor := m <- get ;; ret (exec m).

Definition update (f : gocqlExecutor → gocqlExecutor) : M machine unit :=
  modify (λ m, Machine (f (exec m)) (pools m) (drv m)).

Definition set_initialised (b : bool) (e : gocqlExecutor) :=
  {| ks := ks e; initialised := b; lastHash := lastHash e; pool := pool e |}.
Definition set_lastHash (h : Z) (e : gocqlExecutor) :=
  {| ks := ks e; initialised := initialised e; lastHash := h; pool := pool e |}.
Definition set_pool (p : option nat) (e : gocqlExecutor) :=
  {| ks := ks e; initialised := initialised e; lastHash := lastHash e; pool := p |}.

(** Call a method on the pool object at address [a]; a nil or dangling
    pointer is a nil dereference. *)
Definition on_pool {A} (a : option nat) (m : M Pool.state A) : M machine A :=
  λ s, match a ≫= (λ i, pools s !! i) with
       | None => Panics s
       | Some p =>
           zoom (λ s, (p, drv s))
                (λ t s, Machine (exec s) (<[default 0%nat a := t.1]> (pools s)) t.2)
                m s
       end.

(** [&gocqlConnectionPool{Cfg: cfg}] *)
Definition new_pool (c : ksConfig) : M machine nat :=
  m <- get ;;
  put (Machine (exec m) (pools m ++ [Pool.new c]) (drv m)) ;;
  ret (length (pools m)).

Definition getKsConfig (keyspace : string) (load : error + ksConfig)
    : M machine (error + ksConfig) :=
  emit (EvLoadConfig keyspace) ;; ret load.

Definition switchConfig (newConfig : ksConfig) : M machine unit :=
  e <- self ;;
  match pool e with
  | Some _ => on_pool (pool e) Close
  | None => ret tt
  end ;;
  a <- new_pool newConfig ;;
  update (set_pool (Some a)) ;;
  on_pool (Some a) Pool.init ;;
  update (set_lastHash (hash newConfig)) ;;
  logf Info "Switched config to".

(** The body of the loop in [watchConfig], for one notification. *)
Definition watch_body (load : error + ksConfig) : M machine unit :=
  e <- self ;;
  let keyspace := ks e in
  let last := lastHash e in
  r <- getKsConfig keyspace load ;;
  match r with
  | inl err => logf Error "Error getting new config"
  | inr c =>
      if decide (hash c ≠ last) then
        logf Info "Config changed; invalidating connection pool" ;;
        switchConfig c
      else
        logf Debug "Config changed but not invalidating connection pool"
  end.

(** [watchConfig], for the notifications that arrive on the channel. *)
Fixpoint watchConfig (ns : list (error + ksConfig)) : M machine unit :=
  match ns with
  | [] => ret tt
  | n :: rest => watch_body n ;; watchConfig rest
  end.

Definition init (load : error + ksConfig) : M machine (option error) :=
  e <- self ;;
  if initialised e then ret None else
  r <- getKsConfig (ks e) load ;;
  match r with
  | inl err => ret (Some err)
  | inr c =>
      switchConfig c ;;
      emit (EvGo "watchConfig") ;;
      update (set_initialised true) ;;
      ret None
  end.

Section Statements.

Variable value : Type.

(** What the outside decides during one statement: the configuration
    service's answer (read only by a first call), the checkout oracle,
    whether [gocql.NewSession] fails, and the server's answer. *)
Record world : Type := {
  w_load : error + ksConfig;
  w_checkout : oracle;
  w_newSession : option error;
  w_rows : list (gmap string value);
  w_err : option error
}.

Definition Query (w : world) (stmt : string) (params : list value)
    : M machine (list (gmap string value) * option error) :=
  err <- init (w_load w) ;;
  match err with
  | Some er => ret ([], Some er)
  | None =>
      e <- self ;;
      let pool := pool e in
      conn <- on_pool pool (checkout (w_checkout w)) ;;
      emit (EvNewSession (bool_decide (w_newSession w = None))) ;;
      match w_newSession w with
      | Some er =>
          on_pool pool (checkin conn (Some er)) ;;
          ret ([], Some er)
      | None =>
          emit (EvStatement stmt (length params)) ;;
          logf Trace "Query took" ;;
          on_pool pool (checkin conn (w_err w)) ;;
          ret (w_rows w, w_err w)
      end
  end.

Definition Execute (w : world) (stmt : string) (params : list value)
    : M machine (option error) :=
  err <- init (w_load w) ;;
  match err with
  | Some er => ret (Some er)
  | None =>
      e <- self ;;
      let pool := pool e in
      conn <- on_pool pool (checkout (w_checkout w)) ;;
      emit (EvNewSession (bool_decide (w_newSession w = None))) ;;
      match w_newSession w with
      | Some er =>
          on_pool pool (checkin conn (Some er)) ;;
          ret (Some er)
      | None =>
          emit (EvStatement stmt (length params)) ;;
          logf Trace "Execute took" ;;
          on_pool pool (checkin conn (w_err w)) ;;
          ret (w_err w)
      end
  end.

Definition ExecuteAtomically (stmt : list string) (params : list (list value))
    : M machine (option error) :=
  ret (Some "Execute atomically is not implemented yet").

End Statements.

End Executor.

Arguments w_load {value} w.
Arguments w_checkout {value} w.
Arguments w_newSession {value} w.
Arguments w_rows {value} w.
Arguments w_err {value} w.

End PoolExecutor.

(** ** Vocabulary of the properties *)

Module Props.
Import Pool Client.

(** [es] appended to the trace, newest first. *)
Definition logged (es : list event) (d : driver) : driver :=
  Driver (conns d) (es ++ trace d).

(** The test [conn == nil || conn.Closed()] of [checkout]. *)
Definition dead (d : driver) (conn0 : option Conn) : bool :=
  match conn0 with
  | None => true
  | Some c => default false (conns d !! c)
  end.

(** Number of dial attempts in a trace. *)
Definition dials (t : list event) : nat :=
  length (List.filter (λ e, match e with EvDial _ _ _ => true | _ => false end) t).

(** The pool after [r.Mark(err)]. *)
Definition marked (r : HostPoolResponse) (err : option error)
    (p : gocqlConnectionPool) : gocqlConnectionPool :=
  set_hp ((λ h, {| hp_hosts := hp_hosts h;
                   hp_marks := (Host r, err) :: hp_marks h |}) <$> hp p) p.

(** Slot accounting for one host: a configured host has both queues, of
    capacity [n], and its [n] slots are split between them and the [f]
    handles in flight; any other host has nil channels and nothing in
    flight. *)
Definition host_ok (n : nat) (member : bool)
    (e u : option (chan (option Conn))) (f : nat) : Prop :=
  if member then
    ∃ ebuf ubuf, e = Some (Chan n ebuf) ∧ u = Some (Chan n ubuf)
                 ∧ (length ebuf + length ubuf + f = n)%nat
  else e = None ∧ u = None ∧ f = 0%nat.

Definition slots_ok (s : system) : Prop :=
  let p := sys_pool s in
  is_Some (hp p) ∧
  ∀ host,
    host_ok (Z.to_nat (NumConns (cc (Cfg p))))
            (bool_decide (host ∈ hosts (Cfg p)))
            (hostConnsEstablished p !! host)
            (hostConnsUnestablished p !! host)
            (in_flight (held s) host).

(** A non-nil error whose message says "not implemented". *)
Definition not_implemented (err : option error) : bool :=
  match err with
  | Some msg => bool_decide (is_Some (String.index 0 "not implemented" msg))
  | None => false
  end.

(** Session-backed executor: what a failed [switchConfig] to [c] leaves
    behind when the session at [s] was active, up to the retry signal. *)
Definition failed_switch (c : ksConfig) (s : nat) (m : SessionExecutor.machine)
    : SessionExecutor.machine :=
  SessionExecutor.Machine
    (SessionExecutor.set_cfg c (SessionExecutor.exec m))
    (<[s := true]> (SessionExecutor.sessions m))
    (logged [EvSleep 1;
             EvLog Error "Error creating session, retrying after 1s delay";
             EvCreateSession false;
             EvSessionClose s;
             EvLog Info "Config changed; invalidating connection pool";
             EvLoadConfig (SessionExecutor.ks (SessionExecutor.exec m))]
            (SessionExecutor.drv m)).

(** The executor and every session object are as they were. *)
Definition previous_session_intact (m m' : SessionExecutor.machine) : Prop :=
  SessionExecutor.exec m' = SessionExecutor.exec m
  ∧ SessionExecutor.sessions m' = SessionExecutor.sessions m.

End Props.

(** ** Concrete configurations and states *)

Module Examples.
Import Pool Client.

Definition hosts_hash (c : ksConfig) : Z := Z.of_nat (length (hosts c)).

Definition cc_example (n : Z) : ClusterConfig :=
  {| ProtoVersion := 2; CQLVersion := "3.0.0"; Timeout := 1; NumStreams := 128;
     Compressor := ""; Authenticator := ""; SocketKeepalive := 0;
     NumConns := n; Consistency := 1 |}.

(** The configuration of the pool test: one host, two connections. *)
Definition cfg_one : ksConfig :=
  {| ks := "dummyks"; hosts := ["host1"]; cc := cc_example 2 |}.

Definition cfg_two : ksConfig :=
  {| ks := "dummyks"; hosts := ["host1"; "host2"]; cc := cc_example 2 |}.

Definition d0 : driver := Driver [] [].

Definition dial_ok : oracle := {| o_pick := "host1"; o_coin := false; o_dial := None |}.

Definition dial_refused : oracle :=
  {| o_pick := "host1"; o_coin := false; o_dial := Some "connection refused" |}.

Definition hp_one : HostPool := {| hp_hosts := ["host1"]; hp_marks := [] |}.

(** [cfg_one] right after [init]. *)
Definition pool_idle : gocqlConnectionPool :=
  {| Cfg := cfg_one; hp := Some hp_one; activeConns := [];
     hostConnsEstablished := {["host1" := Chan 2 []]};
     hostConnsUnestablished := {["host1" := Chan 2 [None; None]]} |}.

(** Both slots checked out. *)
Definition pool_exhausted : gocqlConnectionPool :=
  {| Cfg := cfg_one; hp := Some hp_one; activeConns := [0; 1]%nat;
     hostConnsEstablished := {["host1" := Chan 2 []]};
     hostConnsUnestablished := {["host1" := Chan 2 []]} |}.

(** Connection 0 was checked in and has since been closed. *)
Definition pool_stale : gocqlConnectionPool :=
  {| Cfg := cfg_one; hp := Some hp_one; activeConns := [];
     hostConnsEstablished := {["host1" := Chan 2 [Some 0%nat]]};
     hostConnsUnestablished := {["host1" := Chan 2 [None]]} |}.

Definition d_stale : driver := Driver [true] [].

Definition handle0 : gocqlConnCheckout :=
  {| conn := Some 0%nat; hpResp := {| Host := "host1" |} |}.

Definition busy_ops : list op :=
  [OpCheckout dial_ok; OpCheckout dial_refused; OpCheckout dial_ok;
   OpCheckin 0 None; OpClose; OpCheckout dial_ok; OpCheckout dial_ok;
   OpSever 0; OpCheckin 1 (Some "write timeout")].

(** A session-backed executor serving [cfg_one] on session 0. *)
Definition serving : SessionExecutor.machine :=
  SessionExecutor.Machine
    {| SessionExecutor.ks := "dummyks"; SessionExecutor.initialised := true;
       SessionExecutor.lastHash := 1; SessionExecutor.cfg := cfg_one;
       SessionExecutor.session := Some 0%nat |}
    [false] d0.

(** A pool-backed executor serving [cfg_one] from the pool at address 0. *)
Definition pooled : PoolExecutor.machine :=
  PoolExecutor.Machine
    {| PoolExecutor.ks := "dummyks"; PoolExecutor.initialised := true;
       PoolExecutor.lastHash := 1; PoolExecutor.pool := Some 0%nat |}
    [pool_idle] d0.

(** A pool-backed executor nobody has used yet. *)
Definition unused : PoolExecutor.machine :=
  PoolExecutor.Machine (PoolExecutor.new "dummyks") [] d0.

Definition config_down : PoolExecutor.world unit :=
  {| PoolExecutor.w_load := inl "config service unavailable";
     PoolExecutor.w_checkout := dial_ok;
     PoolExecutor.w_newSession := None;
     PoolExecutor.w_rows := [];
     PoolExecutor.w_err := None |}.

End Examples.

(** ** Where every connection is

    Vocabulary for following single connections through the pool: how
    often a connection sits in a queue or in a held handle, which objects
    the pool tracks, and the steps a [checkout] can take. *)

Module Accounting.
Import Pool Client Props.

(** Occurrences of the connection [c] in a channel buffer. *)
Definition count_conn (c : Conn) (buf : list (option Conn)) : nat :=
  length (List.filter (λ v, bool_decide (v = Some c)) buf).

(** ... in the queue of [host] in the map [m] (none for a nil channel). *)
Definition queued (m : gmap string (chan (option Conn))) (host : string) (c : Conn) : nat :=
  from_option (λ q, count_conn c (chan_buf q)) 0%nat (m !! host).

(** The handle [h] is for [host] and carries [c]. *)
Definition carries (host : string) (c : Conn) (h : gocqlConnCheckout) : bool :=
  bool_decide (conn h = Some c) && bool_decide (Host (hpResp h) = host).

(** Held handles for [host] that carry [c]. *)
Definition carried (hs : list gocqlConnCheckout) (host : string) (c : Conn) : nat :=
  length (List.filter (carries host c) hs).

(** All the places where [c] is, for [host]: both queues and the held
    handles. *)
Definition located (s : system) (host : string) (c : Conn) : nat :=
  (queued (hostConnsEstablished (sys_pool s)) host c
   + queued (hostConnsUnestablished (sys_pool s)) host c
   + carried (held s) host c)%nat.

(** A connection is in at most one place, and a connection object that
    does not exist yet is nowhere. *)
Definition exclusive (s : system) : Prop :=
  (∀ c host1 host2,
     (located s host1 c + (if decide (host1 = host2) then 0 else located s host2 c) ≤ 1)%nat)
  ∧ (∀ c host, (length (conns (sys_drv s)) ≤ c)%nat → located s host c = 0%nat).

(** [activeConns] holds exactly the connection objects made since the
    last [Close()] (the addresses from [k] on), and every object the pool
    made before that (from [base] to [k]) reports closed. *)
Definition tracked (base : nat) (s : system) : Prop :=
  ∃ k, (base ≤ k ≤ length (conns (sys_drv s)))%nat
       ∧ activeConns (sys_pool s) = seq k (length (conns (sys_drv s)) - k)
       ∧ ∀ c, (base ≤ c < k)%nat → conns (sys_drv s) !! c = Some true.

(** Only connection objects made after [base] are in the pool. *)
Definition owned (base : nat) (s : system) : Prop :=
  ∀ host c, (0 < located s host c)%nat → (base ≤ c)%nat.

(** The first half of [checkout]: the value [v] received by the nested
    selects, the pool without it, and the timer events. *)
Inductive took (p : gocqlConnectionPool) (a : string)
    : option Conn → gocqlConnectionPool → list event → Prop :=
| took_established cap v rest :
    hostConnsEstablished p !! a = Some (Chan cap (v :: rest)) →
    took p a v
      (set_established (<[a := Chan cap rest]> (hostConnsEstablished p)) p) []
| took_unestablished cap v rest :
    chan_poll (hostConnsEstablished p !! a) = None →
    hostConnsUnestablished p !! a = Some (Chan cap (v :: rest)) →
    took p a v
      (set_unestablished (<[a := Chan cap rest]> (hostConnsUnestablished p)) p)
      [EvTimerStop; EvTimerStart 5].

(** The four ways a [checkout] returns: the timer fires; a live connection
    is reused; a nil or dead value is replaced by a dial; the dial fails
    and a token goes back. *)
Inductive checkout_step (p : gocqlConnectionPool) (d : driver) (o : oracle)
    : gocqlConnCheckout → gocqlConnectionPool → driver → Prop :=
| step_timeout :
    chan_poll (hostConnsEstablished p !! o_pick o) = None →
    chan_poll (hostConnsUnestablished p !! o_pick o) = None →
    checkout_step p d o
      {| conn := None; hpResp := {| Host := o_pick o |} |} p
      (logged [EvLog Warn "Timed-out waiting for connection pool";
               EvTimerFired 5; EvTimerStart 5] d)
| step_reuse c p0 es :
    took p (o_pick o) (Some c) p0 es →
    dead d (Some c) = false →
    checkout_step p d o
      {| conn := Some c; hpResp := {| Host := o_pick o |} |} p0
      (logged [EvLog Trace "Checked-out reused connection"] (logged es d))
| step_dial v p0 es :
    took p (o_pick o) v p0 es →
    dead d v = true →
    o_dial o = None →
    checkout_step p d o
      {| conn := Some (length (conns d)); hpResp := {| Host := o_pick o |} |}
      (set_activeConns (activeConns p0 ++ [length (conns d)]) p0)
      (Driver (conns d ++ [false])
         (EvLog Trace "Checked-out new connection"
          :: EvDial (o_pick o) (connCfg_of (cc (Cfg p))) (Some (length (conns d)))
          :: EvLog Trace "Establishing new connection" :: es ++ trace d))
| step_refused v p0 es err ucap ubuf :
    took p (o_pick o) v p0 es →
    dead d v = true →
    o_dial o = Some err →
    hostConnsUnestablished p0 !! o_pick o = Some (Chan ucap ubuf) →
    (length ubuf < ucap)%nat →
    checkout_step p d o
      {| conn := None; hpResp := {| Host := o_pick o |} |}
      (set_unestablished
         (<[o_pick o := Chan ucap (ubuf ++ [None])]> (hostConnsUnestablished p0)) p0)
      (logged [EvLog Trace "Failed to check-out connection";
               EvLog Error "Error establishing connection";
               EvDial (o_pick o) (connCfg_of (cc (Cfg p))) None;
               EvLog Trace "Establishing new connection"] (logged es d)).


(** 1 when [host] is [a] and [v] is the connection [c], else 0. *)
Definition hit (host a : string) (v : option Conn) (c : Conn) : nat :=
  if bool_decide (host = a ∧ v = Some c) then 1%nat else 0%nat.


Definition healthy (base : nat) (s : system) : Prop :=
  slots_ok s ∧ exclusive s ∧ tracked base s ∧ owned base s.

(** The pool after [Close()]: nothing tracked, queues as they were. *)
Definition closed_pool (p : gocqlConnectionPool) : gocqlConnectionPool :=
  set_activeConns [] p.

(** A notification the watcher has nothing to do for: the configuration
    service failed, or the configuration hashes to the stored hash. *)
Definition quiet (hash : ksConfig → Z) (last : Z) (n : error + ksConfig) : Prop :=
  match n with
  | inl _ => True
  | inr c => hash c = last
  end.

(** The session-backed executor has a session whenever it says it is
    initialised. *)
Definition session_ready (m : SessionExecutor.machine) : Prop :=
  SessionExecutor.initialised (SessionExecutor.exec m) = true →
  is_Some (SessionExecutor.session (SessionExecutor.exec m)).

End Accounting.

(** ** The executor registry, the auth token caches, the Elasticsearch
    endpoint configuration and the DNS host lookup *)

Module Registry.

(** [ksConnections]: keyspace name to connection.  A [gocassa.Connection]
    made by [gocassa.NewConnection(&gocqlExecutor{ks: ks})] is identified
    with the address of the executor it wraps; [executors] are the
    executor objects ever allocated (index = address). *)
Record registry : Type := {
  ksConnections : gmap string nat;
  executors : list PoolExecutor.gocqlExecutor
}.

Definition empty : registry := {| ksConnections := ∅; executors := [] |}.

Definition gocqlConnector (keyspace : string) : M registry nat :=
  r <- get ;;
  match ksConnections r !! keyspace with
  | Some conn => ret conn
  | None =>
      r <- get ;;
      match ksConnections r !! keyspace with
      | Some conn => ret conn
      | None =>
          let conn := length (executors r) in
          put {| ksConnections := <[keyspace := conn]> (ksConnections r);
                 executors := executors r ++ [PoolExecutor.new keyspace] |} ;;
          ret conn
      end
  end.

(** Callers asking for the keyspaces [kss], one after the other. *)
Fixpoint connect_all (kss : list string) : M registry (list nat) :=
  match kss with
  | [] => ret []
  | k :: rest =>
      c <- gocqlConnector k ;;
      cs <- connect_all rest ;;
      ret (c :: cs)
  end.

Definition registered (r : registry) : Prop :=
  (∀ k a, ksConnections r !! k = Some a → executors r !! a = Some (PoolExecutor.new k))
  ∧ (∀ a e, executors r !! a = Some e → ksConnections r !! PoolExecutor.ks e = Some a).

End Registry.

Module Auth.

(** [User]: the fields of the session user this file reads. *)
Record User : Type := { SessId : string; Token : string; ExpiryTs : Z }.

#[global] Instance User_eq_dec : EqDecision User.
Proof. solve_decision. Defined.

Module TestCache.

Record testCache : Type := {
  users : gmap string User;
  invalidated : gmap string bool;
  failure : bool
}.

Definition newTestCache : testCache :=
  {| users := ∅; invalidated := ∅; failure := false |}.

Definition simulated : string := "Simulated failure".

Definition Store (u : User) (c : testCache) : testCache * option error :=
  if failure c then (c, Some simulated)
  else ({| users := <[SessId u := u]> (users c);
           invalidated := invalidated c; failure := failure c |}, None).

Definition Invalidate (sessID : string) (c : testCache) : testCache * option error :=
  if failure c then (c, Some simulated)
  else ({| users := match users c !! sessID with
                    | Some _ => delete sessID (users c)
                    | None => users c
                    end;
           invalidated := <[sessID := true]> (invalidated c);
           failure := failure c |}, None).

Definition Fetch (sessID : string) (c : testCache)
    : option User * bool * option error :=
  if failure c then (None, false, Some simulated)
  else if default false (invalidated c !! sessID) then (None, true, None)
  else match users c !! sessID with
       | Some u => (Some u, true, None)
       | None => (None, false, None)
       end.

Definition Purge (sessID : string) (c : testCache) : testCache * option error :=
  if failure c then (c, Some simulated)
  else ({| users := match users c !! sessID with
                    | Some _ => delete sessID (users c)
                    | None => users c
                    end;
           invalidated := match invalidated c !! sessID with
                          | Some _ => delete sessID (invalidated c)
                          | None => invalidated c
                          end;
           failure := failure c |}, None).

End TestCache.

Module Memcache.

(** Errors of the memcache client: [memcache.ErrCacheMiss] is compared by
    identity, any other error is just passed on. *)
Inductive mc_error : Type := ErrCacheMiss | ErrOther (msg : string).

#[global] Instance mc_error_eq_dec : EqDecision mc_error.
Proof. solve_decision. Defined.

Record Item : Type := { Key : string; Value : string; Expiration : Z }.

Definition invalidPlaceholder : string := "invalid".
Definition invalidateTimeout : Z := 3600.

Inductive note : Type :=
| Warn (fmt : string)
| Trace (fmt : string)
| Timing (name : string) (err : option mc_error)
| Counter (name : string).

Section Cacher.

(** [FromSessionToken(sessID, token)]; its definition is not among the
    sources. *)
Variable FromSessionToken : string → string → string + User.

(** [doFetch], given what [mc.Get(sessID)] answered: an error, or else an
    item; with the formats of the log lines written, in order. *)
Definition doFetch (got : mc_error + Item) (sessID : string)
    : option User * bool * option mc_error * list note :=
  match got with
  | inl err =>
      if decide (err ≠ ErrCacheMiss) then
        (None, false, Some err, [Warn "[Auth] Token cache fetch error for '%s': %v"])
      else (None, false, None, [Trace "[Auth] Token cache - miss"])
  | inr it =>
      if decide (Value it = invalidPlaceholder) then
        (None, true, None, [Trace "[Auth] Token cache - invalid placeholder in cache for %s"])
      else
        match FromSessionToken sessID (Value it) with
        | inl _ => (None, false, None, [Warn "[Auth] Token cache decode error: %v"])
        | inr u => (Some u, true, None, [])
        end
  end.

Definition Fetch (got : mc_error + Item) (sessID : string)
    : option User * bool * option mc_error * list note :=
  let '(u, hit, err, notes) := doFetch got sessID in
  (u, hit, err,
   notes ++ [Timing "auth.cache.fetch" err;
             Counter (if hit then "auth.cache.fetch.hit" else "auth.cache.fetch.miss")]).

End Cacher.

End Memcache.

End Auth.

Module Elasticsearch.

(** The variables of the elastigo [api] package this file sets;
    [eapi.SetHosts] stores its argument in [Hosts], which the log line
    after it prints. *)
Record eapi : Type := { Port : string; Protocol : string; Hosts : list string }.

(** [strconv.Itoa] *)
Definition Itoa (z : Z) : string := NilZero.string_of_int (Z.to_int z).

(** [loadEndpointConfig], given what the configuration answers for the
    port ([AsInt(9200)]) and for the hosts ([AsHostnameArray(port)]). *)
Definition loadEndpointConfig (port : Z) (configured : list string) (e : eapi) : eapi :=
  let hosts := if decide (length configured = 0%nat)
               then configured ++ ["localhost:19200"] else configured in
  {| Port := Itoa port;
     Protocol := if decide (port = 443) then "https" else Protocol e;
     Hosts := hosts |}.

(** The loads done for the configurations [ns], oldest first. *)
Definition reloads (ns : list (Z * list string)) (e : eapi) : eapi :=
  foldl (λ e n, loadEndpointConfig n.1 n.2 e) e ns.

End Elasticsearch.

Module Dns.

Definition domain : string := "hailocab.net".
Definition scope : string := "i".

(** [hostName], given the region and environment names. *)
Definition hostName (region env role : string) : string :=
  role +:+ "." +:+ region +:+ "." +:+ scope +:+ "." +:+ env +:+ "." +:+ domain.

(** The order of Go's [<] on strings. *)
Definition string_le (s1 s2 : string) : Prop := String.leb s1 s2 = true.

#[global] Instance string_le_dec s1 s2 : Decision (string_le s1 s2).
Proof. unfold string_le. apply _. Defined.

(** [sort.Strings]: the strings in increasing order. *)
Definition sort_Strings (l : list string) : list string := merge_sort string_le l.

Section Hosts.

Variable IP : Type.
Variable IP_String : IP → string.

(** [Hosts], given the region, the environment and the resolver. *)
Definition Hosts (region env : string) (LookupIP : string → string + list IP)
    (role : string) : list string * option error :=
  let name := hostName region env role in
  match LookupIP name with
  | inl err => ([], Some err)
  | inr ips => (sort_Strings (foldl (λ hosts ip, hosts ++ [IP_String ip]) [] ips), None)
  end.

End Hosts.

End Dns.

Module MoreExamples.
Import Pool Client Examples.

Definition calm_ops : list op :=
  [OpCheckout dial_ok; OpCheckout dial_refused; OpCheckin 0 None;
   OpSever 0; OpCheckout dial_ok; OpCheckout dial_ok].

Definition elsewhere : oracle :=
  {| o_pick := "host9"; o_coin := true; o_dial := None |}.


Definition healthy_world : PoolExecutor.world unit :=
  {| PoolExecutor.w_load := inr cfg_one;
     PoolExecutor.w_checkout := dial_ok;
     PoolExecutor.w_newSession := None;
     PoolExecutor.w_rows := [];
     PoolExecutor.w_err := Some "write timeout" |}.

Definition alice : Auth.User :=
  {| Auth.SessId := "sess-1"; Auth.Token := "token-1"; Auth.ExpiryTs := 0 |}.

End MoreExamples.

(** * Properties *)

Import Pool Client Props Examples.

Ltac go_simpl :=
  repeat (unfold bind, ret, get, put, modify, block, panic, zoom,
            Pool.self, Pool.update, logf, emit, new_conn, Closed, Conn_Close in *;
          simpl in *).

(** ** The runtime *)

Lemma bind_returns {S A B} (m : M S A) (k : A → M S B) s a s' :
  m s = Returns a s' → (x <- m ;; k x) s = k a s'.
Proof. unfold bind. by intros ->. Qed.

Lemma wrap_int_small z : - 2 ^ 63 ≤ z < 2 ^ 63 → wrap_int z = z.
Proof. intros Hz. unfold wrap_int. rewrite Z.mod_small; lia. Qed.

Lemma poll_none_len {A} (c : option (chan A)) :
  chan_poll c = None ↔ from_option chan_len 0%nat c = 0%nat.
Proof. destruct c as [[cap [|v rest]]|]; simpl; split; intros; done. Qed.

(** ** [checkout], phase by phase *)

Lemma hp_Get_ok p d pick :
  is_Some (hp p) → hp_Get pick (p, d) = Returns {| Host := pick |} (p, d).
Proof. intros [h Hh]. unfold hp_Get. cbn. by rewrite Hh. Qed.

Lemma hp_Get_nil p d pick :
  hp p = None → hp_Get pick (p, d) = Panics (p, d).
Proof. intros Hh. unfold hp_Get. cbn. by rewrite Hh. Qed.

Lemma select_conn_established p d host coin cap v rest :
  hostConnsEstablished p !! host = Some (Chan cap (v :: rest)) →
  select_conn host coin (p, d) =
    Returns (Some v)
      (set_established (<[host := Chan cap rest]> (hostConnsEstablished p)) p, d).
Proof. intros He. unfold select_conn. cbn. rewrite He. cbn. by destruct d. Qed.

Lemma select_conn_unestablished p d host coin cap v rest :
  chan_poll (hostConnsEstablished p !! host) = None →
  hostConnsUnestablished p !! host = Some (Chan cap (v :: rest)) →
  select_conn host coin (p, d) =
    Returns (Some v)
      (set_unestablished (<[host := Chan cap rest]> (hostConnsUnestablished p)) p,
       logged [EvTimerStop; EvTimerStart 5] d).
Proof. intros He Hu. unfold select_conn. cbn. rewrite He. cbn. rewrite Hu. by cbn. Qed.

Lemma select_conn_timeout p d host coin :
  chan_poll (hostConnsEstablished p !! host) = None →
  chan_poll (hostConnsUnestablished p !! host) = None →
  select_conn host coin (p, d) =
    Returns None
      (p, logged [EvLog Warn "Timed-out waiting for connection pool";
                  EvTimerFired 5; EvTimerStart 5] d).
Proof. intros He Hu. unfold select_conn. cbn. rewrite He. cbn. rewrite Hu. by cbn. Qed.

Lemma establish_alive p d r c dial :
  dead d (Some c) = false →
  establish r (Some c) dial (p, d) =
    Returns {| conn := Some c; hpResp := r |}
      (p, logged [EvLog Trace "Checked-out reused connection"] d).
Proof. unfold dead, establish. cbn. intros ->. by cbn. Qed.

Lemma establish_dialled p d r conn0 :
  dead d conn0 = true →
  establish r conn0 None (p, d) =
    Returns {| conn := Some (length (conns d)); hpResp := r |}
      (set_activeConns (activeConns p ++ [length (conns d)]) p,
       Driver (conns d ++ [false])
         (EvLog Trace "Checked-out new connection"
          :: EvDial (Host r) (connCfg_of (cc (Cfg p))) (Some (length (conns d)))
          :: EvLog Trace "Establishing new connection" :: trace d)).
Proof.
  unfold dead, establish. destruct conn0 as [c|]; cbn; [intros ->|intros _]; by cbn.
Qed.

Lemma establish_dial_failed p d r conn0 err cap buf :
  dead d conn0 = true →
  hostConnsUnestablished p !! Host r = Some (Chan cap buf) →
  (length buf < cap)%nat →
  establish r conn0 (Some err) (p, d) =
    Returns {| conn := None; hpResp := r |}
      (set_unestablished
         (<[Host r := Chan cap (buf ++ [None])]> (hostConnsUnestablished p)) p,
       logged [EvLog Trace "Failed to check-out connection";
               EvLog Error "Error establishing connection";
               EvDial (Host r) (connCfg_of (cc (Cfg p))) None;
               EvLog Trace "Establishing new connection"] d).
Proof.
  intros Hd Hu Hlen. destruct r as [host]. unfold dead, establish in *.
  unfold connect, send_unestablished.
  destruct conn0 as [c|]; go_simpl; [rewrite Hd|]; go_simpl; rewrite Hu; simpl;
    (destruct (decide (length buf < cap)%nat); [done|lia]).
Qed.

Lemma establish_dial_failed_full p d r conn0 err :
  dead d conn0 = true →
  chan_offer (hostConnsUnestablished p !! Host r) (None : option Conn) = None →
  establish r conn0 (Some err) (p, d) =
    Blocks (p, logged [EvLog Error "Error establishing connection";
                       EvDial (Host r) (connCfg_of (cc (Cfg p))) None;
                       EvLog Trace "Establishing new connection"] d).
Proof.
  intros Hd Hu. destruct r as [host]. unfold dead, establish in *.
  unfold connect, send_unestablished.
  destruct conn0 as [c|]; go_simpl; [rewrite Hd|]; go_simpl; by rewrite Hu.
Qed.

Lemma established_count_poll p host :
  established_count p host = 0%nat → chan_poll (hostConnsEstablished p !! host) = None.
Proof. intros. by apply poll_none_len. Qed.

Lemma unestablished_count_poll p host :
  unestablished_count p host = 0%nat →
  chan_poll (hostConnsUnestablished p !! host) = None.
Proof. intros. by apply poll_none_len. Qed.

Lemma closed_is_dead d c : conns d !! c = Some true → dead d (Some c) = true.
Proof. unfold dead. by intros ->. Qed.

Lemma closed_is_allocated d c :
  conns d !! c = Some true → (c < length (conns d))%nat.
Proof. intros H. by eapply lookup_lt_Some. Qed.

(** Whatever [establish] hands out reports open. *)
Lemma establish_conn_open p d r conn0 dial h s :
  establish r conn0 dial (p, d) = Returns h s →
  ∀ c, conn h = Some c → default false (conns s.2 !! c) = false.
Proof.
  intros Hret c Hc.
  destruct (dead d conn0) eqn:Hdead.
  - destruct dial as [err|].
    + destruct (chan_offer (hostConnsUnestablished p !! Host r) (None : option Conn))
        as [[cap' buf']|] eqn:Hoff.
      * destruct (hostConnsUnestablished p !! Host r) as [[cap buf]|] eqn:Hu; [|done].
        simpl in Hoff. case_decide; [|done].
        erewrite establish_dial_failed in Hret by done. by simplify_eq.
      * erewrite establish_dial_failed_full in Hret by done. done.
    + rewrite establish_dialled in Hret by done. simplify_eq. simpl in *. simplify_eq.
      by rewrite lookup_app_r, Nat.sub_diag.
  - destruct conn0 as [c0|]; [|done].
    rewrite establish_alive in Hret by done. simplify_eq. simpl in *. by simplify_eq.
Qed.

Lemma checkout_conn_open p d o h s :
  checkout o (p, d) = Returns h s →
  ∀ c, conn h = Some c → default false (conns s.2 !! c) = false.
Proof.
  unfold checkout. intros Hret.
  destruct (hp p) as [hpool|] eqn:Hhp.
  - erewrite bind_returns in Hret by (apply hp_Get_ok; by rewrite Hhp).
    unfold bind at 1 in Hret.
    destruct (select_conn _ _ _) as [[conn0|] [p1 d1]|?|?] eqn:Hsel; try done.
    + by eapply establish_conn_open.
    + unfold ret in Hret. by simplify_eq.
  - unfold bind at 1 in Hret. by rewrite hp_Get_nil in Hret.
Qed.

(** [checkin], all cases. *)
Lemma checkin_outcome p d h err :
  checkin h err (p, d) =
    match conn h with
    | None => Returns tt (marked (hpResp h) err p, d)
    | Some c =>
        match chan_offer (hostConnsEstablished p !! Host (hpResp h)) (Some c) with
        | Some q =>
            Returns tt
              (set_established (<[Host (hpResp h) := q]> (hostConnsEstablished p))
                               (marked (hpResp h) err p),
               logged [EvLog Trace "Checked-in connection"] d)
        | None => Blocks (marked (hpResp h) err p, d)
        end
    end.
Proof.
  destruct h as [[c|] [host]]; simpl.
  - unfold checkin, Mark, send_established. go_simpl.
    destruct (chan_offer (hostConnsEstablished p !! host) (Some c)); simpl;
      by destruct d.
  - unfold checkin, Mark. go_simpl. by destruct d.
Qed.

(** C2 (graceful exhaustion).  On an initialised pool, when the picked
    host has nothing in its established queue and nothing in its
    unestablished queue, [checkout] returns (it neither parks nor panics)
    the handle made of a nil connection and the pick; the pool is as it
    was and the trace records the 5-second timer starting and firing and
    the warning. *)
Theorem checkout_timeout_returns_nil p d o :
  is_Some (hp p) →
  established_count p (o_pick o) = 0%nat →
  unestablished_count p (o_pick o) = 0%nat →
  checkout o (p, d) =
    Returns {| conn := None; hpResp := {| Host := o_pick o |} |}
      (p, logged [EvLog Warn "Timed-out waiting for connection pool";
                  EvTimerFired 5; EvTimerStart 5] d).
Proof.
  intros Hhp He Hu. unfold checkout.
  erewrite bind_returns by by apply hp_Get_ok.
  erewrite bind_returns
    by (apply select_conn_timeout; simpl;
        [by apply established_count_poll | by apply unestablished_count_poll]).
  done.
Qed.

Lemma checkout_timeout_returns_nil_witness :
  is_Some (hp pool_exhausted)
  ∧ established_count pool_exhausted (o_pick dial_ok) = 0%nat
  ∧ unestablished_count pool_exhausted (o_pick dial_ok) = 0%nat
  ∧ checkout dial_ok (pool_exhausted, d0) =
      Returns {| conn := None; hpResp := {| Host := "host1" |} |}
        (pool_exhausted,
         logged [EvLog Warn "Timed-out waiting for connection pool";
                 EvTimerFired 5; EvTimerStart 5] d0).
Proof.
  assert (H1 : is_Some (hp pool_exhausted)) by (by eexists).
  assert (H2 : established_count pool_exhausted (o_pick dial_ok) = 0%nat)
    by (vm_compute; reflexivity).
  assert (H3 : unestablished_count pool_exhausted (o_pick dial_ok) = 0%nat)
    by (vm_compute; reflexivity).
  split; [exact H1|]. split; [exact H2|]. split; [exact H3|].
  exact (checkout_timeout_returns_nil pool_exhausted d0 dial_ok H1 H2 H3).
Defined.

(** C4 (dial failure).  On an initialised pool whose picked host has an
    empty established queue and an unestablished queue headed by a nil
    token, a [checkout] whose dial fails returns the nil-connection handle
    for the pick; the token is back in the unestablished queue, which holds
    as many values as before, nothing else in the pool changed, and the
    trace gained exactly one dial attempt. *)
Theorem checkout_dial_failure_restores_token p d o err cap rest :
  is_Some (hp p) →
  established_count p (o_pick o) = 0%nat →
  hostConnsUnestablished p !! o_pick o = Some (Chan cap (None :: rest)) →
  (length rest < cap)%nat →
  o_dial o = Some err →
  let d' := logged [EvLog Trace "Failed to check-out connection";
                    EvLog Error "Error establishing connection";
                    EvDial (o_pick o) (connCfg_of (cc (Cfg p))) None;
                    EvLog Trace "Establishing new connection";
                    EvTimerStop; EvTimerStart 5] d in
  checkout o (p, d) =
    Returns {| conn := None; hpResp := {| Host := o_pick o |} |}
      (set_unestablished
         (<[o_pick o := Chan cap (rest ++ [None])]> (hostConnsUnestablished p)) p, d')
  ∧ length (rest ++ [None]) = length (None :: rest)
  ∧ dials (trace d') = Datatypes.S (dials (trace d)).
Proof.
  intros Hhp He Hu Hlen Hdial d'. split; [|split; [|done]].
  - unfold checkout.
    erewrite bind_returns by by apply hp_Get_ok.
    erewrite bind_returns
      by (apply select_conn_unestablished; [by apply established_count_poll|done]).
    rewrite Hdial. simpl.
    erewrite establish_dial_failed; simpl; [| done | apply lookup_insert_eq | done].
    by rewrite insert_insert_eq.
  - rewrite length_app. simpl. lia.
Qed.

Lemma checkout_dial_failure_restores_token_witness :
  is_Some (hp pool_idle)
  ∧ established_count pool_idle (o_pick dial_refused) = 0%nat
  ∧ hostConnsUnestablished pool_idle !! o_pick dial_refused = Some (Chan 2 [None; None])
  ∧ (length [None : option Conn] < 2)%nat
  ∧ o_dial dial_refused = Some "connection refused"
  ∧ checkout dial_refused (pool_idle, d0) =
      Returns {| conn := None; hpResp := {| Host := "host1" |} |}
        (set_unestablished
           (<["host1" := Chan 2 [None; None]]> (hostConnsUnestablished pool_idle))
           pool_idle,
         logged [EvLog Trace "Failed to check-out connection";
                 EvLog Error "Error establishing connection";
                 EvDial "host1" (connCfg_of (cc cfg_one)) None;
                 EvLog Trace "Establishing new connection";
                 EvTimerStop; EvTimerStart 5] d0).
Proof.
  assert (H1 : is_Some (hp pool_idle)) by (by eexists).
  assert (H2 : established_count pool_idle (o_pick dial_refused) = 0%nat)
    by (vm_compute; reflexivity).
  assert (H3 : hostConnsUnestablished pool_idle !! o_pick dial_refused
               = Some (Chan 2 [None; None])) by (vm_compute; reflexivity).
  assert (H4 : (length [None : option Conn] < 2)%nat) by (simpl; lia).
  assert (H5 : o_dial dial_refused = Some "connection refused") by reflexivity.
  split; [exact H1|]. split; [exact H2|]. split; [exact H3|].
  split; [exact H4|]. split; [exact H5|].
  exact (proj1 (checkout_dial_failure_restores_token
                  pool_idle d0 dial_refused _ 2%nat [None] H1 H2 H3 H4 H5)).
Defined.

(** C9 (dead connections are replaced).  On an initialised pool, when the
    established queue of the picked host is headed by a connection [c]
    that reports closed, [checkout] takes it out of the queue and dials:
    if the dial succeeds it returns the newly made connection, which is
    not [c], reports open and is appended to [activeConns]; if the dial
    fails (and the unestablished queue has room, as slot accounting
    guarantees) it returns the nil-connection handle and a token goes to
    the unestablished queue.  In no case does a returned handle carry [c]. *)
Theorem checkout_replaces_closed_connection p d o cap c rest :
  is_Some (hp p) →
  hostConnsEstablished p !! o_pick o = Some (Chan cap (Some c :: rest)) →
  conns d !! c = Some true →
  let host := o_pick o in
  let made := List.length (conns d) in
  let p1 := set_established (<[host := Chan cap rest]> (hostConnsEstablished p)) p in
  match o_dial o with
  | None =>
      checkout o (p, d) =
        Returns {| conn := Some made; hpResp := {| Host := host |} |}
          (set_activeConns (activeConns p ++ [made]) p1,
           Driver (conns d ++ [false])
             (EvLog Trace "Checked-out new connection"
              :: EvDial host (connCfg_of (cc (Cfg p))) (Some made)
              :: EvLog Trace "Establishing new connection" :: trace d))
      ∧ made ≠ c ∧ (conns d ++ [false]) !! made = Some false
  | Some err =>
      ∀ ucap ubuf,
        hostConnsUnestablished p !! host = Some (Chan ucap ubuf) →
        (length ubuf < ucap)%nat →
        checkout o (p, d) =
          Returns {| conn := None; hpResp := {| Host := host |} |}
            (set_unestablished
               (<[host := Chan ucap (ubuf ++ [None])]> (hostConnsUnestablished p)) p1,
             logged [EvLog Trace "Failed to check-out connection";
                     EvLog Error "Error establishing connection";
                     EvDial host (connCfg_of (cc (Cfg p))) None;
                     EvLog Trace "Establishing new connection"] d)
  end
  ∧ ∀ h s, checkout o (p, d) = Returns h s → conn h ≠ Some c.
Proof.
  intros Hhp He Hc host made p1.
  assert (Hsel : (hp_Get (o_pick o) (p, d)) = Returns {| Host := host |} (p, d))
    by by apply hp_Get_ok.
  split.
  - unfold checkout. erewrite bind_returns by done.
    erewrite bind_returns by by eapply select_conn_established.
    destruct (o_dial o) as [err|] eqn:Hdial.
    + intros ucap ubuf Hu Hlen.
      by erewrite establish_dial_failed by by try apply closed_is_dead.
    + rewrite establish_dialled by by apply closed_is_dead.
      split; [done|]. split.
      * apply closed_is_allocated in Hc. subst made. lia.
      * subst made. by rewrite lookup_app_r, Nat.sub_diag.
  - intros h s Hret Hconn.
    pose proof (checkout_conn_open _ _ _ _ _ Hret c Hconn) as Hopen.
    assert (Hmono : conns s.2 !! c = Some true); [|by rewrite Hmono in Hopen].
    revert Hret. unfold checkout. erewrite bind_returns by done.
    erewrite bind_returns by by eapply select_conn_established.
    destruct (o_dial o) as [err|].
    + destruct (chan_offer (hostConnsUnestablished p1 !! host) (None : option Conn))
        as [[cap' buf']|] eqn:Hoff.
      * destruct (hostConnsUnestablished p1 !! host) as [[ucap ubuf]|] eqn:Hu; [|done].
        simpl in Hoff. case_decide; [|done].
        erewrite establish_dial_failed by by try apply closed_is_dead.
        intros; by simplify_eq.
      * by erewrite establish_dial_failed_full by by try apply closed_is_dead.
    + rewrite establish_dialled by by apply closed_is_dead.
      intros; simplify_eq. simpl. by apply lookup_app_l_Some.
Qed.

Lemma checkout_replaces_closed_connection_witness :
  is_Some (hp pool_stale)
  ∧ hostConnsEstablished pool_stale !! o_pick dial_ok = Some (Chan 2 [Some 0%nat])
  ∧ conns d_stale !! 0%nat = Some true
  ∧ checkout dial_ok (pool_stale, d_stale) =
      Returns {| conn := Some 1%nat; hpResp := {| Host := "host1" |} |}
        (set_activeConns [1%nat]
           (set_established
              (<["host1" := Chan 2 []]> (hostConnsEstablished pool_stale)) pool_stale),
         Driver [true; false]
           [EvLog Trace "Checked-out new connection";
            EvDial "host1" (connCfg_of (cc cfg_one)) (Some 1%nat);
            EvLog Trace "Establishing new connection"])
  ∧ ∀ h s, checkout dial_ok (pool_stale, d_stale) = Returns h s → conn h ≠ Some 0%nat.
Proof.
  assert (H1 : is_Some (hp pool_stale)) by (by eexists).
  assert (H2 : hostConnsEstablished pool_stale !! o_pick dial_ok
               = Some (Chan 2 [Some 0%nat])) by (vm_compute; reflexivity).
  assert (H3 : conns d_stale !! 0%nat = Some true) by reflexivity.
  split; [exact H1|]. split; [exact H2|]. split; [exact H3|].
  pose proof (checkout_replaces_closed_connection
                pool_stale d_stale dial_ok 2%nat 0%nat [] H1 H2 H3) as [Ha Hb].
  split; [exact (proj1 Ha) | exact Hb].
Defined.

(** C5 (checkin contract).  [checkin] reports the outcome to the selector
    whatever the handle carries (the mark is there in the state it ends
    in), never touches the unestablished queues, and: with a nil
    connection it returns having pushed nothing; with a connection [c] it
    appends [c] to the established queue of the handle's host when that
    queue has room. *)
Theorem checkin_contract p d h err :
  let host := Host (hpResp h) in
  let r := checkin h err (p, d) in
  let p' := (state_of r).1 in
  hp p' = (λ s, {| hp_hosts := hp_hosts s;
                   hp_marks := (host, err) :: hp_marks s |}) <$> hp p
  ∧ hostConnsUnestablished p' = hostConnsUnestablished p
  ∧ match conn h with
    | None =>
        r = Returns tt (marked (hpResp h) err p, d)
        ∧ hostConnsEstablished p' = hostConnsEstablished p
    | Some c =>
        ∀ cap buf,
          hostConnsEstablished p !! host = Some (Chan cap buf) →
          (length buf < cap)%nat →
          r = Returns tt
                (set_established
                   (<[host := Chan cap (buf ++ [Some c])]> (hostConnsEstablished p))
                   (marked (hpResp h) err p),
                 logged [EvLog Trace "Checked-in connection"] d)
    end.
Proof.
  intros host r p'. subst r p' host. rewrite checkin_outcome.
  destruct h as [[c|] [host]]; simpl.
  - destruct (chan_offer (hostConnsEstablished p !! host) (Some c)) eqn:Hoff; simpl;
      (split; [done|]; split; [done|]);
      intros cap buf He Hlen; rewrite He in Hoff; simpl in Hoff;
      rewrite decide_True in Hoff by done; by simplify_eq.
  - done.
Qed.

Lemma checkin_contract_witness :
  hostConnsEstablished pool_idle !! "host1" = Some (Chan 2 [])
  ∧ (length ([] : list (option Conn)) < 2)%nat
  ∧ checkin handle0 None (pool_idle, d0) =
      Returns tt
        (set_established
           (<["host1" := Chan 2 [Some 0%nat]]> (hostConnsEstablished pool_idle))
           (marked (hpResp handle0) None pool_idle),
         logged [EvLog Trace "Checked-in connection"] d0).
Proof.
  assert (H1 : hostConnsEstablished pool_idle !! "host1" = Some (Chan 2 []))
    by (vm_compute; reflexivity).
  assert (H2 : (length ([] : list (option Conn)) < 2)%nat) by (simpl; lia).
  split; [exact H1|]. split; [exact H2|].
  exact (proj2 (proj2 (checkin_contract pool_idle d0 handle0 None)) 2%nat [] H1 H2).
Defined.

(** ** Slot accounting *)


Lemma in_flight_app hs h host :
  in_flight (hs ++ [h]) host
  = (in_flight hs host + if holds_slot host h then 1 else 0)%nat.
Proof.
  unfold in_flight. rewrite List.filter_app, length_app. simpl.
  by destruct (holds_slot host h).
Qed.

Lemma in_flight_delete hs i h host :
  hs !! i = Some h →
  in_flight hs host
  = (in_flight (delete i hs) host + if holds_slot host h then 1 else 0)%nat.
Proof.
  unfold in_flight. revert i. induction hs as [|x hs IH]; intros [|i] Hi; simplify_eq/=.
  - destruct (holds_slot host h); simpl; lia.
  - specialize (IH i Hi). destruct (holds_slot host x); simpl; lia.
Qed.

Lemma holds_slot_self a c :
  holds_slot a {| conn := Some c; hpResp := {| Host := a |} |} = true.
Proof. unfold holds_slot. simpl. by rewrite bool_decide_eq_true_2. Qed.

Lemma on_pool_returns {A} (m : M Pool.state A) s a t :
  m (sys_pool s, sys_drv s) = Returns a t →
  on_pool m s = Returns a (System t.1 t.2 (held s)).
Proof. unfold on_pool, zoom. by intros ->. Qed.

Lemma close_all_returns cs p d :
  ∃ d', close_all cs (p, d) = Returns tt (p, d').
Proof.
  revert d. induction cs as [|c cs IH]; intros d; simpl.
  - by exists d.
  - unfold bind, Conn_Close, modify. simpl. apply IH.
Qed.

(** The invariant is kept by an operation that touched host [a] only. *)
Lemma slots_ok_frame s s' a :
  slots_ok s →
  Cfg (sys_pool s') = Cfg (sys_pool s) →
  is_Some (hp (sys_pool s')) →
  (∀ host, host ≠ a →
     hostConnsEstablished (sys_pool s') !! host = hostConnsEstablished (sys_pool s) !! host
     ∧ hostConnsUnestablished (sys_pool s') !! host = hostConnsUnestablished (sys_pool s) !! host
     ∧ in_flight (held s') host = in_flight (held s) host) →
  host_ok (Z.to_nat (NumConns (cc (Cfg (sys_pool s)))))
          (bool_decide (a ∈ hosts (Cfg (sys_pool s))))
          (hostConnsEstablished (sys_pool s') !! a)
          (hostConnsUnestablished (sys_pool s') !! a)
          (in_flight (held s') a) →
  slots_ok s'.
Proof.
  intros [Hhp Hall] Hcfg Hhp' Hframe Ha. split; [done|].
  intros host. rewrite Hcfg. destruct (decide (host = a)) as [->|Hne]; [done|].
  destruct (Hframe host Hne) as (-> & -> & ->). apply Hall.
Qed.

Ltac frame_other :=
  let host := fresh "host" in let Hne := fresh "Hne" in
  intros host Hne; simpl; rewrite ?lookup_insert_ne by done; done.

Ltac summary_intro :=
  eexists _, _, _; split; [done|]; simpl;
  split; [done|]; split; [done|]; split; [done|];
  split; [set_solver|]; split; [frame_other|];
  unfold host_ok; rewrite ?lookup_insert_eq, ?holds_slot_self.

Ltac summary_ok :=
  repeat split; rewrite ?length_app; simpl in *; try done; try lia.

(** One [checkout] against a host whose slots add up: it returns, and
    the slots still add up once the handle is counted. *)
Lemma checkout_summary p d o n member f :
  let a := o_pick o in
  is_Some (hp p) →
  host_ok n member (hostConnsEstablished p !! a) (hostConnsUnestablished p !! a) f →
  ∃ h p' d',
    checkout o (p, d) = Returns h (p', d')
    ∧ Cfg p' = Cfg p ∧ is_Some (hp p') ∧ Host (hpResp h) = a
    ∧ trace d ⊆ trace d'
    ∧ (∀ host, host ≠ a →
         hostConnsEstablished p' !! host = hostConnsEstablished p !! host
         ∧ hostConnsUnestablished p' !! host = hostConnsUnestablished p !! host)
    ∧ host_ok n member (hostConnsEstablished p' !! a) (hostConnsUnestablished p' !! a)
              (f + if holds_slot a h then 1 else 0)%nat.
Proof.
  intros a Hhp Hok.
  assert (Hget : hp_Get (o_pick o) (p, d) = Returns {| Host := a |} (p, d))
    by by apply hp_Get_ok.
  unfold checkout. erewrite bind_returns by done. simpl.
  destruct member; simpl in Hok.
  - destruct Hok as (ebuf & ubuf & He & Hu & Hsum).
    destruct ebuf as [|v erest].
    + destruct ubuf as [|v urest].
      * (* nothing buffered: the timer fires *)
        erewrite bind_returns
          by (apply select_conn_timeout; [by rewrite He|by rewrite Hu]).
        summary_intro. exists [], []. summary_ok.
      * (* a token from the unestablished queue *)
        erewrite bind_returns
          by (eapply select_conn_unestablished; [by rewrite He|done]).
        simpl in Hsum.
        destruct (dead (Driver (conns d) (EvTimerStop :: EvTimerStart 5 :: trace d)) v)
          eqn:Hdead.
        -- destruct (o_dial o) as [err|].
           ++ erewrite establish_dial_failed;
                [|done|simpl; apply lookup_insert_eq|simpl; lia].
              summary_intro. exists [], (urest ++ [None]). summary_ok.
           ++ rewrite establish_dialled by done.
              summary_intro. exists [], urest. summary_ok.
        -- destruct v as [c|]; [|done]. rewrite establish_alive by done.
           summary_intro. exists [], urest. summary_ok.
    + (* a value from the established queue *)
      erewrite bind_returns by (by eapply select_conn_established).
      simpl in Hsum.
      destruct (dead d v) eqn:Hdead.
      * destruct (o_dial o) as [err|].
        -- erewrite establish_dial_failed; [|done|simpl; apply Hu|lia].
           summary_intro. exists erest, (ubuf ++ [None]). summary_ok.
        -- rewrite establish_dialled by done.
           summary_intro. exists erest, ubuf. summary_ok.
      * destruct v as [c|]; [|done]. rewrite establish_alive by done.
        summary_intro. exists erest, ubuf. summary_ok.
  - (* a host the pool has no queues for: both channels are nil *)
    destruct Hok as (He & Hu & ->).
    erewrite bind_returns
      by (apply select_conn_timeout; [by rewrite He|by rewrite Hu]).
    summary_intro. summary_ok.
Qed.

(** The matching [checkin]: it returns, and the slots add up without
    the handle. *)
Lemma checkin_summary p d h err n member f :
  let a := Host (hpResp h) in
  is_Some (hp p) →
  host_ok n member (hostConnsEstablished p !! a) (hostConnsUnestablished p !! a)
          (f + if holds_slot a h then 1 else 0)%nat →
  ∃ p' d',
    checkin h err (p, d) = Returns tt (p', d')
    ∧ Cfg p' = Cfg p ∧ is_Some (hp p')
    ∧ trace d ⊆ trace d'
    ∧ (∀ host, host ≠ a →
         hostConnsEstablished p' !! host = hostConnsEstablished p !! host
         ∧ hostConnsUnestablished p' !! host = hostConnsUnestablished p !! host)
    ∧ host_ok n member (hostConnsEstablished p' !! a) (hostConnsUnestablished p' !! a) f.
Proof.
  intros a [hpool Hhp] Hok.
  pose proof (checkin_outcome p d h err) as Hc.
  destruct h as [[c|] [host]]; simpl in *; subst a.
  - rewrite holds_slot_self in Hok. destruct member; simpl in Hok.
    + destruct Hok as (ebuf & ubuf & He & Hu & Hsum).
      rewrite He in Hc. simpl in Hc. rewrite decide_True in Hc by lia.
      eexists _, _. split; [exact Hc|]. simpl. rewrite Hhp.
      split; [done|]. split; [by eexists|]. split; [set_solver|]. split; [frame_other|].
      rewrite lookup_insert_eq. exists (ebuf ++ [Some c]), ubuf.
      rewrite length_app. simpl. repeat split; try done. lia.
    + destruct Hok as (_ & _ & ?). lia.
  - eexists _, _. split; [exact Hc|]. simpl. rewrite Hhp.
    split; [done|]. split; [by eexists|]. split; [done|]. split; [done|].
    by rewrite Nat.add_0_r in Hok.
Qed.

Lemma step_ok o s :
  slots_ok s →
  ∃ s', step o s = Returns tt s' ∧ slots_ok s'
        ∧ Cfg (sys_pool s') = Cfg (sys_pool s).
Proof.
  intros Hinv. destruct s as [p d hs]. pose proof Hinv as [Hhp Hall]. simpl in *.
  destruct o as [orc|i err| |c]; simpl.
  - destruct (checkout_summary p d orc _ _ _ Hhp (Hall (o_pick orc)))
      as (h & p' & d' & Hrun & Hcfg & Hhp' & Hhost & _ & Hframe & Hok).
    erewrite bind_returns by (by apply on_pool_returns).
    eexists. split; [done|]. simpl. split; [|done].
    eapply (slots_ok_frame _ _ (o_pick orc)); [exact Hinv|done|done| |]; simpl.
    + intros host Hne. destruct (Hframe host Hne) as [-> ->].
      rewrite in_flight_app. unfold holds_slot. rewrite Hhost.
      rewrite (bool_decide_eq_false_2 (o_pick orc = host)) by done.
      rewrite andb_false_r. repeat split; lia.
    + by rewrite in_flight_app.
  - unfold bind at 1, get. simpl.
    destruct (hs !! i) as [h|] eqn:Hi; [|by eexists].
    unfold bind at 1, release, modify. simpl.
    specialize (Hall (Host (hpResp h))).
    rewrite (in_flight_delete hs i h _ Hi) in Hall.
    destruct (checkin_summary p d h err _ _ _ Hhp Hall)
      as (p' & d' & Hrun & Hcfg & Hhp' & _ & Hframe & Hok).
    erewrite (on_pool_returns _ (System p d (delete i hs))) by done.
    eexists. split; [done|]. simpl. split; [|done].
    eapply (slots_ok_frame _ _ (Host (hpResp h))); [exact Hinv|done|done| |]; simpl.
    + intros host Hne. destruct (Hframe host Hne) as [-> ->].
      rewrite (in_flight_delete hs i h host Hi). unfold holds_slot.
      rewrite (bool_decide_eq_false_2 (Host (hpResp h) = host)) by done.
      rewrite andb_false_r. repeat split; lia.
    + done.
  - destruct (close_all_returns (activeConns p) p d) as [d' Hd'].
    eexists. split.
    + apply on_pool_returns. simpl. unfold Close.
      erewrite bind_returns by (unfold Pool.self, bind, get, ret; simpl; done).
      erewrite bind_returns by done. done.
    + simpl. split; [|done]. split; [done|]. apply Hall.
  - eexists. split; [done|]. simpl. split; [|done]. split; [done|]. apply Hall.
Qed.

Lemma run_ok ops s :
  slots_ok s →
  ∃ s', run ops s = Returns tt s' ∧ slots_ok s'
        ∧ Cfg (sys_pool s') = Cfg (sys_pool s).
Proof.
  revert s. induction ops as [|o ops IH]; intros s Hinv; simpl.
  - by exists s.
  - destruct (step_ok o s Hinv) as (s1 & Hstep & Hinv1 & Hcfg1).
    destruct (IH s1 Hinv1) as (s2 & Hrun & Hinv2 & Hcfg2).
    exists s2. erewrite bind_returns by done. rewrite Hcfg2, Hcfg1. done.
Qed.

Lemma init_hosts_returns hs p d :
  0 ≤ NumConns (cc (Cfg p)) →
  let n := Z.to_nat (NumConns (cc (Cfg p))) in
  ∃ p', init_hosts hs (p, d) = Returns tt (p', d)
    ∧ Cfg p' = Cfg p ∧ hp p' = hp p ∧ activeConns p' = activeConns p
    ∧ ∀ host,
        if bool_decide (host ∈ hs) then
          hostConnsEstablished p' !! host = Some (Chan n [])
          ∧ hostConnsUnestablished p' !! host = Some (Chan n (replicate n None))
        else
          hostConnsEstablished p' !! host = hostConnsEstablished p !! host
          ∧ hostConnsUnestablished p' !! host = hostConnsUnestablished p !! host.
Proof.
  revert p. induction hs as [|h hs IH]; intros p Hn n.
  - exists p. repeat split; try done. 
  - simpl. unfold bind at 1, init_host. go_simpl.
    rewrite decide_False by lia. simpl.
    set (p1 := set_unestablished _ _).
    destruct (IH p1) as (p' & Hrun & Hcfg & Hhp & Hact & Hq); [done|].
    exists p'. rewrite Hrun. repeat split; try done.
    intros host. specialize (Hq host). simpl in Hq. fold n in Hq.
    destruct (decide (host ∈ hs)) as [Hin|Hnin].
    + rewrite bool_decide_eq_true_2 in Hq by done.
      rewrite bool_decide_eq_true_2 by (by right). done.
    + rewrite bool_decide_eq_false_2 in Hq by done. destruct Hq as [-> ->].
      destruct (decide (host = h)) as [->|Hne].
      * rewrite bool_decide_eq_true_2 by left. by rewrite !lookup_insert_eq.
      * rewrite bool_decide_eq_false_2 by (by intros [?|?]%elem_of_cons).
        by rewrite !lookup_insert_ne.
Qed.

Lemma init_returns cfg d :
  0 ≤ NumConns (cc cfg) →
  Z.of_nat (length (hosts cfg)) * NumConns (cc cfg) < 2 ^ 63 →
  let n := Z.to_nat (NumConns (cc cfg)) in
  ∃ p, Pool.init (Pool.new cfg, d) = Returns tt (p, d)
       ∧ Cfg p = cfg ∧ activeConns p = []
       ∧ hp p = Some {| hp_hosts := hosts cfg; hp_marks := [] |}
       ∧ ∀ host,
           if bool_decide (host ∈ hosts cfg) then
             hostConnsEstablished p !! host = Some (Chan n [])
             ∧ hostConnsUnestablished p !! host = Some (Chan n (replicate n None))
           else
             hostConnsEstablished p !! host = None
             ∧ hostConnsUnestablished p !! host = None.
Proof.
  intros Hn Hbound n. unfold Pool.init. go_simpl.
  rewrite wrap_int_small by lia. rewrite decide_False by lia. simpl.
  set (p0 := set_unestablished _ _).
  destruct (init_hosts_returns (hosts cfg) p0 d) as (p & Hrun & Hcfg & Hhp & Hact & Hq);
    [done|].
  exists p. rewrite Hrun. split; [done|]. split; [done|]. split; [done|].
  split; [done|]. intros host. specialize (Hq host). simpl in *.
  destruct (bool_decide (host ∈ hosts cfg)); [done|].
  by rewrite !lookup_empty in Hq.
Qed.

Lemma init_slots_ok cfg d :
  0 ≤ NumConns (cc cfg) →
  Z.of_nat (length (hosts cfg)) * NumConns (cc cfg) < 2 ^ 63 →
  ∃ p, Pool.init (Pool.new cfg, d) = Returns tt (p, d)
       ∧ Cfg p = cfg ∧ slots_ok (System p d []).
Proof.
  intros Hn Hbound.
  destruct (init_returns cfg d Hn Hbound) as (p & Hinit & Hcfg & Hact & Hhp & Hq).
  exists p. split; [done|]. split; [done|]. split.
  - simpl. rewrite Hhp. by eexists.
  - intros host. specialize (Hq host). simpl in *. rewrite Hcfg.
    unfold host_ok. destruct (bool_decide (host ∈ hosts cfg)).
    + destruct Hq as [-> ->]. eexists _, _. repeat split; try done.
      simpl. rewrite length_replicate. unfold in_flight. simpl. lia.
    + destruct Hq as [-> ->]. done.
Qed.

(** C1 (slot conservation).  Build a pool from a configuration with
    max-connections-per-host [N] (a non-negative [int] for which the
    capacity computed by [init] does not overflow) and apply any sequence
    of operations: checkouts with any pick, select and dial outcome,
    checkins of handles that are held (each at most once), bulk closes, and
    connections dying.  Every operation returns, and afterwards, for every
    host, the connections in its established queue plus the tokens in its
    unestablished queue plus the held handles that carry a connection to
    it are at most [N]; for a configured host they are exactly [N], so no
    slot taken by a checkout is lost or returned twice.  (A handle with a
    nil connection holds no slot.) *)
Theorem slot_conservation cfg d ops host :
  0 ≤ NumConns (cc cfg) →
  Z.of_nat (length (hosts cfg)) * NumConns (cc cfg) < 2 ^ 63 →
  ∃ s, session cfg d ops = Returns tt s
       ∧ Z.of_nat (slots s host) ≤ NumConns (cc cfg)
       ∧ (host ∈ hosts cfg → Z.of_nat (slots s host) = NumConns (cc cfg)).
Proof.
  intros Hn Hbound.
  destruct (init_slots_ok cfg d Hn Hbound) as (p & Hinit & Hcfg & Hinv).
  destruct (run_ok ops _ Hinv) as (s & Hrun & [_ Hall] & Hcfg').
  exists s. split.
  - unfold session. erewrite bind_returns by (by apply on_pool_returns). done.
  - specialize (Hall host). simpl in Hcfg'. rewrite Hcfg', Hcfg in Hall.
    unfold slots, established_count, unestablished_count, host_ok in *.
    destruct (bool_decide (host ∈ hosts cfg)) eqn:Hmem.
    + destruct Hall as (ebuf & ubuf & -> & -> & Hsum). simpl. unfold chan_len. simpl.
      split; [lia|]. intros _. lia.
    + destruct Hall as (-> & -> & ->). simpl. split; [lia|].
      intros Hin. by apply bool_decide_eq_false_1 in Hmem.
Qed.

Lemma slot_conservation_witness :
  0 ≤ NumConns (cc cfg_one)
  ∧ Z.of_nat (length (hosts cfg_one)) * NumConns (cc cfg_one) < 2 ^ 63
  ∧ ∃ s, session cfg_one d0 busy_ops = Returns tt s
         ∧ Z.of_nat (slots s "host1") ≤ NumConns (cc cfg_one)
         ∧ ("host1" ∈ hosts cfg_one → Z.of_nat (slots s "host1") = NumConns (cc cfg_one)).
Proof.
  assert (H1 : 0 ≤ NumConns (cc cfg_one)) by (simpl; lia).
  assert (H2 : Z.of_nat (length (hosts cfg_one)) * NumConns (cc cfg_one) < 2 ^ 63)
    by (simpl; lia).
  split; [exact H1|]. split; [exact H2|].
  exact (slot_conservation cfg_one d0 busy_ops "host1" H1 H2).
Defined.

(** C7 (reuse round-trip).  For a pool configured with the single host
    "host1" and 2 connections per host, with the selector picking among
    the configured hosts and the first dial succeeding: the first checkout
    returns a handle A on a newly dialled connection and [Size()] is 1;
    after [checkin(A, nil)] the second checkout returns a handle B with
    the host of A and the connection of A. *)
Theorem connection_reuse cfg d o1 o2 :
  hosts cfg = ["host1"] →
  NumConns (cc cfg) = 2 →
  o_pick o1 ∈ hosts cfg →
  o_pick o2 ∈ hosts cfg →
  o_dial o1 = None →
  ∃ A B s,
    reuse_scenario o1 o2 (Pool.new cfg, d) = Returns (A, 1%nat, B) s
    ∧ conn A = Some (length (conns d))
    ∧ EvDial "host1" (connCfg_of (cc cfg)) (Some (length (conns d))) ∈ trace s.2
    ∧ Host (hpResp A) = "host1"
    ∧ Host (hpResp B) = Host (hpResp A)
    ∧ conn B = conn A.
Proof.
  intros Hhosts Hn Hp1 Hp2 Hdial.
  rewrite Hhosts in Hp1, Hp2.
  apply list_elem_of_singleton in Hp1, Hp2.
  destruct (init_returns cfg d) as (p & Hinit & Hcfg & Hact & Hhp & Hq);
    [lia|rewrite Hhosts, Hn; simpl; lia|].
  specialize (Hq "host1"). rewrite Hhosts, Hn in Hq.
  rewrite bool_decide_eq_true_2 in Hq by left. destruct Hq as [He Hu].
  change (Z.to_nat 2) with 2%nat in *. simpl in Hu.
  set (c := length (conns d)).
  set (p1 := set_activeConns (activeConns p ++ [c])
               (set_unestablished
                  (<["host1" := Chan 2 [None]]> (hostConnsUnestablished p)) p)).
  set (d1 := Driver (conns d ++ [false])
               (EvLog Trace "Checked-out new connection"
                :: EvDial "host1" (connCfg_of (cc cfg)) (Some c)
                :: EvLog Trace "Establishing new connection"
                :: EvTimerStop :: EvTimerStart 5 :: trace d)).
  set (A := {| conn := Some c; hpResp := {| Host := "host1" |} |}).
  (* first checkout: a token, then a dial *)
  assert (Hc1 : checkout o1 (p, d) = Returns A (p1, d1)).
  { unfold checkout. rewrite Hp1.
    erewrite bind_returns by (apply hp_Get_ok; by rewrite Hhp).
    erewrite bind_returns
      by (eapply select_conn_unestablished; simpl; [by rewrite He|done]).
    rewrite Hdial. rewrite establish_dialled by done. simpl. by rewrite Hcfg. }
  assert (Hsz : Size (p1, d1) = Returns 1%nat (p1, d1)).
  { unfold Size. go_simpl. by rewrite Hact. }
  set (p2 := set_established
               (<["host1" := Chan 2 [Some c]]> (hostConnsEstablished p1))
               (marked (hpResp A) None p1)).
  set (d2 := Driver (conns d1) (EvLog Trace "Checked-in connection" :: trace d1)).
  assert (Hci : checkin A None (p1, d1) = Returns tt (p2, d2)).
  { rewrite checkin_outcome. simpl. by rewrite He. }
  (* second checkout: the connection just checked in, still open *)
  assert (Hc2 : checkout o2 (p2, d2)
                = Returns A (set_established
                               (<["host1" := Chan 2 []]> (hostConnsEstablished p2)) p2,
                             Driver (conns d2)
                               (EvLog Trace "Checked-out reused connection" :: trace d2))).
  { unfold checkout. rewrite Hp2.
    erewrite bind_returns by (apply hp_Get_ok; simpl; by rewrite Hhp).
    erewrite bind_returns
      by (eapply select_conn_established; simpl; apply lookup_insert_eq).
    simpl. rewrite establish_alive; [done|]. simpl.
    subst c. by rewrite lookup_app_r, Nat.sub_diag by lia. }
  eexists A, A, _. split.
  - unfold reuse_scenario.
    erewrite bind_returns by done. erewrite bind_returns by done.
    erewrite bind_returns by done. erewrite bind_returns by done.
    erewrite bind_returns by done. done.
  - simpl. repeat split; try done. set_solver.
Qed.

Lemma connection_reuse_witness :
  hosts cfg_one = ["host1"]
  ∧ NumConns (cc cfg_one) = 2
  ∧ o_pick dial_ok ∈ hosts cfg_one
  ∧ o_dial dial_ok = None
  ∧ ∃ A B s,
      reuse_scenario dial_ok dial_ok (Pool.new cfg_one, d0) = Returns (A, 1%nat, B) s
      ∧ conn A = Some (length (conns d0))
      ∧ EvDial "host1" (connCfg_of (cc cfg_one)) (Some (length (conns d0))) ∈ trace s.2
      ∧ Host (hpResp A) = "host1"
      ∧ Host (hpResp B) = Host (hpResp A)
      ∧ conn B = conn A.
Proof.
  assert (H1 : hosts cfg_one = ["host1"]) by reflexivity.
  assert (H2 : NumConns (cc cfg_one) = 2) by reflexivity.
  assert (H3 : o_pick dial_ok ∈ hosts cfg_one) by (simpl; left).
  assert (H4 : o_dial dial_ok = None) by reflexivity.
  split; [exact H1|]. split; [exact H2|]. split; [exact H3|]. split; [exact H4|].
  exact (connection_reuse cfg_one d0 dial_ok dial_ok H1 H2 H3 H3 H4).
Defined.

(** ** The executors *)

(** C6 (no-op reload).  When the watcher handles a notification and the
    configuration it loads hashes to the hash stored in the executor, the
    executor is left as it was: same pool pointer and stored hash, same
    pool objects (queues and tracked connections) and same connection
    objects; only the configuration load and a debug line are added to
    the trace.  This holds for the pool-backed watcher and for
    [reloadSession] of the session-backed one. *)
Theorem noop_reload_keeps_pool (hash : ksConfig → Z)
    (mp : PoolExecutor.machine) (ms : SessionExecutor.machine)
    (retryCh : chan unit) (c : ksConfig) (create : option error) :
  (hash c = PoolExecutor.lastHash (PoolExecutor.exec mp) →
   PoolExecutor.watch_body hash (inr c) mp
   = Returns tt
       (PoolExecutor.Machine (PoolExecutor.exec mp) (PoolExecutor.pools mp)
          (logged [EvLog Debug "Config changed but not invalidating connection pool";
                   EvLoadConfig (PoolExecutor.ks (PoolExecutor.exec mp))]
                  (PoolExecutor.drv mp))))
  ∧ (hash c = SessionExecutor.lastHash (SessionExecutor.exec ms) →
     SessionExecutor.reloadSession hash retryCh (inr c) create ms
     = Returns tt
         (SessionExecutor.Machine (SessionExecutor.exec ms) (SessionExecutor.sessions ms)
            (logged [EvLog Debug "Config changed but not invalidating connection pool";
                     EvLoadConfig (SessionExecutor.ks (SessionExecutor.exec ms))]
                    (SessionExecutor.drv ms)))).
Proof.
  split.
  - intros Hc. unfold PoolExecutor.watch_body, PoolExecutor.getKsConfig,
      PoolExecutor.self. go_simpl.
    by rewrite decide_False by (by intros ?).
  - intros Hc. unfold SessionExecutor.reloadSession, SessionExecutor.getKsConfig,
      SessionExecutor.self. go_simpl.
    by rewrite decide_False by (by intros ?).
Qed.

Lemma noop_reload_keeps_pool_witness :
  hosts_hash cfg_one = PoolExecutor.lastHash (PoolExecutor.exec pooled)
  ∧ hosts_hash cfg_one = SessionExecutor.lastHash (SessionExecutor.exec serving)
  ∧ PoolExecutor.watch_body hosts_hash (inr cfg_one) pooled
    = Returns tt
        (PoolExecutor.Machine (PoolExecutor.exec pooled) (PoolExecutor.pools pooled)
           (logged [EvLog Debug "Config changed but not invalidating connection pool";
                    EvLoadConfig "dummyks"] d0))
  ∧ SessionExecutor.reloadSession hosts_hash (Chan 0 []) (inr cfg_one) None serving
    = Returns tt
        (SessionExecutor.Machine (SessionExecutor.exec serving)
           (SessionExecutor.sessions serving)
           (logged [EvLog Debug "Config changed but not invalidating connection pool";
                    EvLoadConfig "dummyks"] d0)).
Proof.
  assert (H1 : hosts_hash cfg_one = PoolExecutor.lastHash (PoolExecutor.exec pooled))
    by reflexivity.
  assert (H2 : hosts_hash cfg_one
               = SessionExecutor.lastHash (SessionExecutor.exec serving))
    by reflexivity.
  split; [exact H1|]. split; [exact H2|].
  pose proof (noop_reload_keeps_pool hosts_hash pooled serving (Chan 0 []) cfg_one None)
    as [Hp Hs].
  split; [exact (Hp H1) | exact (Hs H2)].
Defined.

(** C8 ([ExecuteAtomically] is unsupported).  In both revisions, for every
    statement list and parameter list and in every state,
    [ExecuteAtomically] returns a non-nil error saying "not implemented"
    and the state it returns in (executor, pools or sessions, connections
    and the trace of outside effects) is the state it started in. *)
Theorem ExecuteAtomically_not_implemented :
  (∀ value stmt params (m : PoolExecutor.machine),
     ∃ err, PoolExecutor.ExecuteAtomically value stmt params m = Returns err m
            ∧ not_implemented err = true)
  ∧ (∀ value stmt params (m : SessionExecutor.machine),
       ∃ err, SessionExecutor.ExecuteAtomically value stmt params m = Returns err m
              ∧ not_implemented err = true).
Proof. split; intros; eexists; split; reflexivity. Qed.

(** *** Pool-backed executor: statements on a ready executor *)

Lemma pe_on_pool_returns {A} (m : M Pool.state A) (s : PoolExecutor.machine) a p x t :
  PoolExecutor.pools s !! a = Some p →
  m (p, PoolExecutor.drv s) = Returns x t →
  PoolExecutor.on_pool (Some a) m s
  = Returns x (PoolExecutor.Machine (PoolExecutor.exec s) (<[a := t.1]> (PoolExecutor.pools s)) t.2).
Proof. intros Hp Hm. unfold PoolExecutor.on_pool, zoom. simpl. by rewrite Hp, Hm. Qed.

(** A first, successful initialisation of an executor that has no pool. *)
Lemma pe_init_fresh hash (m : PoolExecutor.machine) c :
  PoolExecutor.initialised (PoolExecutor.exec m) = false →
  PoolExecutor.pool (PoolExecutor.exec m) = None →
  0 ≤ NumConns (cc c) →
  Z.of_nat (length (hosts c)) * NumConns (cc c) < 2 ^ 63 →
  let a := length (PoolExecutor.pools m) in
  let d := logged [EvGo "watchConfig"; EvLog Info "Switched config to";
                   EvLoadConfig (PoolExecutor.ks (PoolExecutor.exec m))] (PoolExecutor.drv m) in
  ∃ p,
    PoolExecutor.init hash (inr c) m
    = Returns None
        (PoolExecutor.Machine {| PoolExecutor.ks := PoolExecutor.ks (PoolExecutor.exec m); PoolExecutor.initialised := true;
                      PoolExecutor.lastHash := hash c; PoolExecutor.pool := Some a |}
                   (PoolExecutor.pools m ++ [p]) d)
    ∧ Cfg p = c
    ∧ slots_ok (System p d []).
Proof.
  intros Hinit Hpool Hn Hbound a d.
  destruct (init_slots_ok c (logged [EvLoadConfig (PoolExecutor.ks (PoolExecutor.exec m))] (PoolExecutor.drv m)) Hn Hbound)
    as (p & Hrun & Hcfg & Hok).
  exists p. split; [|split; [done|]].
  - unfold PoolExecutor.init, PoolExecutor.self. go_simpl. rewrite Hinit. go_simpl.
    unfold PoolExecutor.switchConfig, PoolExecutor.self, PoolExecutor.getKsConfig, PoolExecutor.new_pool, PoolExecutor.update. go_simpl.
    rewrite Hpool. go_simpl.
    unfold PoolExecutor.on_pool. simpl. rewrite lookup_app_r, Nat.sub_diag by lia. simpl.
    unfold zoom. simpl. unfold logged in Hrun. simpl in Hrun. rewrite Hrun. simpl.
    rewrite insert_app_r_alt, Nat.sub_diag by lia. done.
  - destruct Hok as [Hhp Hall]. split; [done|]. done.
Qed.

(** A checkout followed by the checkin of its handle: both return, and
    slot accounting holds again afterwards, whatever happened to the
    driver in between. *)
Lemma checkout_checkin_returns p d hs o :
  slots_ok (System p d hs) →
  ∃ h p1 d1,
    checkout o (p, d) = Returns h (p1, d1)
    ∧ trace d ⊆ trace d1
    ∧ ∀ d1' err, ∃ p2 d2,
        checkin h err (p1, d1') = Returns tt (p2, d2)
        ∧ trace d1' ⊆ trace d2
        ∧ Cfg p2 = Cfg p
        ∧ slots_ok (System p2 d2 hs).
Proof.
  intros [Hhp Hall]. simpl in *.
  destruct (checkout_summary p d o _ _ _ Hhp (Hall (o_pick o)))
    as (h & p1 & d1 & Hout & Hcfg1 & Hhp1 & Hhost & Htr1 & Hframe1 & Hok1).
  exists h, p1, d1. split; [done|]. split; [done|]. intros d1' err.
  rewrite <- Hhost in Hok1.
  destruct (checkin_summary p1 d1' h err _ _ _ Hhp1 Hok1)
    as (p2 & d2 & Hin & Hcfg2 & Hhp2 & Htr2 & Hframe2 & Hok2).
  exists p2, d2. split; [done|]. split; [done|]. split; [congruence|].
  split; [done|]. intros host. simpl. rewrite Hcfg2, Hcfg1.
  destruct (decide (host = o_pick o)) as [->|Hne].
  - by rewrite <- Hhost.
  - destruct (Hframe2 host) as [-> ->]; [congruence|].
    destruct (Hframe1 host Hne) as [-> ->]. apply Hall.
Qed.

Section PoolExecutorFacts.

Variable hash : ksConfig → Z.
Variable value : Type.

Lemma pe_init_done (m : PoolExecutor.machine) load :
  PoolExecutor.initialised (PoolExecutor.exec m) = true → PoolExecutor.init hash load m = Returns None m.
Proof. intros Hi. unfold PoolExecutor.init, PoolExecutor.self. go_simpl. by rewrite Hi. Qed.

Lemma pe_Query_ready (m : PoolExecutor.machine) (w : PoolExecutor.world value) stmt params a p hs :
  PoolExecutor.initialised (PoolExecutor.exec m) = true →
  PoolExecutor.pool (PoolExecutor.exec m) = Some a →
  PoolExecutor.pools m !! a = Some p →
  slots_ok (System p (PoolExecutor.drv m) hs) →
  ∃ r m',
    PoolExecutor.Query hash value w stmt params m = Returns r m'
    ∧ PoolExecutor.exec m' = PoolExecutor.exec m
    ∧ trace (PoolExecutor.drv m) ⊆ trace (PoolExecutor.drv m')
    ∧ length (PoolExecutor.pools m') = length (PoolExecutor.pools m)
    ∧ ∃ p', PoolExecutor.pools m' !! a = Some p' ∧ Cfg p' = Cfg p
            ∧ slots_ok (System p' (PoolExecutor.drv m') hs).
Proof.
  intros Hi Ha Hp Hok.
  destruct (checkout_checkin_returns p (PoolExecutor.drv m) hs (PoolExecutor.w_checkout w) Hok)
    as (h & p1 & d1 & Hout & Htr1 & Hin).
  assert (Ha1 : (a < length (PoolExecutor.pools m))%nat) by (by eapply lookup_lt_Some).
  unfold PoolExecutor.Query. erewrite bind_returns by by apply pe_init_done.
  simpl. erewrite bind_returns by reflexivity. rewrite Ha.
  erewrite bind_returns by by eapply pe_on_pool_returns.
  erewrite bind_returns by reflexivity.
  simpl. destruct (PoolExecutor.w_newSession w) as [er|]; simpl.
  - destruct (Hin (Driver (conns d1) (EvNewSession false :: trace d1)) (Some er))
      as (p2 & d2 & Hin2 & Htr2 & Hcfg2 & Hok2).
    erewrite bind_returns
      by (eapply pe_on_pool_returns;
          [simpl; by apply list_lookup_insert_eq|exact Hin2]).
    simpl. eexists _, _. split; [done|]. simpl.
    split; [done|]. split; [set_solver|]. rewrite !length_insert. split; [done|].
    exists p2. rewrite list_insert_insert_eq, list_lookup_insert_eq by done. done.
  - erewrite bind_returns by reflexivity. erewrite bind_returns by reflexivity.
    simpl.
    destruct (Hin (Driver (conns d1)
                     (EvLog Trace "Query took"
                      :: EvStatement stmt (length params)
                      :: EvNewSession true :: trace d1)) (PoolExecutor.w_err w))
      as (p2 & d2 & Hin2 & Htr2 & Hcfg2 & Hok2).
    erewrite bind_returns
      by (eapply pe_on_pool_returns;
          [simpl; by apply list_lookup_insert_eq|exact Hin2]).
    simpl. eexists _, _. split; [done|]. simpl.
    split; [done|]. split; [set_solver|]. rewrite !length_insert. split; [done|].
    exists p2. rewrite list_insert_insert_eq, list_lookup_insert_eq by done. done.
Qed.

Lemma pe_Execute_ready (m : PoolExecutor.machine) (w : PoolExecutor.world value) stmt params a p hs :
  PoolExecutor.initialised (PoolExecutor.exec m) = true →
  PoolExecutor.pool (PoolExecutor.exec m) = Some a →
  PoolExecutor.pools m !! a = Some p →
  slots_ok (System p (PoolExecutor.drv m) hs) →
  ∃ r m',
    PoolExecutor.Execute hash value w stmt params m = Returns r m'
    ∧ PoolExecutor.exec m' = PoolExecutor.exec m
    ∧ trace (PoolExecutor.drv m) ⊆ trace (PoolExecutor.drv m')
    ∧ length (PoolExecutor.pools m') = length (PoolExecutor.pools m)
    ∧ ∃ p', PoolExecutor.pools m' !! a = Some p' ∧ Cfg p' = Cfg p
            ∧ slots_ok (System p' (PoolExecutor.drv m') hs).
Proof.
  intros Hi Ha Hp Hok.
  destruct (checkout_checkin_returns p (PoolExecutor.drv m) hs (PoolExecutor.w_checkout w) Hok)
    as (h & p1 & d1 & Hout & Htr1 & Hin).
  assert (Ha1 : (a < length (PoolExecutor.pools m))%nat) by (by eapply lookup_lt_Some).
  unfold PoolExecutor.Execute. erewrite bind_returns by by apply pe_init_done.
  simpl. erewrite bind_returns by reflexivity. rewrite Ha.
  erewrite bind_returns by by eapply pe_on_pool_returns.
  erewrite bind_returns by reflexivity.
  simpl. destruct (PoolExecutor.w_newSession w) as [er|]; simpl.
  - destruct (Hin (Driver (conns d1) (EvNewSession false :: trace d1)) (Some er))
      as (p2 & d2 & Hin2 & Htr2 & Hcfg2 & Hok2).
    erewrite bind_returns
      by (eapply pe_on_pool_returns;
          [simpl; by apply list_lookup_insert_eq|exact Hin2]).
    simpl. eexists _, _. split; [done|]. simpl.
    split; [done|]. split; [set_solver|]. rewrite !length_insert. split; [done|].
    exists p2. rewrite list_insert_insert_eq, list_lookup_insert_eq by done. done.
  - erewrite bind_returns by reflexivity. erewrite bind_returns by reflexivity.
    simpl.
    destruct (Hin (Driver (conns d1)
                     (EvLog Trace "Execute took"
                      :: EvStatement stmt (length params)
                      :: EvNewSession true :: trace d1)) (PoolExecutor.w_err w))
      as (p2 & d2 & Hin2 & Htr2 & Hcfg2 & Hok2).
    erewrite bind_returns
      by (eapply pe_on_pool_returns;
          [simpl; by apply list_lookup_insert_eq|exact Hin2]).
    simpl. eexists _, _. split; [done|]. simpl.
    split; [done|]. split; [set_solver|]. rewrite !length_insert. split; [done|].
    exists p2. rewrite list_insert_insert_eq, list_lookup_insert_eq by done. done.
Qed.

Lemma pe_Query_first (m m' : PoolExecutor.machine) (w : PoolExecutor.world value) stmt params :
  PoolExecutor.init hash (PoolExecutor.w_load w) m = Returns None m' →
  PoolExecutor.initialised (PoolExecutor.exec m') = true →
  PoolExecutor.Query hash value w stmt params m = PoolExecutor.Query hash value w stmt params m'.
Proof.
  intros Hinit Hi. unfold PoolExecutor.Query.
  erewrite bind_returns by done. by erewrite (bind_returns _ _ m') by by apply pe_init_done.
Qed.

Lemma pe_Execute_first (m m' : PoolExecutor.machine) (w : PoolExecutor.world value) stmt params :
  PoolExecutor.init hash (PoolExecutor.w_load w) m = Returns None m' →
  PoolExecutor.initialised (PoolExecutor.exec m') = true →
  PoolExecutor.Execute hash value w stmt params m = PoolExecutor.Execute hash value w stmt params m'.
Proof.
  intros Hinit Hi. unfold PoolExecutor.Execute.
  erewrite bind_returns by done. by erewrite (bind_returns _ _ m') by by apply pe_init_done.
Qed.

(** C10 (a failed initialisation is retryable).  On an executor that was
    never initialised, when the configuration service fails during
    [Query] or [Execute], the call returns that error; the executor is
    unchanged (no pool, flag still false), no pool object was built and
    the only outside effect is the configuration load: no watcher was
    started.  A later [Query] or [Execute] for which the service answers
    with a configuration (one [init] accepts) runs the whole
    initialisation: it returns with the flag set, the hash stored, a pool
    built from that configuration at a new address, and the watcher
    started. *)
Theorem failed_init_is_retryable keyspace (m : PoolExecutor.machine) (w : PoolExecutor.world value)
    stmt params err :
  PoolExecutor.exec m = PoolExecutor.new keyspace →
  PoolExecutor.w_load w = inl err →
  let m1 := PoolExecutor.Machine (PoolExecutor.exec m) (PoolExecutor.pools m)
              (logged [EvLoadConfig keyspace] (PoolExecutor.drv m)) in
  PoolExecutor.Query hash value w stmt params m = Returns ([], Some err) m1
  ∧ PoolExecutor.Execute hash value w stmt params m = Returns (Some err) m1
  ∧ ∀ (w2 : PoolExecutor.world value) stmt2 params2 c,
      PoolExecutor.w_load w2 = inr c →
      0 ≤ NumConns (cc c) →
      Z.of_nat (length (hosts c)) * NumConns (cc c) < 2 ^ 63 →
      let a := length (PoolExecutor.pools m) in
      let ready := {| PoolExecutor.ks := keyspace; PoolExecutor.initialised := true;
                      PoolExecutor.lastHash := hash c; PoolExecutor.pool := Some a |} in
      (∃ r m2 p,
         PoolExecutor.Query hash value w2 stmt2 params2 m1 = Returns r m2
         ∧ PoolExecutor.exec m2 = ready
         ∧ PoolExecutor.pools m2 !! a = Some p ∧ Cfg p = c
         ∧ EvGo "watchConfig" ∈ trace (PoolExecutor.drv m2))
      ∧ (∃ r m2 p,
           PoolExecutor.Execute hash value w2 stmt2 params2 m1 = Returns r m2
           ∧ PoolExecutor.exec m2 = ready
           ∧ PoolExecutor.pools m2 !! a = Some p ∧ Cfg p = c
           ∧ EvGo "watchConfig" ∈ trace (PoolExecutor.drv m2)).
Proof.
  intros Hnew Hload m1.
  split; [|split].
  - unfold PoolExecutor.Query, PoolExecutor.init, PoolExecutor.getKsConfig, PoolExecutor.self. go_simpl.
    rewrite Hnew, Hload. reflexivity.
  - unfold PoolExecutor.Execute, PoolExecutor.init, PoolExecutor.getKsConfig, PoolExecutor.self. go_simpl.
    rewrite Hnew, Hload. reflexivity.
  - intros w2 stmt2 params2 c Hload2 Hn Hbound a ready.
    destruct (pe_init_fresh hash m1 c) as (p & Hinit & Hcfg & Hok);
      [by (simpl; rewrite Hnew)..|done|done|].
    simpl in Hinit, Hok. rewrite Hnew in Hinit, Hok. simpl in Hinit, Hok.
    fold a in Hinit. fold ready in Hinit.
    set (m' := PoolExecutor.Machine ready _ _) in Hinit.
    assert (Hpa : PoolExecutor.pools m' !! a = Some p)
      by (simpl; by rewrite lookup_app_r, Nat.sub_diag by done).
    split.
    + destruct (pe_Query_ready m' w2 stmt2 params2 a p [])
        as (r & m2 & Hrun & Hexec & Htr & _ & p' & Hp' & Hcfg' & _); try done.
      exists r, m2, p'. rewrite (pe_Query_first m1 m') by (by rewrite ?Hload2).
      split; [done|]. split; [done|]. split; [done|]. split; [congruence|].
      apply Htr. simpl. set_solver.
    + destruct (pe_Execute_ready m' w2 stmt2 params2 a p [])
        as (r & m2 & Hrun & Hexec & Htr & _ & p' & Hp' & Hcfg' & _); try done.
      exists r, m2, p'. rewrite (pe_Execute_first m1 m') by (by rewrite ?Hload2).
      split; [done|]. split; [done|]. split; [done|]. split; [congruence|].
      apply Htr. simpl. set_solver.
Qed.

End PoolExecutorFacts.

Lemma failed_init_is_retryable_witness :
  PoolExecutor.exec unused = PoolExecutor.new "dummyks"
  ∧ PoolExecutor.w_load config_down = inl "config service unavailable"
  ∧ PoolExecutor.Query hosts_hash unit config_down "SELECT" [] unused
    = Returns ([], Some "config service unavailable")
        (PoolExecutor.Machine (PoolExecutor.exec unused) (PoolExecutor.pools unused)
           (logged [EvLoadConfig "dummyks"] (PoolExecutor.drv unused))).
Proof.
  assert (H1 : PoolExecutor.exec unused = PoolExecutor.new "dummyks") by reflexivity.
  assert (H2 : PoolExecutor.w_load config_down = inl "config service unavailable")
    by reflexivity.
  split; [exact H1|]. split; [exact H2|].
  exact (proj1 (failed_init_is_retryable hosts_hash unit "dummyks" unused config_down
                  "SELECT" [] "config service unavailable" H1 H2)).
Defined.

(** *** Session-backed executor: a switch that fails *)

Section SessionExecutorFacts.

Variable hash : ksConfig → Z.

(** The watcher's retry signal is sent on an unbuffered channel that only
    the watcher itself receives from: the send parks it. *)
Lemma reloadSession_failure_parks (m : SessionExecutor.machine) c err s :
  SessionExecutor.session (SessionExecutor.exec m) = Some s →
  hash c ≠ SessionExecutor.lastHash (SessionExecutor.exec m) →
  SessionExecutor.reloadSession hash (Chan 0 []) (inr c) (Some err) m = Blocks (failed_switch c s m).
Proof.
  intros Hs Hc. unfold SessionExecutor.reloadSession, SessionExecutor.getKsConfig, SessionExecutor.self. go_simpl.
  rewrite decide_True by done.
  unfold SessionExecutor.switchConfig, SessionExecutor.self, SessionExecutor.Session_Close, SessionExecutor.update, SessionExecutor.CreateSession. go_simpl.
  rewrite Hs. go_simpl. done.
Qed.

Lemma watchConfig_failure_parks (m : SessionExecutor.machine) c err s rest :
  SessionExecutor.session (SessionExecutor.exec m) = Some s →
  hash c ≠ SessionExecutor.lastHash (SessionExecutor.exec m) →
  SessionExecutor.watchConfig hash ((inr c, Some err) :: rest) m = Blocks (failed_switch c s m).
Proof.
  intros Hs Hc. unfold SessionExecutor.watchConfig. simpl. unfold bind.
  by rewrite (reloadSession_failure_parks m c err s).
Qed.

(** C3, amended (a failed switch).  When the watcher handles a
    notification whose configuration hashes differently from the stored
    hash and building the new session fails, the executor still points at
    the previous session and still stores the previous hash, but that
    session has been closed and the stored configuration replaced by the
    new one before the build was attempted; no session was created, and
    the watcher logged the change and the error and slept 1 second. *)
Theorem failed_switch_closes_previous_session (m : SessionExecutor.machine) c err s :
  SessionExecutor.session (SessionExecutor.exec m) = Some s →
  hash c ≠ SessionExecutor.lastHash (SessionExecutor.exec m) →
  let m' := state_of (SessionExecutor.watchConfig hash [(inr c, Some err)] m) in
  SessionExecutor.session (SessionExecutor.exec m') = Some s
  ∧ SessionExecutor.lastHash (SessionExecutor.exec m') = SessionExecutor.lastHash (SessionExecutor.exec m)
  ∧ SessionExecutor.cfg (SessionExecutor.exec m') = c
  ∧ SessionExecutor.sessions m' = <[s := true]> (SessionExecutor.sessions m)
  ∧ SessionExecutor.drv m' = logged [EvSleep 1;
                       EvLog Error "Error creating session, retrying after 1s delay";
                       EvCreateSession false;
                       EvSessionClose s;
                       EvLog Info "Config changed; invalidating connection pool";
                       EvLoadConfig (SessionExecutor.ks (SessionExecutor.exec m))] (SessionExecutor.drv m).
Proof.
  intros Hs Hc m'. subst m'. rewrite (watchConfig_failure_parks m c err s) by done.
  simpl. by rewrite Hs.
Qed.

End SessionExecutorFacts.

Lemma failed_switch_closes_previous_session_witness :
  SessionExecutor.session (SessionExecutor.exec serving) = Some 0%nat
  ∧ hosts_hash cfg_two ≠ SessionExecutor.lastHash (SessionExecutor.exec serving)
  ∧ SessionExecutor.sessions
      (state_of (SessionExecutor.watchConfig hosts_hash
                   [(inr cfg_two, Some "no hosts available")] serving))
    = <[0%nat := true]> (SessionExecutor.sessions serving).
Proof.
  assert (H1 : SessionExecutor.session (SessionExecutor.exec serving) = Some 0%nat)
    by reflexivity.
  assert (H2 : hosts_hash cfg_two
               ≠ SessionExecutor.lastHash (SessionExecutor.exec serving))
    by (vm_compute; discriminate).
  split; [exact H1|]. split; [exact H2|].
  exact (proj1 (proj2 (proj2 (proj2
           (failed_switch_closes_previous_session hosts_hash serving cfg_two
              "no hosts available" 0%nat H1 H2))))).
Defined.

(** C3 as stated fails: the executor serves [cfg_one] on an open session,
    the watcher loads [cfg_two] (a different hash) and the new session
    cannot be built; afterwards the session that was open is closed and
    the executor no longer holds the previous configuration. *)
Lemma failed_switch_breaks_previous_session :
  hosts_hash cfg_two ≠ SessionExecutor.lastHash (SessionExecutor.exec serving)
  ∧ SessionExecutor.sessions serving !! 0%nat = Some false
  ∧ SessionExecutor.sessions (state_of (SessionExecutor.watchConfig hosts_hash
                            [(inr cfg_two, Some "no hosts available")] serving))
      !! 0%nat = Some true
  ∧ ¬ previous_session_intact serving
        (state_of (SessionExecutor.watchConfig hosts_hash
                     [(inr cfg_two, Some "no hosts available")] serving)).
Proof.
  split; [done|]. split; [done|]. split; [done|].
  intros [_ Hs]. vm_compute in Hs. done.
Qed.

(** * More of the code *)

Import Accounting MoreExamples.

(** ** Following single connections through the pool *)


Lemma took_select p d a coin v p0 es :
  took p a v p0 es → select_conn a coin (p, d) = Returns (Some v) (p0, logged es d).
Proof.
  intros [cap v' rest He|cap v' rest He Hu].
  - erewrite select_conn_established by done. by destruct d.
  - by erewrite select_conn_unestablished by done.
Qed.

Lemma took_frame p a v p0 es :
  took p a v p0 es → Cfg p0 = Cfg p ∧ hp p0 = hp p ∧ activeConns p0 = activeConns p.
Proof. by intros [cap v' rest He|cap v' rest He Hu]. Qed.

(** The relation describes [checkout] exactly. *)
Lemma checkout_step_sound p d o h p' d' :
  is_Some (hp p) →
  checkout_step p d o h p' d' → checkout o (p, d) = Returns h (p', d').
Proof.
  intros Hhp Hstep. unfold checkout.
  erewrite bind_returns by by apply hp_Get_ok.
  destruct Hstep as [He Hu|c p0 es Ht Hd|v p0 es Ht Hd Hdial
                     |v p0 es err ucap ubuf Ht Hd Hdial Hu Hlen]; simpl.
  - by erewrite bind_returns by by apply select_conn_timeout.
  - erewrite bind_returns by by eapply took_select.
    simpl. by rewrite establish_alive.
  - erewrite bind_returns by by eapply took_select.
    simpl. rewrite Hdial, establish_dialled by done.
    destruct (took_frame _ _ _ _ _ Ht) as (-> & _ & _). done.
  - erewrite bind_returns by by eapply took_select.
    simpl. rewrite Hdial. erewrite establish_dial_failed by done.
    destruct (took_frame _ _ _ _ _ Ht) as (-> & _ & _). done.
Qed.

(** On a host whose slots add up, [checkout] takes one of these steps. *)
Lemma checkout_step_complete p d o n member f :
  host_ok n member (hostConnsEstablished p !! o_pick o)
          (hostConnsUnestablished p !! o_pick o) f →
  ∃ h p' d', checkout_step p d o h p' d'.
Proof.
  intros Hok.
  assert (Hcase :
    (chan_poll (hostConnsEstablished p !! o_pick o) = None
     ∧ chan_poll (hostConnsUnestablished p !! o_pick o) = None)
    ∨ ∃ v p0 es, took p (o_pick o) v p0 es
                 ∧ ∃ ucap ubuf, hostConnsUnestablished p0 !! o_pick o = Some (Chan ucap ubuf)
                                ∧ (length ubuf < ucap)%nat).
  { destruct member; simpl in Hok.
    - destruct Hok as (ebuf & ubuf & He & Hu & Hsum).
      destruct ebuf as [|v erest].
      + destruct ubuf as [|v urest].
        * left. by rewrite He, Hu.
        * right. eexists v, _, _. split.
          -- eapply took_unestablished; [by rewrite He|done].
          -- simpl. rewrite lookup_insert_eq. eexists _, _. split; [done|].
             simpl in Hsum. lia.
      + right. eexists v, _, _. split.
        * by eapply took_established.
        * simpl. eexists _, _. split; [done|]. simpl in Hsum. lia.
    - destruct Hok as (He & Hu & _). left. by rewrite He, Hu. }
  destruct Hcase as [[He Hu]|(v & p0 & es & Ht & ucap & ubuf & Hu & Hlen)].
  - eexists _, _, _. by apply step_timeout.
  - destruct (dead d v) eqn:Hd.
    + destruct (o_dial o) as [err|] eqn:Hdial.
      * eexists _, _, _. by eapply step_refused.
      * eexists _, _, _. by eapply step_dial.
    + destruct v as [c|]; [|done]. eexists _, _, _. by eapply step_reuse.
Qed.

Lemma hit_nil host a c : hit host a None c = 0%nat.
Proof. unfold hit. by rewrite bool_decide_eq_false_2 by (by intros [? ?]). Qed.

Lemma queued_insert m a q host c :
  queued (<[a := q]> m) host c
  = if decide (host = a) then count_conn c (chan_buf q) else queued m host c.
Proof.
  unfold queued. destruct (decide (host = a)) as [->|Hne].
  - by rewrite lookup_insert_eq.
  - by rewrite lookup_insert_ne.
Qed.

Lemma count_conn_cons c v buf :
  count_conn c (v :: buf)
  = ((if bool_decide (v = Some c) then 1 else 0) + count_conn c buf)%nat.
Proof. unfold count_conn. simpl. by destruct (bool_decide (v = Some c)). Qed.

Lemma count_conn_snoc c v buf :
  count_conn c (buf ++ [v])
  = (count_conn c buf + if bool_decide (v = Some c) then 1 else 0)%nat.
Proof.
  unfold count_conn. rewrite List.filter_app, length_app. simpl.
  by destruct (bool_decide (v = Some c)).
Qed.

Lemma carried_snoc hs h host c :
  carried (hs ++ [h]) host c
  = (carried hs host c + hit host (Host (hpResp h)) (conn h) c)%nat.
Proof.
  unfold carried, hit, carries. rewrite List.filter_app, length_app. simpl.
  destruct (decide (conn h = Some c)) as [Hc|Hc];
    destruct (decide (Host (hpResp h) = host)) as [Hh|Hh];
    rewrite ?(bool_decide_eq_true_2 _ Hc), ?(bool_decide_eq_false_2 _ Hc),
            ?(bool_decide_eq_true_2 _ Hh), ?(bool_decide_eq_false_2 _ Hh); simpl.
  - by rewrite bool_decide_eq_true_2 by done.
  - by rewrite bool_decide_eq_false_2 by (intros [? ?]; congruence).
  - by rewrite bool_decide_eq_false_2 by (intros [? ?]; congruence).
  - by rewrite bool_decide_eq_false_2 by (intros [? ?]; congruence).
Qed.

Lemma carried_delete hs i h host c :
  hs !! i = Some h →
  carried hs host c
  = (carried (delete i hs) host c + hit host (Host (hpResp h)) (conn h) c)%nat.
Proof.
  intros Hi.
  assert (Hone : (if carries host c h then 1 else 0)%nat
                 = hit host (Host (hpResp h)) (conn h) c).
  { pose proof (carried_snoc [] h host c) as H. unfold carried in H. simpl in H.
    rewrite <- H. by destruct (carries host c h). }
  rewrite <- Hone. clear Hone. unfold carried. revert i Hi.
  induction hs as [|x hs IH]; intros [|i] Hi; simplify_eq/=.
  - destruct (carries host c h); simpl; lia.
  - specialize (IH i Hi). destruct (carries host c x); simpl; lia.
Qed.

Lemma took_balance p a v p0 es :
  took p a v p0 es →
  ∀ host c,
    (queued (hostConnsEstablished p0) host c + queued (hostConnsUnestablished p0) host c
     + hit host a v c
     = queued (hostConnsEstablished p) host c
       + queued (hostConnsUnestablished p) host c)%nat.
Proof.
  intros [cap v' rest He|cap v' rest He Hu] host c; simpl;
    rewrite queued_insert; unfold hit; destruct (decide (host = a)) as [->|Hne].
  - unfold queued at 2. rewrite He. simpl. rewrite count_conn_cons.
    destruct (decide (v' = Some c)) as [Hv|Hv].
    + rewrite !bool_decide_eq_true_2 by done. lia.
    + rewrite !bool_decide_eq_false_2 by (try intros [? ?]; done). lia.
  - rewrite bool_decide_eq_false_2 by (intros [? ?]; done). lia.
  - unfold queued at 3. rewrite Hu. simpl. rewrite count_conn_cons.
    destruct (decide (v' = Some c)) as [Hv|Hv].
    + rewrite !bool_decide_eq_true_2 by done. lia.
    + rewrite !bool_decide_eq_false_2 by (try intros [? ?]; done). lia.
  - rewrite bool_decide_eq_false_2 by (intros [? ?]; done). lia.
Qed.

(** What one [checkout] does to the whereabouts of every connection: the
    value [v] it removed from a queue leaves, the connection of the handle
    arrives; and either no connection object was made and the handle
    carries nothing or the live [v], or one was made and the handle
    carries it. *)
Lemma checkout_balance p d o h p' d' :
  checkout_step p d o h p' d' →
  Cfg p' = Cfg p ∧ Host (hpResp h) = o_pick o ∧
  ∃ v,
    (∀ hs host c,
       (located (System p' d' (hs ++ [h])) host c + hit host (o_pick o) v c
        = located (System p d hs) host c + hit host (o_pick o) (conn h) c)%nat)
    ∧ (v = conn h ∨ dead d v = true)
    ∧ ((conns d' = conns d ∧ activeConns p' = activeConns p
        ∧ (conn h = None ∨ (conn h = v ∧ dead d v = false)))
       ∨ (conns d' = conns d ++ [false]
          ∧ activeConns p' = activeConns p ++ [length (conns d)]
          ∧ conn h = Some (length (conns d)))).
Proof.
  intros [He Hu|c p0 es Ht Hd|v p0 es Ht Hd Hdial
          |v p0 es err ucap ubuf Ht Hd Hdial Hu Hlen]; simpl.
  - split; [done|]. split; [done|]. exists None. split; [|split; [by left|left; by eauto]].
    intros hs host c. unfold located. simpl. rewrite carried_snoc. simpl.
    rewrite hit_nil. lia.
  - destruct (took_frame _ _ _ _ _ Ht) as (Hcfg & _ & Hact).
    split; [done|]. split; [done|]. exists (Some c).
    split; [|split; [by left|left; by eauto]].
    intros hs host c'. unfold located. simpl. rewrite carried_snoc. simpl.
    pose proof (took_balance _ _ _ _ _ Ht host c'). lia.
  - destruct (took_frame _ _ _ _ _ Ht) as (Hcfg & _ & Hact).
    split; [done|]. split; [done|]. exists v.
    split; [|split; [by right|right; by rewrite Hact]].
    intros hs host c'. unfold located. simpl. rewrite carried_snoc. simpl.
    pose proof (took_balance _ _ _ _ _ Ht host c'). lia.
  - destruct (took_frame _ _ _ _ _ Ht) as (Hcfg & _ & Hact).
    split; [done|]. split; [done|]. exists v.
    split; [|split; [by right|left; by eauto]].
    intros hs host c'. unfold located. simpl. rewrite carried_snoc. simpl.
    rewrite queued_insert.
    pose proof (took_balance _ _ _ _ _ Ht host c') as Hb.
    destruct (decide (host = o_pick o)) as [->|Hne]; [|lia].
    unfold queued at 2 in Hb. rewrite Hu in Hb. simpl in Hb.
    simpl. rewrite count_conn_snoc, hit_nil. rewrite bool_decide_eq_false_2 by done. lia.
Qed.

Lemma hit_cases host a v c :
  (hit host a v c = 1%nat ∧ host = a ∧ v = Some c) ∨ hit host a v c = 0%nat.
Proof.
  unfold hit. destruct (decide (host = a ∧ v = Some c)) as [[? ?]|Hn].
  - left. by rewrite bool_decide_eq_true_2.
  - right. by rewrite bool_decide_eq_false_2.
Qed.

Lemma hit_same host a c : hit host a (Some c) c = (if decide (host = a) then 1 else 0)%nat.
Proof.
  unfold hit. destruct (decide (host = a)).
  - by rewrite bool_decide_eq_true_2.
  - by rewrite bool_decide_eq_false_2 by (by intros [? ?]).
Qed.

Lemma checkin_balance p d h err p' d' hs i :
  checkin h err (p, d) = Returns tt (p', d') →
  hs !! i = Some h →
  conns d' = conns d ∧ activeConns p' = activeConns p ∧
  ∀ host c,
    located (System p' d' (delete i hs)) host c = located (System p d hs) host c.
Proof.
  rewrite checkin_outcome. intros Hret Hi.
  destruct h as [[c0|] [a]]; simpl in *.
  - destruct (hostConnsEstablished p !! a) as [[cap buf]|] eqn:He; simpl in Hret; [|done].
    case_decide; [|done]. simplify_eq. split; [done|]. split; [done|].
    intros host c. unfold located. simpl.
    rewrite (carried_delete hs i _ host c Hi). simpl. rewrite queued_insert.
    destruct (decide (host = a)) as [->|Hne].
    + assert (Hq : queued (hostConnsEstablished p) a c = count_conn c buf)
        by (unfold queued; by rewrite He).
      rewrite Hq. simpl. rewrite count_conn_snoc.
      unfold hit. destruct (decide (Some c0 = Some c)) as [Hc|Hc].
      * rewrite !bool_decide_eq_true_2 by done. lia.
      * rewrite !bool_decide_eq_false_2 by (try intros [? ?]; done). lia.
    + unfold hit. rewrite bool_decide_eq_false_2 by (by intros [? ?]). lia.
  - simplify_eq. split; [done|]. split; [done|].
    intros host c. unfold located. simpl.
    rewrite (carried_delete hs i _ host c Hi). simpl. rewrite hit_nil. lia.
Qed.

Lemma close_all_conns cs p d :
  ∃ d', close_all cs (p, d) = Returns tt (p, d')
        ∧ length (conns d') = length (conns d)
        ∧ (∀ c, conns d !! c = Some true → conns d' !! c = Some true)
        ∧ (∀ c, c ∈ cs → (c < length (conns d))%nat → conns d' !! c = Some true)
        ∧ (∀ c, c ∉ cs → conns d' !! c = conns d !! c).
Proof.
  revert d. induction cs as [|c0 cs IH]; intros d; simpl.
  - exists d. split; [done|]. split; [done|]. split; [done|].
    split; [|done]. intros c Hc. by apply elem_of_nil in Hc.
  - unfold bind at 1, Conn_Close, modify. simpl.
    destruct (IH (Driver (<[c0:=true]> (conns d)) (EvConnClose c0 :: trace d)))
      as (d' & Hrun & Hlen & Hmono & Hset & Hkeep).
    simpl in *. rewrite length_insert in Hlen.
    exists d'. split; [done|]. split; [done|].
    assert (Hup : ∀ c, conns d !! c = Some true → <[c0:=true]> (conns d) !! c = Some true).
    { intros c Hc. destruct (decide (c = c0)) as [->|Hne].
      - apply list_lookup_insert_eq. by eapply lookup_lt_Some.
      - by rewrite list_lookup_insert_ne. }
    split; [by intros c Hc; apply Hmono, Hup|]. split.
    + intros c Hin Hlt. apply elem_of_cons in Hin as [->|Hin].
      * apply Hmono. by apply list_lookup_insert_eq.
      * apply Hset; [done|]. by rewrite length_insert.
    + intros c Hnin. apply not_elem_of_cons in Hnin as [Hne Hnin].
      rewrite Hkeep by done. by rewrite list_lookup_insert_ne.
Qed.

Lemma checkout_keeps_exclusive base p d hs o h p' d' :
  exclusive (System p d hs) → tracked base (System p d hs) → owned base (System p d hs) →
  checkout_step p d o h p' d' →
  exclusive (System p' d' (hs ++ [h]))
  ∧ tracked base (System p' d' (hs ++ [h]))
  ∧ owned base (System p' d' (hs ++ [h])).
Proof.
  intros [Hone Hnew] (k & Hk & Hact & Hclosed) Hown Hstep. simpl in *.
  destruct (checkout_balance _ _ _ _ _ _ Hstep) as (_ & _ & v & Hbal & _ & Hshape).
  specialize (Hbal hs).
  destruct Hshape as [(Hconns & Hact' & Hh)|(Hconns & Hact' & Hh)].
  - (* no connection object was made *)
    assert (Hsame_or_less : ∀ host c,
      (located (System p' d' (hs ++ [h])) host c ≤ located (System p d hs) host c)%nat).
    { intros host c. specialize (Hbal host c).
      destruct Hh as [Hh|[Hh _]]; rewrite Hh in Hbal; rewrite ?hit_nil in Hbal; lia. }
    split; [split|split].
    + intros c host1 host2. specialize (Hone c host1 host2).
      pose proof (Hsame_or_less host1 c). pose proof (Hsame_or_less host2 c).
      destruct (decide (host1 = host2)); lia.
    + simpl. rewrite Hconns. intros c host Hc.
      pose proof (Hsame_or_less host c). pose proof (Hnew c host Hc). lia.
    + exists k. simpl. by rewrite Hconns, Hact'.
    + intros host c Hpos. apply (Hown host c).
      pose proof (Hsame_or_less host c). lia.
  - (* one was made: its address is the old length *)
    set (n := length (conns d)) in *.
    assert (Hfresh : ∀ host, located (System p d hs) host n = 0%nat)
      by (intros host; by apply Hnew).
    split; [split|split].
    + intros c host1 host2. specialize (Hone c host1 host2).
      pose proof (Hbal host1 c) as H1. pose proof (Hbal host2 c) as H2.
      rewrite Hh in H1, H2.
      destruct (decide (c = n)) as [->|Hne].
      * rewrite Hfresh in H1, H2. rewrite hit_same in H1, H2.
        destruct (decide (host1 = host2)) as [->|Hne12]; [destruct (decide _); lia|].
        destruct (decide (host1 = o_pick o)), (decide (host2 = o_pick o)); try lia.
        congruence.
      * assert (Hz : ∀ host, hit host (o_pick o) (Some n) c = 0%nat).
        { intros host. destruct (hit_cases host (o_pick o) (Some n) c)
            as [(_ & _ & ?)|?]; [congruence|done]. }
        rewrite Hz in H1, H2. destruct (decide (host1 = host2)); lia.
    + simpl. rewrite Hconns, length_app. simpl. intros c host Hc.
      pose proof (Hbal host c) as H1. rewrite Hh in H1.
      destruct (hit_cases host (o_pick o) (Some n) c) as [(_ & _ & ?)|Hz].
      * assert (Hcn : c = n) by congruence. unfold n in *. lia.
      * rewrite Hz in H1. pose proof (Hnew c host) as Hnc. unfold n in *. lia.
    + exists k. simpl. rewrite Hconns, Hact', Hact, length_app. simpl. fold n.
      split; [lia|]. split.
      * replace (n + 1 - k)%nat with (Datatypes.S (n - k)) by lia.
        rewrite seq_S. f_equal. f_equal. lia.
      * intros c Hc. rewrite lookup_app_l by (fold n; lia). by apply Hclosed.
    + intros host c Hpos. pose proof (Hbal host c) as H1. rewrite Hh in H1.
      destruct (hit_cases host (o_pick o) (Some n) c) as [(_ & _ & ?)|Hz].
      * assert (Hcn : c = n) by congruence. unfold n in *. lia.
      * apply (Hown host c). lia.
Qed.

Lemma step_healthy base o s :
  healthy base s →
  ∃ s', step o s = Returns tt s' ∧ healthy base s'
        ∧ Cfg (sys_pool s') = Cfg (sys_pool s)
        ∧ (length (conns (sys_drv s)) ≤ length (conns (sys_drv s')))%nat
        ∧ (∀ c, conns (sys_drv s) !! c = Some true → conns (sys_drv s') !! c = Some true).
Proof.
  intros (Hslots & Hex & Htr & Hown).
  destruct (step_ok o s Hslots) as (s' & Hstep & Hslots' & Hcfg).
  exists s'. split; [done|].
  destruct s as [p d hs]. pose proof Hslots as [Hhp Hall]. simpl in *.
  destruct o as [orc|i err| |c]; simpl in Hstep.
  - destruct (checkout_step_complete p d orc _ _ _ (Hall (o_pick orc)))
      as (h & p' & d' & Hco).
    pose proof (checkout_step_sound _ _ _ _ _ _ Hhp Hco) as Hrun.
    erewrite bind_returns in Hstep by (by apply on_pool_returns).
    unfold hold, modify in Hstep. simpl in Hstep. simplify_eq.
    destruct (checkout_keeps_exclusive base _ _ _ _ _ _ _ Hex Htr Hown Hco)
      as (Hex' & Htr' & Hown').
    split; [done|]. split; [done|]. simpl.
    destruct (checkout_balance _ _ _ _ _ _ Hco)
      as (_ & _ & v & _ & _ & [(-> & _)|(-> & _)]).
    + done.
    + rewrite length_app. split; [lia|]. intros c Hc. by apply lookup_app_l_Some.
  - unfold bind at 1, get in Hstep. simpl in Hstep.
    destruct (hs !! i) as [h|] eqn:Hi; [|unfold ret in Hstep; by simplify_eq].
    unfold bind at 1, release, modify in Hstep. simpl in Hstep.
    unfold on_pool, zoom in Hstep. simpl in Hstep.
    destruct (checkin h err (p, d)) as [[] [p' d']| |] eqn:Hin; simplify_eq.
    destruct (checkin_balance _ _ _ _ _ _ hs i Hin Hi) as (Hconns & Hact & Hloc).
    split; [|simpl; by rewrite Hconns].
    split; [done|]. destruct Hex as [Hone Hnew]. destruct Htr as (k & Hk & Hact0 & Hcl).
    split; [split|split]; simpl in *.
    + intros c host1 host2. rewrite !Hloc. apply Hone.
    + intros c host Hc. rewrite Hloc. apply Hnew. by rewrite <- Hconns.
    + exists k. simpl. by rewrite Hconns, Hact.
    + intros host c. rewrite Hloc. apply Hown.
  - destruct (close_all_conns (activeConns p) p d)
      as (d' & Hrun & Hlen & Hmono & Hset & Hkeep).
    unfold on_pool, zoom, Close in Hstep. simpl in Hstep.
    erewrite bind_returns in Hstep by reflexivity.
    erewrite bind_returns in Hstep by done.
    unfold Pool.update, modify in Hstep. simpl in Hstep. simplify_eq.
    split; [|simpl; split; [done|]; split; [lia|done]].
    split; [done|]. destruct Hex as [Hone Hnew]. destruct Htr as (k & Hk & Hact0 & Hcl).
    split; [split|split]; simpl in *.
    + done.
    + intros c host Hc. apply Hnew. lia.
    + exists (length (conns d)). simpl. rewrite Hlen, Nat.sub_diag.
      split; [lia|]. split; [done|].
      intros c Hc. destruct (decide (c < k)%nat) as [Hlt|Hge].
      * apply Hmono, Hcl. lia.
      * apply Hset; [|lia]. rewrite Hact0. apply list_elem_of_In, in_seq. lia.
    + done.
  - unfold on_pool, zoom, Conn_Close, modify in Hstep. simpl in Hstep. simplify_eq.
    assert (Hup : ∀ c', conns d !! c' = Some true → <[c:=true]> (conns d) !! c' = Some true).
    { intros c' Hc'. destruct (decide (c' = c)) as [->|Hne].
      - apply list_lookup_insert_eq. by eapply lookup_lt_Some.
      - by rewrite list_lookup_insert_ne. }
    split; [|simpl; split; [done|]; rewrite length_insert; split; [lia|done]].
    split; [done|]. destruct Hex as [Hone Hnew]. destruct Htr as (k & Hk & Hact0 & Hcl).
    split; [split|split]; simpl in *.
    + done.
    + intros c' host Hc. apply Hnew. by rewrite length_insert in Hc.
    + exists k. simpl. rewrite length_insert. split; [done|]. split; [done|].
      intros c' Hc'. by apply Hup, Hcl.
    + done.
Qed.

Lemma run_app ops1 ops2 s :
  run (ops1 ++ ops2) s = (run ops1 ;; run ops2) s.
Proof.
  revert s. induction ops1 as [|o ops1 IH]; intros s; simpl.
  - reflexivity.
  - unfold bind. destruct (step o s) as [[] s1| |]; try reflexivity.
    rewrite IH. reflexivity.
Qed.

Lemma run_healthy base ops s :
  healthy base s →
  ∃ s', run ops s = Returns tt s' ∧ healthy base s'
        ∧ Cfg (sys_pool s') = Cfg (sys_pool s)
        ∧ (length (conns (sys_drv s)) ≤ length (conns (sys_drv s')))%nat
        ∧ (∀ c, conns (sys_drv s) !! c = Some true → conns (sys_drv s') !! c = Some true).
Proof.
  revert s. induction ops as [|o ops IH]; intros s Hs; simpl.
  - exists s. split; [reflexivity|]. split; [done|]. split; [done|]. split; [lia|done].
  - destruct (step_healthy base o s Hs) as (s1 & Hstep & Hs1 & Hcfg1 & Hlen1 & Hmono1).
    destruct (IH s1 Hs1) as (s2 & Hrun & Hs2 & Hcfg2 & Hlen2 & Hmono2).
    exists s2. erewrite bind_returns by done.
    split; [done|]. split; [done|]. split; [congruence|]. split; [lia|].
    intros c Hc. by apply Hmono2, Hmono1.
Qed.

Lemma count_conn_replicate c n : count_conn c (replicate n None) = 0%nat.
Proof. induction n as [|n IH]; [done|]. simpl. by rewrite count_conn_cons, IH. Qed.

Lemma init_healthy cfg d :
  0 ≤ NumConns (cc cfg) →
  Z.of_nat (length (hosts cfg)) * NumConns (cc cfg) < 2 ^ 63 →
  ∃ p, Pool.init (Pool.new cfg, d) = Returns tt (p, d)
       ∧ Cfg p = cfg ∧ healthy (length (conns d)) (System p d []).
Proof.
  intros Hn Hbound.
  destruct (init_returns cfg d Hn Hbound) as (p & Hinit & Hcfg & Hact & Hhp & Hq).
  destruct (init_slots_ok cfg d Hn Hbound) as (p' & Hinit' & _ & Hslots).
  rewrite Hinit in Hinit'. simplify_eq.
  exists p'. split; [done|]. split; [done|].
  assert (Hzero : ∀ host c, located (System p' d []) host c = 0%nat).
  { intros host c. unfold located, queued. simpl. specialize (Hq host).
    destruct (bool_decide (host ∈ hosts (Cfg p'))); destruct Hq as [-> ->]; simpl;
      [|done]. unfold carried. simpl. by rewrite count_conn_replicate. }
  split; [done|]. split; [split|split].
  - intros c host1 host2. rewrite !Hzero. destruct (decide _); lia.
  - intros c host _. apply Hzero.
  - exists (length (conns d)). simpl. rewrite Nat.sub_diag, Hact.
    split; [lia|]. split; [done|]. intros c Hc. lia.
  - intros host c. rewrite Hzero. lia.
Qed.

(** Everything reachable from a freshly built pool is healthy. *)
Lemma session_healthy cfg d ops :
  0 ≤ NumConns (cc cfg) →
  Z.of_nat (length (hosts cfg)) * NumConns (cc cfg) < 2 ^ 63 →
  ∃ s, session cfg d ops = Returns tt s
       ∧ healthy (length (conns d)) s
       ∧ Cfg (sys_pool s) = cfg
       ∧ (length (conns d) ≤ length (conns (sys_drv s)))%nat.
Proof.
  intros Hn Hbound.
  destruct (init_healthy cfg d Hn Hbound) as (p & Hinit & Hcfg & Hh).
  destruct (run_healthy _ ops _ Hh) as (s & Hrun & Hs & Hcfg' & Hlen & _).
  exists s. split.
  - unfold session. erewrite bind_returns by (by apply on_pool_returns). done.
  - simpl in *. split; [done|]. split; [congruence|done].
Qed.

Lemma carried_lookup hs i h host c :
  hs !! i = Some h → conn h = Some c → Host (hpResp h) = host →
  (1 ≤ carried hs host c)%nat.
Proof.
  intros Hi Hc Hh. rewrite (carried_delete hs i h host c Hi).
  rewrite Hc, Hh, hit_same, decide_True by done. lia.
Qed.

Lemma carried_lookup2 hs i j h1 h2 host c :
  i ≠ j → hs !! i = Some h1 → hs !! j = Some h2 →
  conn h1 = Some c → conn h2 = Some c →
  Host (hpResp h1) = host → Host (hpResp h2) = host →
  (2 ≤ carried hs host c)%nat.
Proof.
  intros Hij Hi Hj Hc1 Hc2 Hh1 Hh2.
  rewrite (carried_delete hs i h1 host c Hi).
  rewrite Hc1, Hh1, hit_same, decide_True by done.
  assert (∃ j', delete i hs !! j' = Some h2) as [j' Hj'].
  { destruct (decide (j < i)%nat).
    - exists j. by rewrite list_lookup_delete_lt.
    - exists (pred j). rewrite list_lookup_delete_ge by lia.
      replace (Datatypes.S (pred j)) with j by lia. done. }
  pose proof (carried_lookup _ _ _ host c Hj' Hc2 Hh2). lia.
Qed.

Lemma count_conn_elem c buf : Some c ∈ buf → (1 ≤ count_conn c buf)%nat.
Proof.
  induction buf as [|v buf IH]; intros Hin.
  - by apply elem_of_nil in Hin.
  - rewrite count_conn_cons. apply elem_of_cons in Hin as [<-|Hin].
    + rewrite bool_decide_eq_true_2 by done. lia.
    + specialize (IH Hin). lia.
Qed.

(** X1 (a connection has one holder).  In every state reachable from a
    freshly built pool by checkouts, checkins of held handles, bulk closes
    and connections dying, no two held handles carry the same connection,
    and a connection carried by a held handle is in no established
    queue. *)
Theorem checked_out_connections_are_exclusive cfg d ops :
  0 ≤ NumConns (cc cfg) →
  Z.of_nat (length (hosts cfg)) * NumConns (cc cfg) < 2 ^ 63 →
  ∃ s, session cfg d ops = Returns tt s
    ∧ (∀ i j h1 h2 c,
         held s !! i = Some h1 → held s !! j = Some h2 →
         conn h1 = Some c → conn h2 = Some c → i = j)
    ∧ (∀ i h c host cap buf,
         held s !! i = Some h → conn h = Some c →
         hostConnsEstablished (sys_pool s) !! host = Some (Chan cap buf) →
         Some c ∉ buf).
Proof.
  intros Hn Hbound.
  destruct (session_healthy cfg d ops Hn Hbound) as (s & Hrun & (_ & [Hone _] & _) & _).
  exists s. split; [done|]. split.
  - intros i j h1 h2 c Hi Hj Hc1 Hc2.
    destruct (decide (i = j)) as [|Hij]; [done|exfalso].
    specialize (Hone c (Host (hpResp h1)) (Host (hpResp h2))). unfold located in Hone.
    destruct (decide (Host (hpResp h1) = Host (hpResp h2))) as [Heq|Hne].
    + pose proof (carried_lookup2 _ _ _ _ _ _ c Hij Hi Hj Hc1 Hc2 eq_refl (eq_sym Heq)).
      lia.
    + pose proof (carried_lookup _ _ _ _ c Hi Hc1 eq_refl).
      pose proof (carried_lookup _ _ _ _ c Hj Hc2 eq_refl). lia.
  - intros i h c host cap buf Hi Hc He Hin.
    pose proof (count_conn_elem _ _ Hin) as Hq.
    pose proof (carried_lookup _ _ _ _ c Hi Hc eq_refl) as Hcar.
    specialize (Hone c host (Host (hpResp h))). unfold located, queued in Hone.
    rewrite He in Hone. simpl in Hone.
    destruct (decide (host = Host (hpResp h))) as [->|Hne]; lia.
Qed.

Lemma step_close_tracks_nothing s s' :
  step OpClose s = Returns tt s' → activeConns (sys_pool s') = [].
Proof.
  destruct s as [p d hs]. simpl.
  destruct (close_all_conns (activeConns p) p d) as (d' & Hrun & _).
  unfold on_pool, zoom, Close. simpl.
  erewrite bind_returns by reflexivity. erewrite bind_returns by done.
  unfold Pool.update, modify. simpl. intros; by simplify_eq.
Qed.

Lemma session_closed cfg d ops :
  0 ≤ NumConns (cc cfg) →
  Z.of_nat (length (hosts cfg)) * NumConns (cc cfg) < 2 ^ 63 →
  ∃ s, session cfg d (ops ++ [OpClose]) = Returns tt s
    ∧ healthy (length (conns d)) s
    ∧ activeConns (sys_pool s) = []
    ∧ ∀ c, (length (conns d) ≤ c < length (conns (sys_drv s)))%nat →
           conns (sys_drv s) !! c = Some true.
Proof.
  intros Hn Hbound.
  destruct (session_healthy cfg d (ops ++ [OpClose]) Hn Hbound)
    as (s & Hrun & Hs & _ & _).
  exists s. split; [done|]. split; [done|].
  assert (Hact : activeConns (sys_pool s) = []).
  { unfold session in Hrun. unfold bind in Hrun.
    destruct (on_pool Pool.init (fresh cfg d)) as [[] s0| |]; [|done..].
    rewrite run_app in Hrun. unfold bind in Hrun.
    destruct (run ops s0) as [[] s1| |]; [|done..]. simpl in Hrun.
    unfold bind in Hrun.
    destruct (on_pool Close s1) as [[] s2| |] eqn:Hclose; [|done..].
    unfold ret in Hrun. simplify_eq.
    apply (step_close_tracks_nothing s1). done. }
  split; [done|].
  destruct Hs as (_ & _ & (k & Hk & Hseq & Hcl) & _).
  rewrite Hact in Hseq. intros c Hc. apply Hcl.
  assert (length (conns (sys_drv s)) - k = 0)%nat
    by (apply (f_equal length) in Hseq; rewrite length_seq in Hseq; simpl in Hseq; lia).
  lia.
Qed.

(** X2 ([Close] is complete).  After any such run, [Close()] leaves
    [Size()] at 0 and every connection object the pool has dialled since
    it was built reports closed: those in queues, those checked out and
    those a previous [Close()] had already dealt with. *)
Theorem Close_closes_every_dialled_connection cfg d ops :
  0 ≤ NumConns (cc cfg) →
  Z.of_nat (length (hosts cfg)) * NumConns (cc cfg) < 2 ^ 63 →
  ∃ s, session cfg d (ops ++ [OpClose]) = Returns tt s
    ∧ value_of (Size (sys_pool s, sys_drv s)) = Some 0%nat
    ∧ ∀ c, (length (conns d) ≤ c < length (conns (sys_drv s)))%nat →
           conns (sys_drv s) !! c = Some true.
Proof.
  intros Hn Hbound.
  destruct (session_closed cfg d ops Hn Hbound) as (s & Hrun & _ & Hact & Hcl).
  exists s. split; [done|]. split; [|done].
  unfold Size. go_simpl. by rewrite Hact.
Qed.

Lemma checkout_step_reused p d o h p' d' hs c :
  checkout_step p d o h p' d' →
  conns d' = conns d → conn h = Some c →
  (1 ≤ located (System p d hs) (o_pick o) c)%nat ∧ dead d (Some c) = false.
Proof.
  intros [He Hu|c0 p0 es Ht Hd|v p0 es Ht Hd Hdial
          |v p0 es err ucap ubuf Ht Hd Hdial Hu Hlen]; simpl; intros Hconns Hc;
    try done.
  - simplify_eq. split; [|done].
    pose proof (took_balance _ _ _ _ _ Ht (o_pick o) c) as Hb.
    rewrite hit_same, decide_True in Hb by done. unfold located. simpl. lia.
  - apply (f_equal length) in Hconns. rewrite length_app in Hconns. simpl in Hconns. lia.
Qed.

(** X3 (nothing survives a [Close]).  After a [Close()], a [checkout]
    returns, and a connection it hands out is one it has just dialled: the
    connection object is new and is the only one tracked.  The queues
    still hold the old connections, but none of them is handed out. *)
Theorem after_Close_checkout_dials cfg d ops o :
  0 ≤ NumConns (cc cfg) →
  Z.of_nat (length (hosts cfg)) * NumConns (cc cfg) < 2 ^ 63 →
  ∃ s h p' d',
    session cfg d (ops ++ [OpClose]) = Returns tt s
    ∧ checkout o (sys_pool s, sys_drv s) = Returns h (p', d')
    ∧ ∀ c, conn h = Some c →
           c = length (conns (sys_drv s))
           ∧ conns d' = conns (sys_drv s) ++ [false]
           ∧ activeConns p' = [c].
Proof.
  intros Hn Hbound.
  destruct (session_closed cfg d ops Hn Hbound) as (s & Hrun & Hs & Hact & Hcl).
  destruct s as [p ds hs]. simpl in *.
  destruct Hs as ([Hhp Hall] & [_ Hnew] & _ & Hown). simpl in *.
  destruct (checkout_step_complete p ds o _ _ _ (Hall (o_pick o)))
    as (h & p' & d' & Hco).
  exists (System p ds hs), h, p', d'. split; [done|].
  split; [by apply checkout_step_sound|]. simpl.
  intros c Hc.
  destruct (checkout_balance _ _ _ _ _ _ Hco)
    as (_ & _ & v & _ & _ & [(Hconns & _ & _)|(Hconns & Hact' & Hh)]).
  - exfalso.
    destruct (checkout_step_reused _ _ _ _ _ _ hs c Hco Hconns Hc) as [Hloc Hlive].
    assert (Hlt : (c < length (conns ds))%nat).
    { destruct (decide (c < length (conns ds))%nat) as [|Hge]; [done|].
      rewrite (Hnew c (o_pick o)) in Hloc by lia. lia. }
    assert (Hbase : (length (conns d) ≤ c)%nat) by (apply (Hown (o_pick o)); lia).
    unfold dead in Hlive. rewrite Hcl in Hlive by lia. done.
  - rewrite Hh in Hc. simplify_eq. by rewrite Hact', Hact.
Qed.


(** X4 (no slots, no connection).  When the selector's pick is not a
    configured host, or the configuration allows 0 connections per host,
    every [checkout] in every reachable state takes the timer case: it
    returns the nil-connection handle, dials nothing and leaves the pool
    as it is. *)
Theorem checkout_without_slots_returns_nil cfg d ops o :
  0 ≤ NumConns (cc cfg) →
  Z.of_nat (length (hosts cfg)) * NumConns (cc cfg) < 2 ^ 63 →
  o_pick o ∉ hosts cfg ∨ NumConns (cc cfg) = 0 →
  ∃ s, session cfg d ops = Returns tt s
    ∧ checkout o (sys_pool s, sys_drv s)
      = Returns {| conn := None; hpResp := {| Host := o_pick o |} |}
          (sys_pool s,
           logged [EvLog Warn "Timed-out waiting for connection pool";
                   EvTimerFired 5; EvTimerStart 5] (sys_drv s)).
Proof.
  intros Hn Hbound Hcase.
  destruct (session_healthy cfg d ops Hn Hbound) as (s & Hrun & ([Hhp Hall] & _) & Hcfg & _).
  exists s. split; [done|].
  specialize (Hall (o_pick o)). rewrite Hcfg in Hall. unfold host_ok in Hall.
  assert (Hempty : chan_poll (hostConnsEstablished (sys_pool s) !! o_pick o) = None
                   ∧ chan_poll (hostConnsUnestablished (sys_pool s) !! o_pick o) = None).
  { destruct (bool_decide (o_pick o ∈ hosts cfg)) eqn:Hmem.
    - destruct Hcase as [Hnot|Hzero].
      + by apply bool_decide_eq_true_1 in Hmem.
      + rewrite Hzero in Hall. destruct Hall as (ebuf & ubuf & -> & -> & Hsum).
        change (Z.to_nat 0) with 0%nat in Hsum.
        destruct ebuf, ubuf; simpl in Hsum; try lia. done.
    - by destruct Hall as (-> & -> & _). }
  destruct Hempty as [He Hu]. unfold checkout.
  erewrite bind_returns by by apply hp_Get_ok.
  by erewrite bind_returns by by apply select_conn_timeout.
Qed.


Lemma step_tracks_dials base o s s' :
  healthy base s → o ≠ OpClose → step o s = Returns tt s' →
  activeConns (sys_pool s')
  = activeConns (sys_pool s)
    ++ seq (length (conns (sys_drv s)))
           (length (conns (sys_drv s')) - length (conns (sys_drv s))).
Proof.
  intros (Hslots & Hex & Htr & Hown) Hne Hstep.
  destruct s as [p d hs]. pose proof Hslots as [Hhp Hall]. simpl in *.
  destruct o as [orc|i err| |c]; simpl in Hstep; [| |done|].
  - destruct (checkout_step_complete p d orc _ _ _ (Hall (o_pick orc)))
      as (h & p' & d' & Hco).
    pose proof (checkout_step_sound _ _ _ _ _ _ Hhp Hco) as Hrun.
    erewrite bind_returns in Hstep by (by apply on_pool_returns).
    unfold hold, modify in Hstep. simpl in Hstep. simplify_eq. simpl.
    destruct (checkout_balance _ _ _ _ _ _ Hco)
      as (_ & _ & v & _ & _ & [(-> & -> & _)|(-> & -> & _)]).
    + by rewrite Nat.sub_diag, app_nil_r.
    + rewrite length_app. simpl.
      by replace (length (conns d) + 1 - length (conns d))%nat with 1%nat by lia.
  - unfold bind at 1, get in Hstep. simpl in Hstep.
    destruct (hs !! i) as [h|] eqn:Hi.
    + unfold bind at 1, release, modify in Hstep. simpl in Hstep.
      unfold on_pool, zoom in Hstep. simpl in Hstep.
      destruct (checkin h err (p, d)) as [[] [p' d']| |] eqn:Hin; simplify_eq.
      destruct (checkin_balance _ _ _ _ _ _ hs i Hin Hi) as (Hconns & Hact & _).
      simpl. by rewrite Hconns, Hact, Nat.sub_diag, app_nil_r.
    + unfold ret in Hstep. simplify_eq. simpl. by rewrite Nat.sub_diag, app_nil_r.
  - unfold on_pool, zoom, Conn_Close, modify in Hstep. simpl in Hstep. simplify_eq.
    simpl. by rewrite length_insert, Nat.sub_diag, app_nil_r.
Qed.

Lemma run_tracks_dials base ops s :
  healthy base s → Forall (λ o, o ≠ OpClose) ops →
  ∃ s', run ops s = Returns tt s'
    ∧ (length (conns (sys_drv s)) ≤ length (conns (sys_drv s')))%nat
    ∧ activeConns (sys_pool s')
      = activeConns (sys_pool s)
        ++ seq (length (conns (sys_drv s)))
               (length (conns (sys_drv s')) - length (conns (sys_drv s))).
Proof.
  revert s. induction ops as [|o ops IH]; intros s Hs Hall; simpl.
  - exists s. split; [reflexivity|]. split; [lia|]. by rewrite Nat.sub_diag, app_nil_r.
  - apply Forall_cons in Hall as [Ho Hall].
    destruct (step_healthy base o s Hs) as (s1 & Hstep & Hs1 & _ & Hlen1 & _).
    pose proof (step_tracks_dials base o s s1 Hs Ho Hstep) as Hact1.
    destruct (IH s1 Hs1 Hall) as (s2 & Hrun & Hlen2 & Hact2).
    exists s2. erewrite bind_returns by done. split; [done|]. split; [lia|].
    rewrite Hact2, Hact1, <- app_assoc. f_equal.
    replace (length (conns (sys_drv s2)) - length (conns (sys_drv s)))%nat
      with ((length (conns (sys_drv s1)) - length (conns (sys_drv s)))
            + (length (conns (sys_drv s2)) - length (conns (sys_drv s1))))%nat by lia.
    rewrite seq_app. f_equal. f_equal. lia.
Qed.

(** X6 ([Size] counts dials).  In a run without [Close()], the tracked
    connections are exactly the connection objects made by the run, in
    the order they were dialled, and [Size()] is their number; a
    connection that died meanwhile is still counted. *)
Theorem Size_counts_dials_since_built cfg d ops :
  0 ≤ NumConns (cc cfg) →
  Z.of_nat (length (hosts cfg)) * NumConns (cc cfg) < 2 ^ 63 →
  Forall (λ o, o ≠ OpClose) ops →
  ∃ s, session cfg d ops = Returns tt s
    ∧ (length (conns d) ≤ length (conns (sys_drv s)))%nat
    ∧ activeConns (sys_pool s)
      = seq (length (conns d)) (length (conns (sys_drv s)) - length (conns d))
    ∧ value_of (Size (sys_pool s, sys_drv s))
      = Some (length (conns (sys_drv s)) - length (conns d))%nat.
Proof.
  intros Hn Hbound Hops.
  destruct (init_healthy cfg d Hn Hbound) as (p & Hinit & Hcfg & Hh).
  destruct (init_returns cfg d Hn Hbound) as (p' & Hinit' & _ & Hact0 & _).
  rewrite Hinit in Hinit'. simplify_eq.
  destruct (run_tracks_dials _ ops _ Hh Hops) as (s & Hrun & Hlen & Hact).
  simpl in *. rewrite Hact0 in Hact. simpl in Hact.
  exists s. split.
  - unfold session. erewrite bind_returns by (by apply on_pool_returns). done.
  - split; [done|]. split; [done|]. unfold Size. go_simpl.
    by rewrite Hact, length_seq.
Qed.

(** ** More on the pool-backed executor *)

Section PoolExecutorMore.

Variable hash : ksConfig → Z.

Lemma pe_Close_returns (m : PoolExecutor.machine) a p :
  PoolExecutor.pools m !! a = Some p →
  ∃ d', PoolExecutor.on_pool (Some a) Close m
        = Returns tt (PoolExecutor.Machine (PoolExecutor.exec m)
                        (<[a := closed_pool p]> (PoolExecutor.pools m)) d')
        ∧ length (conns d') = length (conns (PoolExecutor.drv m))
        ∧ (∀ c, conns (PoolExecutor.drv m) !! c = Some true → conns d' !! c = Some true)
        ∧ (∀ c, c ∈ activeConns p → (c < length (conns (PoolExecutor.drv m)))%nat →
                conns d' !! c = Some true)
        ∧ trace (PoolExecutor.drv m) ⊆ trace d'.
Proof.
  intros Hp.
  destruct (close_all_conns (activeConns p) p (PoolExecutor.drv m))
    as (d' & Hrun & Hlen & Hmono & Hset & _).
  exists d'. split.
  - rewrite (pe_on_pool_returns Close m a p tt (closed_pool p, d') Hp); [done|].
    unfold Close. erewrite bind_returns by reflexivity.
    erewrite bind_returns by done. reflexivity.
  - split; [done|]. split; [done|]. split; [done|].
    clear -Hrun. revert Hrun. generalize (PoolExecutor.drv m). 
    induction (activeConns p) as [|c cs IH]; intros d0 Hrun; simpl in Hrun.
    + unfold ret in Hrun. by simplify_eq.
    + unfold bind at 1, Conn_Close, modify in Hrun. simpl in Hrun.
      apply IH in Hrun. simpl in Hrun. set_solver.
Qed.

Lemma pe_swap (m : PoolExecutor.machine) c a p :
  PoolExecutor.pool (PoolExecutor.exec m) = Some a →
  PoolExecutor.pools m !! a = Some p →
  hash c ≠ PoolExecutor.lastHash (PoolExecutor.exec m) →
  0 ≤ NumConns (cc c) →
  Z.of_nat (length (hosts c)) * NumConns (cc c) < 2 ^ 63 →
  let fresh := length (PoolExecutor.pools m) in
  ∃ pnew d',
    PoolExecutor.watch_body hash (inr c) m
    = Returns tt
        (PoolExecutor.Machine
           {| PoolExecutor.ks := PoolExecutor.ks (PoolExecutor.exec m);
              PoolExecutor.initialised := PoolExecutor.initialised (PoolExecutor.exec m);
              PoolExecutor.lastHash := hash c;
              PoolExecutor.pool := Some fresh |}
           (<[a := closed_pool p]> (PoolExecutor.pools m) ++ [pnew]) d')
    ∧ fresh ≠ a
    ∧ Cfg pnew = c ∧ activeConns pnew = []
    ∧ slots_ok (System pnew d' [])
    ∧ length (conns d') = length (conns (PoolExecutor.drv m))
    ∧ (∀ x, x ∈ activeConns p → (x < length (conns (PoolExecutor.drv m)))%nat →
            conns d' !! x = Some true).
Proof.
  intros Ha Hp Hc Hn Hbound fresh.
  set (m0 := PoolExecutor.Machine (PoolExecutor.exec m) (PoolExecutor.pools m)
               (logged [EvLog Info "Config changed; invalidating connection pool";
                        EvLoadConfig (PoolExecutor.ks (PoolExecutor.exec m))]
                       (PoolExecutor.drv m))).
  destruct (pe_Close_returns m0 a p Hp) as (d1 & Hclose & Hlen & Hmono & Hset & _).
  destruct (init_returns c d1 Hn Hbound) as (pnew & Hinit & Hcfg & Hact & _).
  destruct (init_slots_ok c d1 Hn Hbound) as (pnew' & Hinit' & _ & Hslots).
  rewrite Hinit in Hinit'. simplify_eq.
  exists pnew', (logged [EvLog Info "Switched config to"] d1).
  assert (Hlt : (a < length (PoolExecutor.pools m))%nat) by (by eapply lookup_lt_Some).
  split; [|split; [subst fresh; lia|]].
  - unfold PoolExecutor.watch_body.
    erewrite bind_returns by reflexivity. simpl.
    erewrite bind_returns by reflexivity. simpl.
    rewrite decide_True by done.
    erewrite bind_returns by reflexivity.
    unfold PoolExecutor.switchConfig.
    erewrite bind_returns by reflexivity. simpl. rewrite Ha.
    erewrite bind_returns by exact Hclose.
    erewrite bind_returns by reflexivity. simpl.
    erewrite bind_returns by reflexivity. simpl.
    erewrite bind_returns.
    2:{ eapply pe_on_pool_returns; simpl.
        - rewrite length_insert. by rewrite lookup_app_r, length_insert, Nat.sub_diag by
            (rewrite length_insert; lia).
        - exact Hinit. }
    simpl. erewrite bind_returns by reflexivity. simpl.
    unfold logf, emit, modify. simpl.
    rewrite insert_app_r_alt by (rewrite length_insert; lia).
    rewrite !length_insert, Nat.sub_diag. reflexivity.
  - split; [done|]. split; [done|]. split; [done|]. split; [done|].
    intros x Hx Hxlt. by apply Hset.
Qed.

(** X7 (a changed configuration swaps the pool).  When the watcher of a
    ready pool-backed executor loads a configuration (one [init] accepts)
    whose hash differs from the stored one, the old pool is closed in
    place (its tracked connections report closed, its list is reset, its
    queues are left alone), a new pool built from the new configuration
    is put at a new address, and the executor points at it and stores
    the new hash. *)
Theorem config_change_swaps_pool (m : PoolExecutor.machine) c a p :
  PoolExecutor.pool (PoolExecutor.exec m) = Some a →
  PoolExecutor.pools m !! a = Some p →
  hash c ≠ PoolExecutor.lastHash (PoolExecutor.exec m) →
  0 ≤ NumConns (cc c) →
  Z.of_nat (length (hosts c)) * NumConns (cc c) < 2 ^ 63 →
  let fresh := length (PoolExecutor.pools m) in
  ∃ pnew d',
    PoolExecutor.watch_body hash (inr c) m
    = Returns tt
        (PoolExecutor.Machine
           {| PoolExecutor.ks := PoolExecutor.ks (PoolExecutor.exec m);
              PoolExecutor.initialised := PoolExecutor.initialised (PoolExecutor.exec m);
              PoolExecutor.lastHash := hash c;
              PoolExecutor.pool := Some fresh |}
           (<[a := closed_pool p]> (PoolExecutor.pools m) ++ [pnew]) d')
    ∧ fresh ≠ a
    ∧ Cfg pnew = c ∧ activeConns pnew = []
    ∧ slots_ok (System pnew d' [])
    ∧ length (conns d') = length (conns (PoolExecutor.drv m))
    ∧ (∀ x, x ∈ activeConns p → (x < length (conns (PoolExecutor.drv m)))%nat →
            conns d' !! x = Some true).
Proof. apply pe_swap. Qed.


(** X8 (reloading twice is reloading once).  After such a swap, a second
    notification carrying the same configuration changes nothing: the
    executor and the pools are those left by the first one. *)
Theorem reload_is_idempotent (m : PoolExecutor.machine) c a p :
  PoolExecutor.pool (PoolExecutor.exec m) = Some a →
  PoolExecutor.pools m !! a = Some p →
  hash c ≠ PoolExecutor.lastHash (PoolExecutor.exec m) →
  0 ≤ NumConns (cc c) →
  Z.of_nat (length (hosts c)) * NumConns (cc c) < 2 ^ 63 →
  ∃ m1,
    PoolExecutor.watch_body hash (inr c) m = Returns tt m1
    ∧ PoolExecutor.watchConfig hash [inr c; inr c] m
      = Returns tt
          (PoolExecutor.Machine (PoolExecutor.exec m1) (PoolExecutor.pools m1)
             (logged [EvLog Debug "Config changed but not invalidating connection pool";
                      EvLoadConfig (PoolExecutor.ks (PoolExecutor.exec m))]
                     (PoolExecutor.drv m1))).
Proof.
  intros Ha Hp Hc Hn Hbound.
  destruct (pe_swap m c a p Ha Hp Hc Hn Hbound)
    as (pnew & d' & Hrun & _).
  eexists. split; [exact Hrun|].
  simpl. erewrite bind_returns by exact Hrun.
  erewrite bind_returns.
  2:{ unfold PoolExecutor.watch_body.
      erewrite bind_returns by reflexivity. simpl.
      erewrite bind_returns by reflexivity. simpl.
      rewrite decide_False by (by intros ?). reflexivity. }
  reflexivity.
Qed.

(** X9 (quiet notifications).  Any sequence of notifications for which
    the configuration service fails or answers a configuration with the
    stored hash leaves the executor, every pool and every connection as
    they were; two trace entries are added per notification. *)
Theorem quiet_notifications_change_nothing (m : PoolExecutor.machine) ns :
  Forall (quiet hash (PoolExecutor.lastHash (PoolExecutor.exec m))) ns →
  ∃ t, PoolExecutor.watchConfig hash ns m
       = Returns tt
           (PoolExecutor.Machine (PoolExecutor.exec m) (PoolExecutor.pools m)
              (logged t (PoolExecutor.drv m)))
       ∧ length t = (2 * length ns)%nat.
Proof.
  revert m. induction ns as [|n ns IH]; intros m Hq.
  - exists []. split; [|done]. simpl. unfold ret. by destruct m as [e ps [cs tr]].
  - apply Forall_cons in Hq as [Hn Hq].
    assert (∃ e1, PoolExecutor.watch_body hash n m
                  = Returns tt
                      (PoolExecutor.Machine (PoolExecutor.exec m) (PoolExecutor.pools m)
                         (logged [e1; EvLoadConfig (PoolExecutor.ks (PoolExecutor.exec m))]
                                 (PoolExecutor.drv m)))) as [e1 Hbody].
    { destruct n as [err|c]; simpl in Hn.
      - exists (EvLog Error "Error getting new config"). reflexivity.
      - exists (EvLog Debug "Config changed but not invalidating connection pool").
        unfold PoolExecutor.watch_body.
        erewrite bind_returns by reflexivity. simpl.
        erewrite bind_returns by reflexivity. simpl.
        rewrite decide_False by (by intros ?). reflexivity. }
    destruct (IH (PoolExecutor.Machine (PoolExecutor.exec m) (PoolExecutor.pools m)
                    (logged [e1; EvLoadConfig (PoolExecutor.ks (PoolExecutor.exec m))]
                            (PoolExecutor.drv m))) Hq) as (t & Hrun & Hlen).
    exists (t ++ [e1; EvLoadConfig (PoolExecutor.ks (PoolExecutor.exec m))]).
    split.
    + simpl. erewrite bind_returns by exact Hbody. rewrite Hrun. simpl.
      unfold logged. simpl. by rewrite <- app_assoc.
    + rewrite length_app. simpl. lia.
Qed.

End PoolExecutorMore.

Lemma checkout_step_hp p d o h p' d' :
  checkout_step p d o h p' d' → hp p' = hp p.
Proof.
  intros [He Hu|c p0 es Ht Hd|v p0 es Ht Hd Hdial
          |v p0 es err ucap ubuf Ht Hd Hdial Hu Hlen]; simpl; try done;
    by destruct (took_frame _ _ _ _ _ Ht) as (_ & ? & _).
Qed.

Lemma checkin_hp p d h err p' d' :
  checkin h err (p, d) = Returns tt (p', d') →
  hp p' = hp (marked (hpResp h) err p).
Proof.
  rewrite checkin_outcome. destruct (conn h) as [c|].
  - destruct (chan_offer _ _); intros; by simplify_eq.
  - intros; by simplify_eq.
Qed.

Lemma checkout_checkin_marks p d hs o :
  slots_ok (System p d hs) →
  ∃ h p1 d1,
    checkout o (p, d) = Returns h (p1, d1)
    ∧ ∀ d1' err, ∃ p2 d2,
        checkin h err (p1, d1') = Returns tt (p2, d2)
        ∧ hp p2 = hp (marked {| Host := o_pick o |} err p)
        ∧ Cfg p2 = Cfg p
        ∧ slots_ok (System p2 d2 hs).
Proof.
  intros Hok. pose proof Hok as [Hhp Hall]. simpl in *.
  destruct (checkout_checkin_returns p d hs o Hok) as (h & p1 & d1 & Hout & _ & Hin).
  destruct (checkout_step_complete p d o _ _ _ (Hall (o_pick o)))
    as (h' & p1' & d1' & Hco).
  pose proof (checkout_step_sound _ _ _ _ _ _ Hhp Hco) as Hout'.
  rewrite Hout in Hout'. simplify_eq.
  destruct (checkout_balance _ _ _ _ _ _ Hco) as (_ & Hhost & _).
  pose proof (checkout_step_hp _ _ _ _ _ _ Hco) as Hhp1.
  exists h', p1', d1'. split; [done|]. intros d2 err.
  destruct (Hin d2 err) as (p2 & d3 & Hci & _ & Hcfg & Hok2).
  exists p2, d3. split; [done|]. split; [|done].
  rewrite (checkin_hp _ _ _ _ _ _ Hci). unfold marked. simpl.
  destruct h' as [c0 [a0]]. simpl in *. by rewrite Hhp1, Hhost.
Qed.

Section PoolExecutorStatements.

Variable hash : ksConfig → Z.
Variable value : Type.

(** X10 (statements report what they return).  On a ready executor whose
    pool's slots add up, [Query] and [Execute] return: the session error
    when [gocql.NewSession] fails (and then no rows), otherwise the
    server's answer.  The error they return is the one marked on the
    selector for the picked host, the executor is unchanged, and the
    pool's slots add up again with the same handles held by others. *)
Theorem statements_report_their_outcome (m : PoolExecutor.machine)
    (w : PoolExecutor.world value) stmt params a p hs :
  PoolExecutor.initialised (PoolExecutor.exec m) = true →
  PoolExecutor.pool (PoolExecutor.exec m) = Some a →
  PoolExecutor.pools m !! a = Some p →
  slots_ok (System p (PoolExecutor.drv m) hs) →
  let err := match PoolExecutor.w_newSession w with
             | Some er => Some er
             | None => PoolExecutor.w_err w
             end in
  let rows := match PoolExecutor.w_newSession w with
              | Some _ => []
              | None => PoolExecutor.w_rows w
              end in
  (∃ m' p',
     PoolExecutor.Query hash value w stmt params m = Returns (rows, err) m'
     ∧ PoolExecutor.exec m' = PoolExecutor.exec m
     ∧ PoolExecutor.pools m' = <[a := p']> (PoolExecutor.pools m)
     ∧ hp p' = hp (marked {| Host := o_pick (PoolExecutor.w_checkout w) |} err p)
     ∧ slots_ok (System p' (PoolExecutor.drv m') hs))
  ∧ (∃ m' p',
       PoolExecutor.Execute hash value w stmt params m = Returns err m'
       ∧ PoolExecutor.exec m' = PoolExecutor.exec m
       ∧ PoolExecutor.pools m' = <[a := p']> (PoolExecutor.pools m)
       ∧ hp p' = hp (marked {| Host := o_pick (PoolExecutor.w_checkout w) |} err p)
       ∧ slots_ok (System p' (PoolExecutor.drv m') hs)).
Proof.
  intros Hi Ha Hp Hok err rows.
  destruct (checkout_checkin_marks p (PoolExecutor.drv m) hs (PoolExecutor.w_checkout w) Hok)
    as (h & p1 & d1 & Hout & Hin).
  assert (Ha1 : (a < length (PoolExecutor.pools m))%nat) by (by eapply lookup_lt_Some).
  split.
  - unfold PoolExecutor.Query. erewrite bind_returns by by apply pe_init_done.
    simpl. erewrite bind_returns by reflexivity. rewrite Ha.
    erewrite bind_returns by by eapply pe_on_pool_returns.
    erewrite bind_returns by reflexivity.
    subst err rows. simpl. destruct (PoolExecutor.w_newSession w) as [er|]; simpl.
    + destruct (Hin (Driver (conns d1) (EvNewSession false :: trace d1)) (Some er))
        as (p2 & d2 & Hin2 & Hhp2 & Hcfg2 & Hok2).
      erewrite bind_returns
        by (eapply pe_on_pool_returns;
            [simpl; by apply list_lookup_insert_eq|exact Hin2]).
      simpl. eexists _, p2. split; [done|]. simpl.
      by rewrite list_insert_insert_eq.
    + erewrite bind_returns by reflexivity. erewrite bind_returns by reflexivity.
      simpl.
      destruct (Hin (Driver (conns d1)
                       (EvLog Trace "Query took"
                        :: EvStatement stmt (length params)
                        :: EvNewSession true :: trace d1)) (PoolExecutor.w_err w))
        as (p2 & d2 & Hin2 & Hhp2 & Hcfg2 & Hok2).
      erewrite bind_returns
        by (eapply pe_on_pool_returns;
            [simpl; by apply list_lookup_insert_eq|exact Hin2]).
      simpl. eexists _, p2. split; [done|]. simpl.
      by rewrite list_insert_insert_eq.
  - unfold PoolExecutor.Execute. erewrite bind_returns by by apply pe_init_done.
    simpl. erewrite bind_returns by reflexivity. rewrite Ha.
    erewrite bind_returns by by eapply pe_on_pool_returns.
    erewrite bind_returns by reflexivity.
    subst err rows. simpl. destruct (PoolExecutor.w_newSession w) as [er|]; simpl.
    + destruct (Hin (Driver (conns d1) (EvNewSession false :: trace d1)) (Some er))
        as (p2 & d2 & Hin2 & Hhp2 & Hcfg2 & Hok2).
      erewrite bind_returns
        by (eapply pe_on_pool_returns;
            [simpl; by apply list_lookup_insert_eq|exact Hin2]).
      simpl. eexists _, p2. split; [done|]. simpl.
      by rewrite list_insert_insert_eq.
    + erewrite bind_returns by reflexivity. erewrite bind_returns by reflexivity.
      simpl.
      destruct (Hin (Driver (conns d1)
                       (EvLog Trace "Execute took"
                        :: EvStatement stmt (length params)
                        :: EvNewSession true :: trace d1)) (PoolExecutor.w_err w))
        as (p2 & d2 & Hin2 & Hhp2 & Hcfg2 & Hok2).
      erewrite bind_returns
        by (eapply pe_on_pool_returns;
            [simpl; by apply list_lookup_insert_eq|exact Hin2]).
      simpl. eexists _, p2. split; [done|]. simpl.
      by rewrite list_insert_insert_eq.
Qed.

End PoolExecutorStatements.

(** ** More on the session-backed executor *)

Section SessionExecutorMore.

Variable hash : ksConfig → Z.

(** X11 (a failed switch stops the watcher).  In the session-backed
    executor, once a switch fails the watcher is parked on its own retry
    channel: whatever notifications follow, the outcome is the same
    blocked state, in which the executor still points at the session it
    had, now closed, with the old hash. *)
Theorem watcher_parks_after_failed_switch (m : SessionExecutor.machine) c err s rest :
  SessionExecutor.session (SessionExecutor.exec m) = Some s →
  SessionExecutor.sessions m !! s = Some false →
  hash c ≠ SessionExecutor.lastHash (SessionExecutor.exec m) →
  let r := SessionExecutor.watchConfig hash ((inr c, Some err) :: rest) m in
  r = Blocks (failed_switch c s m)
  ∧ SessionExecutor.session (SessionExecutor.exec (state_of r)) = Some s
  ∧ SessionExecutor.sessions (state_of r) !! s = Some true
  ∧ SessionExecutor.lastHash (SessionExecutor.exec (state_of r))
    = SessionExecutor.lastHash (SessionExecutor.exec m).
Proof.
  intros Hs Hopen Hc r. subst r.
  rewrite (watchConfig_failure_parks hash m c err s rest Hs Hc). simpl.
  split; [done|]. split; [done|]. split; [|done].
  apply list_lookup_insert_eq. by eapply lookup_lt_Some.
Qed.

Variable value : Type.

(** X12 (an initialised executor has a session).  If the session-backed
    executor has a session whenever it is initialised, then that still
    holds after [Query], after [Execute] and after [reloadSession]
    (wherever it stops); [Query] and [Execute] return either the server's
    answer, initialised, or the error of the failed initialisation, not
    initialised: the nil-session branch is never taken. *)
Theorem session_is_never_nil_once_initialised (m : SessionExecutor.machine)
    load create (answer : list (gmap string value) * option error)
    (status : option error) stmt params retryCh :
  session_ready m →
  (∃ r m', SessionExecutor.Query hash value load create answer stmt params m
           = Returns r m'
           ∧ session_ready m'
           ∧ ((r = answer ∧ SessionExecutor.initialised (SessionExecutor.exec m') = true)
              ∨ (∃ er, r = ([], Some er)
                       ∧ SessionExecutor.initialised (SessionExecutor.exec m') = false
                       ∧ (load = inl er ∨ create = Some er))))
  ∧ (∃ r m', SessionExecutor.Execute hash value load create status stmt params m
             = Returns r m'
             ∧ session_ready m'
             ∧ ((r = status ∧ SessionExecutor.initialised (SessionExecutor.exec m') = true)
                ∨ (∃ er, r = Some er
                         ∧ SessionExecutor.initialised (SessionExecutor.exec m') = false
                         ∧ (load = inl er ∨ create = Some er))))
  ∧ session_ready (state_of (SessionExecutor.reloadSession hash retryCh load create m)).
Proof.
  intros Hready. destruct m as [[k ini last cf sess] ss d]. unfold session_ready in *.
  simpl in *.
  split; [|split].
  - unfold SessionExecutor.Query, SessionExecutor.init, SessionExecutor.self,
      SessionExecutor.getKsConfig, SessionExecutor.switchConfig,
      SessionExecutor.CreateSession, SessionExecutor.Session_Close,
      SessionExecutor.update.
    destruct ini; go_simpl.
    + destruct (Hready eq_refl) as [s ->]. eexists _, _. split; [done|]. simpl.
      split; [by eauto|]. by left.
    + destruct load as [er|c]; go_simpl.
      * eexists _, _. split; [done|]. simpl. split; [done|]. right. by eauto.
      * destruct sess as [s|]; go_simpl; destruct create as [er|]; go_simpl;
          eexists _, _; (split; [done|]); simpl;
          (split; [by eauto|]); first [by left | right; by eauto].
  - unfold SessionExecutor.Execute, SessionExecutor.init, SessionExecutor.self,
      SessionExecutor.getKsConfig, SessionExecutor.switchConfig,
      SessionExecutor.CreateSession, SessionExecutor.Session_Close,
      SessionExecutor.update.
    destruct ini; go_simpl.
    + destruct (Hready eq_refl) as [s ->]. eexists _, _. split; [done|]. simpl.
      split; [by eauto|]. by left.
    + destruct load as [er|c]; go_simpl.
      * eexists _, _. split; [done|]. simpl. split; [done|]. right. by eauto.
      * destruct sess as [s|]; go_simpl; destruct create as [er|]; go_simpl;
          eexists _, _; (split; [done|]); simpl;
          (split; [by eauto|]); first [by left | right; by eauto].
  - unfold SessionExecutor.reloadSession, SessionExecutor.self,
      SessionExecutor.getKsConfig, SessionExecutor.switchConfig,
      SessionExecutor.CreateSession, SessionExecutor.Session_Close,
      SessionExecutor.update, SessionExecutor.send_retry.
    destruct load as [er|c]; go_simpl; [done|].
    destruct (decide (hash c ≠ last)); go_simpl; [|done].
    destruct sess as [s|]; go_simpl; destruct create as [er|]; go_simpl;
      destruct retryCh as [cap buf]; go_simpl;
      repeat case_decide; go_simpl; by eauto.
Qed.

End SessionExecutorMore.

(** ** Host lookup, registry, token caches, Elasticsearch *)

Section DnsFacts.

Import Dns.

Lemma ascii_compare_N a b : Ascii.compare a b = N.compare (Ascii.N_of_ascii a) (Ascii.N_of_ascii b).
Proof. reflexivity. Qed.

Lemma string_compare_refl s : String.compare s s = Eq.
Proof.
  induction s as [|a s IH]; [done|]. simpl.
  rewrite ascii_compare_N, N.compare_refl. done.
Qed.

Lemma string_compare_trans s1 s2 s3 :
  String.compare s1 s2 ≠ Gt → String.compare s2 s3 ≠ Gt → String.compare s1 s3 ≠ Gt.
Proof.
  revert s2 s3. induction s1 as [|a s1 IH]; intros [|b s2] [|c s3]; simpl; try done.
  rewrite !ascii_compare_N.
  destruct (N.compare_spec (Ascii.N_of_ascii a) (Ascii.N_of_ascii b)) as [Hab|Hab|Hab];
    destruct (N.compare_spec (Ascii.N_of_ascii b) (Ascii.N_of_ascii c)) as [Hbc|Hbc|Hbc];
    try done; intros H1 H2.
  - rewrite Hab, Hbc, N.compare_refl. by eapply IH.
  - rewrite Hab. by rewrite (proj2 (N.compare_lt_iff _ _) Hbc).
  - rewrite <- Hbc. by rewrite (proj2 (N.compare_lt_iff _ _) Hab).
  - by rewrite (proj2 (N.compare_lt_iff _ _) (N.lt_trans _ _ _ Hab Hbc)).
Qed.

#[global] Instance string_le_total : Total string_le.
Proof. intros s1 s2. apply String.leb_total. Qed.

#[global] Instance string_le_trans : Transitive string_le.
Proof.
  intros s1 s2 s3. unfold string_le, String.leb. intros H1 H2.
  pose proof (string_compare_trans s1 s2 s3) as Ht.
  destruct (String.compare s1 s2) eqn:E1; destruct (String.compare s2 s3) eqn:E2;
    try done; destruct (String.compare s1 s3); try done; exfalso; by apply Ht.
Qed.

#[global] Instance string_le_antisym : AntiSymm (=) string_le.
Proof. intros s1 s2. apply String.leb_antisym. Qed.

Lemma foldl_snoc_map {A B} (f : A → B) (l : list A) (acc : list B) :
  foldl (λ hosts x, hosts ++ [f x]) acc l = acc ++ map f l.
Proof.
  revert acc. induction l as [|x l IH]; intros acc; simpl.
  - by rewrite app_nil_r.
  - rewrite IH. by rewrite <- app_assoc.
Qed.

(** X13 (host lookup).  [Hosts] asks the resolver for the name
    role.region.i.env.hailocab.net; when the lookup fails it returns the
    error and no hosts; otherwise it returns the addresses as strings in
    increasing order: a permutation of what the resolver answered, and the
    only increasing one. *)
Theorem Hosts_sorted_addresses {IP : Type} (IP_String : IP → string)
    region env (LookupIP : string → string + list IP) role :
  match LookupIP (hostName region env role) with
  | inl err => Hosts IP IP_String region env LookupIP role = ([], Some err)
  | inr ips =>
      ∃ l, Hosts IP IP_String region env LookupIP role = (l, None)
           ∧ StronglySorted string_le l
           ∧ l ≡ₚ map IP_String ips
           ∧ ∀ l', StronglySorted string_le l' → l' ≡ₚ map IP_String ips → l' = l
  end.
Proof.
  unfold Hosts. destruct (LookupIP _) as [err|ips]; [done|].
  eexists. split; [done|]. rewrite foldl_snoc_map. simpl.
  split; [apply StronglySorted_merge_sort; apply _|].
  split; [apply merge_sort_Permutation|].
  intros l' Hs Hp. unfold sort_Strings.
  eapply (Sorted_unique_strong string_le).
  - intros x1 x2 _ _ H1 H2. by apply (anti_symm string_le).
  - by apply StronglySorted_Sorted.
  - apply Sorted_merge_sort. apply _.
  - rewrite Hp. symmetry. apply merge_sort_Permutation.
Qed.

End DnsFacts.

Section RegistryFacts.

Import Registry.

Lemma gocqlConnector_spec r k :
  registered r →
  ∃ c r',
    gocqlConnector k r = Returns c r'
    ∧ registered r'
    ∧ ksConnections r' !! k = Some c
    ∧ (∀ k' a, ksConnections r !! k' = Some a → ksConnections r' !! k' = Some a)
    ∧ (∀ a e, executors r !! a = Some e → executors r' !! a = Some e)
    ∧ (is_Some (ksConnections r !! k) → r' = r)
    ∧ (ksConnections r !! k = None →
       c = length (executors r)
       ∧ executors r' = executors r ++ [PoolExecutor.new k]).
Proof.
  intros [Hfwd Hbwd]. unfold gocqlConnector, bind, get, put, ret.
  destruct (ksConnections r !! k) as [c|] eqn:Hk.
  - exists c, r. split; [done|]. split; [done|]. split; [done|]. split; [done|].
    split; [done|]. split; done.
  - simpl. rewrite Hk.
    exists (length (executors r)),
      {| ksConnections := <[k := length (executors r)]> (ksConnections r);
         executors := executors r ++ [PoolExecutor.new k] |}.
    split; [reflexivity|]. simpl.
    assert (Hfresh : ∀ k', ksConnections r !! k' ≠ Some (length (executors r))).
    { intros k' Hk'. apply Hfwd in Hk'. apply lookup_lt_Some in Hk'. lia. }
    split; [split|].
    + intros k' a. simpl. destruct (decide (k' = k)) as [->|Hne].
      * rewrite lookup_insert_eq. intros; simplify_eq.
        by rewrite lookup_app_r, Nat.sub_diag.
      * rewrite lookup_insert_ne by done. intros Hk'.
        apply lookup_app_l_Some. by apply Hfwd.
    + intros a e. simpl. intros Ha.
      apply lookup_app_Some in Ha as [Ha|[Hge Ha]].
      * pose proof (Hbwd a e Ha) as Hreg.
        destruct (decide (PoolExecutor.ks e = k)) as [Heq|Hne].
        -- rewrite Heq in Hreg. congruence.
        -- by rewrite lookup_insert_ne.
      * destruct (a - length (executors r))%nat as [|n] eqn:Hn; simpl in Ha; [|done].
        simplify_eq. simpl. rewrite lookup_insert_eq. f_equal. lia.
    + split; [by rewrite lookup_insert_eq|]. split.
      * intros k' a Hk'. rewrite lookup_insert_ne; [done|]. congruence.
      * split; [intros a e Ha; by apply lookup_app_l_Some|].
        split; [by intros [? ?]|done].
Qed.

Lemma connect_all_spec kss r :
  registered r →
  ∃ cs r',
    connect_all kss r = Returns cs r'
    ∧ registered r'
    ∧ (∀ k' a, ksConnections r !! k' = Some a → ksConnections r' !! k' = Some a)
    ∧ Forall2 (λ k c, ksConnections r' !! k = Some c) kss cs.
Proof.
  revert r. induction kss as [|k kss IH]; intros r Hr; simpl.
  - exists [], r. split; [reflexivity|]. split; [done|]. split; [done|]. constructor.
  - destruct (gocqlConnector_spec r k Hr) as (c & r1 & Hrun1 & Hr1 & Hk & Hst1 & _).
    destruct (IH r1 Hr1) as (cs & r2 & Hrun2 & Hr2 & Hst2 & Hall).
    exists (c :: cs), r2. erewrite bind_returns by done.
    erewrite bind_returns by done. split; [done|]. split; [done|].
    split; [by intros k' a Hk'; apply Hst2, Hst1|].
    constructor; [by apply Hst2|done].
Qed.

Lemma connect_all_count kss r :
  registered r →
  ∃ cs r', connect_all kss r = Returns cs r'
           ∧ (length (executors r') ≤ length (executors r) + length kss)%nat.
Proof.
  revert r. induction kss as [|k kss IH]; intros r Hr; simpl.
  - exists [], r. split; [reflexivity|lia].
  - destruct (gocqlConnector_spec r k Hr) as (c & r1 & Hrun1 & Hr1 & _ & _ & _ & Hsame & Hnew).
    destruct (IH r1 Hr1) as (cs & r2 & Hrun2 & Hlen).
    exists (c :: cs), r2. erewrite bind_returns by done.
    erewrite bind_returns by done. split; [done|].
    destruct (ksConnections r !! k) eqn:Hk.
    + rewrite Hsame in Hlen by done. lia.
    + destruct (Hnew eq_refl) as [_ Hex]. rewrite Hex, length_app in Hlen. simpl in Hlen. lia.
Qed.

(** X14 (one executor per keyspace).  Starting from the empty registry,
    any sequence of [gocqlConnector] calls returns, the connection it
    gives for a keyspace wraps an executor created for that keyspace, two
    calls get the same connection exactly when they name the same
    keyspace, and no more executors exist than calls were made. *)
Theorem one_executor_per_keyspace kss :
  ∃ cs r,
    connect_all kss Registry.empty = Returns cs r
    ∧ length cs = length kss
    ∧ (∀ i k c, kss !! i = Some k → cs !! i = Some c →
                executors r !! c = Some (PoolExecutor.new k))
    ∧ (∀ i j k1 k2 c1 c2,
         kss !! i = Some k1 → kss !! j = Some k2 →
         cs !! i = Some c1 → cs !! j = Some c2 →
         (c1 = c2 ↔ k1 = k2))
    ∧ (length (executors r) ≤ length kss)%nat.
Proof.
  assert (Hempty : registered Registry.empty) by (split; intros ? ?; done).
  destruct (connect_all_spec kss _ Hempty) as (cs & r & Hrun & [Hfwd Hbwd] & _ & Hall).
  destruct (connect_all_count kss _ Hempty) as (cs' & r' & Hrun' & Hcount).
  rewrite Hrun in Hrun'. simplify_eq.
  exists cs', r'. split; [done|]. split; [symmetry; by eapply Forall2_length|].
  assert (Hat : ∀ i k c, kss !! i = Some k → cs' !! i = Some c →
                         ksConnections r' !! k = Some c).
  { intros i k c Hk Hc. exact (Forall2_lookup_lr _ kss cs' i k c Hall Hk Hc). }
  split; [by intros i k c Hk Hc; apply Hfwd; eapply Hat|].
  split; [|simpl in Hcount; lia].
  intros i j k1 k2 c1 c2 Hk1 Hk2 Hc1 Hc2.
  pose proof (Hat _ _ _ Hk1 Hc1) as H1. pose proof (Hat _ _ _ Hk2 Hc2) as H2.
  split.
  - intros ->. apply Hfwd in H1, H2. rewrite H1 in H2.
    by injection H2.
  - intros ->. congruence.
Qed.

End RegistryFacts.

Section AuthFacts.

Import Auth.

(** X15 (test cache: store then fetch).  On a cache that does not
    simulate failures, [Store] succeeds and a [Fetch] of the stored
    session is a hit with that user, unless the session had been
    invalidated, in which case it stays a hit without user; other
    sessions are unaffected. *)
Theorem testCache_store_then_fetch (c : TestCache.testCache) (u : User) :
  TestCache.failure c = false →
  let c' := (TestCache.Store u c).1 in
  (TestCache.Store u c).2 = None
  ∧ TestCache.Fetch (SessId u) c'
    = (if default false (TestCache.invalidated c !! SessId u)
       then (None, true, None) else (Some u, true, None))
  ∧ ∀ other, other ≠ SessId u → TestCache.Fetch other c' = TestCache.Fetch other c.
Proof.
  intros Hf c'. subst c'. unfold TestCache.Store, TestCache.Fetch. rewrite Hf. simpl.
  rewrite ?Hf. split; [done|]. split.
  - destruct (default false _); [done|]. by rewrite lookup_insert_eq.
  - intros other Hne. by rewrite lookup_insert_ne.
Qed.

(** X16 (test cache: invalidation sticks).  [Invalidate] succeeds, drops
    the stored user, and makes [Fetch] answer a hit without user; storing
    the user again does not change that; other sessions are
    unaffected. *)
Theorem testCache_invalidate_sticks (c : TestCache.testCache) (sessID : string) :
  TestCache.failure c = false →
  let c' := (TestCache.Invalidate sessID c).1 in
  (TestCache.Invalidate sessID c).2 = None
  ∧ TestCache.Fetch sessID c' = (None, true, None)
  ∧ TestCache.users c' !! sessID = None
  ∧ (∀ u, SessId u = sessID →
          TestCache.Fetch sessID (TestCache.Store u c').1 = (None, true, None))
  ∧ ∀ other, other ≠ sessID → TestCache.Fetch other c' = TestCache.Fetch other c.
Proof.
  intros Hf c'. subst c'.
  unfold TestCache.Invalidate, TestCache.Store, TestCache.Fetch. rewrite Hf. simpl.
  rewrite ?Hf. simpl. rewrite lookup_insert_eq. simpl.
  split; [done|]. split; [done|]. split.
  - destruct (TestCache.users c !! sessID) eqn:Hu; [apply lookup_delete_eq|done].
  - split.
    + intros u Hu. done.
    + intros other Hne. rewrite lookup_insert_ne by done.
      destruct (default false _); [done|].
      destruct (TestCache.users c !! sessID); [|done].
      by rewrite lookup_delete_ne.
Qed.

(** X17 (test cache: purge forgets).  [Purge] succeeds whether or not
    the session is known, after it [Fetch] is a miss, purging again
    changes nothing, and a user stored afterwards is fetched again even
    if the session had been invalidated; other sessions are
    unaffected. *)
Theorem testCache_purge_forgets (c : TestCache.testCache) (sessID : string) :
  TestCache.failure c = false →
  let c' := (TestCache.Purge sessID c).1 in
  (TestCache.Purge sessID c).2 = None
  ∧ TestCache.Fetch sessID c' = (None, false, None)
  ∧ TestCache.Purge sessID c' = (c', None)
  ∧ (∀ u, SessId u = sessID →
          TestCache.Fetch sessID (TestCache.Store u c').1 = (Some u, true, None))
  ∧ ∀ other, other ≠ sessID → TestCache.Fetch other c' = TestCache.Fetch other c.
Proof.
  intros Hf c'. subst c'.
  unfold TestCache.Purge, TestCache.Store, TestCache.Fetch. rewrite Hf. simpl.
  rewrite ?Hf. simpl.
  destruct (TestCache.users c !! sessID) as [u0|] eqn:Eu;
    destruct (TestCache.invalidated c !! sessID) as [b0|] eqn:Ei;
    rewrite ?lookup_delete_eq, ?Eu, ?Ei; simpl;
    (split; [done|]; split; [done|]; split; [done|]; split;
     [intros u Hid; rewrite Hid, ?lookup_delete_eq, ?Ei; simpl;
      by rewrite lookup_insert_eq
     |intros other Hne; by rewrite ?lookup_delete_ne by done]).
Qed.

Section MemcacheFacts.

Variable FromSessionToken : string → string → string + User.

(** X18 (token cache fetch).  [Fetch] reports a hit exactly when
    memcache answered an item that is the invalid placeholder or decodes
    to a user; it returns a user exactly when the item is not the
    placeholder and decodes (so a token spelled like the placeholder is
    never returned); it returns an error exactly for a memcache error
    other than a miss; and it records the timing with that error and one
    hit or miss counter matching the hit flag. *)
Theorem Fetch_classifies_the_answer (got : Memcache.mc_error + Memcache.Item)
    (sessID : string) :
  ∃ u hit err notes,
    Memcache.Fetch FromSessionToken got sessID = (u, hit, err, notes)
    ∧ (hit = true ↔
       ∃ it, got = inr it
             ∧ (Memcache.Value it = Memcache.invalidPlaceholder
                ∨ ∃ usr, FromSessionToken sessID (Memcache.Value it) = inr usr))
    ∧ (∀ usr, u = Some usr ↔
              ∃ it, got = inr it
                    ∧ Memcache.Value it ≠ Memcache.invalidPlaceholder
                    ∧ FromSessionToken sessID (Memcache.Value it) = inr usr)
    ∧ (∀ e, err = Some e ↔ got = inl e ∧ e ≠ Memcache.ErrCacheMiss)
    ∧ Memcache.Timing "auth.cache.fetch" err ∈ notes
    ∧ Memcache.Counter (if hit then "auth.cache.fetch.hit" else "auth.cache.fetch.miss")
      ∈ notes.
Proof.
  unfold Memcache.Fetch, Memcache.doFetch.
  destruct got as [e|it].
  - destruct (decide (e ≠ Memcache.ErrCacheMiss)) as [Hne|Heq].
    + eexists _, _, _, _. split; [done|].
      split; [split; [done|by intros (? & ? & _)]|].
      split; [intros usr; split; [done|by intros (? & ? & _)]|].
      split; [|set_solver].
      intros e'. split; [by intros [= ->]|by intros [[= ->] _]].
    + eexists _, _, _, _. split; [done|].
      split; [split; [done|by intros (? & ? & _)]|].
      split; [intros usr; split; [done|by intros (? & ? & _)]|].
      split; [|set_solver].
      intros e'. split; [done|]. intros [[= ->] Hne]. by destruct Heq.
  - destruct (decide (Memcache.Value it = Memcache.invalidPlaceholder)) as [Hinv|Hval].
    + eexists _, _, _, _. split; [done|].
      split; [split; [by eauto|done]|].
      split; [intros usr; split; [done|by intros (? & [= <-] & ? & _)]|].
      split; [|set_solver].
      intros e'. split; [done|by intros [? _]].
    + destruct (FromSessionToken sessID (Memcache.Value it)) as [derr|usr] eqn:Hdec.
      * eexists _, _, _, _. split; [done|].
        split; [split; [done|]|].
        { intros (it' & [= <-] & [?|[usr Husr]]); [done|congruence]. }
        split; [intros usr; split; [done|]|].
        { intros (it' & [= <-] & _ & Husr). congruence. }
        split; [|set_solver].
        intros e'. split; [done|by intros [? _]].
      * eexists _, _, _, _. split; [done|].
        split; [split; [by eauto|done]|].
        split; [intros usr'; split|].
        { intros [= <-]. by eauto. }
        { intros (it' & [= <-] & _ & Husr). congruence. }
        split; [|set_solver].
        intros e'. split; [done|by intros [? _]].
Qed.

End MemcacheFacts.

End AuthFacts.

Section ElasticsearchFacts.

Import Elasticsearch.

Lemma reloads_snoc ns n e :
  reloads (ns ++ [n]) e = loadEndpointConfig n.1 n.2 (reloads ns e).
Proof. unfold reloads. by rewrite foldl_app. Qed.

Lemma https_is_sticky ns e :
  Protocol (reloads ns e) = "https"
  ↔ Protocol e = "https" ∨ ∃ n, n ∈ ns ∧ n.1 = 443.
Proof.
  induction ns as [|n ns IH] using rev_ind.
  - simpl. split; [by left|]. intros [?|(n & Hn & _)]; [done|]. by apply elem_of_nil in Hn.
  - rewrite reloads_snoc. unfold loadEndpointConfig. simpl.
    destruct (decide (n.1 = 443)) as [H443|Hne].
    + split; [|done]. intros _. right. exists n. split; [|done].
      apply elem_of_app. right. by apply list_elem_of_singleton.
    + rewrite IH. split.
      * intros [?|(n' & Hn' & ?)]; [by left|]. right. exists n'. split; [|done].
        apply elem_of_app. by left.
      * intros [?|(n' & Hn' & ?)]; [by left|]. right. exists n'. split; [|done].
        apply elem_of_app in Hn' as [?|Hn']; [done|].
        apply list_elem_of_singleton in Hn'. congruence.
Qed.

(** X19 (Elasticsearch endpoint reloads).  After any sequence of loads the
    protocol is https exactly if it was before or some load saw port 443
    (a later load with another port does not reset it), while the port
    string and the host list are those of the last load: the configured
    hosts, or localhost:19200 when none is configured, never an empty
    list. *)
Theorem elasticsearch_reloads ns port configured e :
  let e' := reloads (ns ++ [(port, configured)]) e in
  (Protocol e' = "https"
   ↔ Protocol e = "https" ∨ port = 443 ∨ ∃ n, n ∈ ns ∧ n.1 = 443)
  ∧ Port e' = Itoa port
  ∧ Hosts e' ≠ []
  ∧ Hosts e' = (if decide (configured = []) then ["localhost:19200"] else configured).
Proof.
  intros e'. subst e'. split.
  - rewrite https_is_sticky. split.
    + intros [?|(n & Hn & H443)]; [by left|]. right.
      apply elem_of_app in Hn as [Hn|Hn]; [right; by eauto|].
      apply list_elem_of_singleton in Hn. subst n. by left.
    + intros [?|[->|(n & Hn & H443)]]; [by left| |].
      * right. exists (443, configured). split; [|done].
        apply elem_of_app. right. by apply list_elem_of_singleton.
      * right. exists n. split; [|done]. apply elem_of_app. by left.
  - rewrite reloads_snoc. unfold loadEndpointConfig. simpl.
    split; [done|]. destruct configured; simpl; by split.
Qed.

End ElasticsearchFacts.

(** ** The properties above at concrete inputs *)

Lemma pool_idle_slots_ok : slots_ok (System pool_idle d0 []).
Proof.
  split; [by eexists|]. intros host. simpl.
  change (Z.to_nat 2) with 2%nat.
  destruct (decide (host = "host1")) as [->|Hne].
  - rewrite bool_decide_eq_true_2 by left. rewrite !lookup_singleton_eq.
    by exists [], [None; None].
  - rewrite bool_decide_eq_false_2
      by (intros Hin; apply list_elem_of_singleton in Hin; done).
    by rewrite !lookup_singleton_ne.
Qed.

Lemma checked_out_connections_are_exclusive_witness :
  0 ≤ NumConns (cc cfg_one)
  ∧ Z.of_nat (length (hosts cfg_one)) * NumConns (cc cfg_one) < 2 ^ 63
  ∧ ∃ s, session cfg_one d0 busy_ops = Returns tt s
      ∧ (∀ i j h1 h2 c,
           held s !! i = Some h1 → held s !! j = Some h2 →
           conn h1 = Some c → conn h2 = Some c → i = j)
      ∧ (∀ i h c host cap buf,
           held s !! i = Some h → conn h = Some c →
           hostConnsEstablished (sys_pool s) !! host = Some (Chan cap buf) →
           Some c ∉ buf).
Proof.
  assert (H1 : 0 ≤ NumConns (cc cfg_one)) by (simpl; lia).
  assert (H2 : Z.of_nat (length (hosts cfg_one)) * NumConns (cc cfg_one) < 2 ^ 63)
    by (simpl; lia).
  split; [exact H1|]. split; [exact H2|].
  exact (checked_out_connections_are_exclusive cfg_one d0 busy_ops H1 H2).
Defined.

Lemma Close_closes_every_dialled_connection_witness :
  0 ≤ NumConns (cc cfg_one)
  ∧ Z.of_nat (length (hosts cfg_one)) * NumConns (cc cfg_one) < 2 ^ 63
  ∧ ∃ s, session cfg_one d0 (calm_ops ++ [OpClose]) = Returns tt s
      ∧ value_of (Size (sys_pool s, sys_drv s)) = Some 0%nat
      ∧ ∀ c, (length (conns d0) ≤ c < length (conns (sys_drv s)))%nat →
             conns (sys_drv s) !! c = Some true.
Proof.
  assert (H1 : 0 ≤ NumConns (cc cfg_one)) by (simpl; lia).
  assert (H2 : Z.of_nat (length (hosts cfg_one)) * NumConns (cc cfg_one) < 2 ^ 63)
    by (simpl; lia).
  split; [exact H1|]. split; [exact H2|].
  exact (Close_closes_every_dialled_connection cfg_one d0 calm_ops H1 H2).
Defined.

Lemma after_Close_checkout_dials_witness :
  0 ≤ NumConns (cc cfg_one)
  ∧ Z.of_nat (length (hosts cfg_one)) * NumConns (cc cfg_one) < 2 ^ 63
  ∧ ∃ s h p' d',
      session cfg_one d0 (calm_ops ++ [OpClose]) = Returns tt s
      ∧ checkout dial_ok (sys_pool s, sys_drv s) = Returns h (p', d')
      ∧ ∀ c, conn h = Some c →
             c = length (conns (sys_drv s))
             ∧ conns d' = conns (sys_drv s) ++ [false]
             ∧ activeConns p' = [c].
Proof.
  assert (H1 : 0 ≤ NumConns (cc cfg_one)) by (simpl; lia).
  assert (H2 : Z.of_nat (length (hosts cfg_one)) * NumConns (cc cfg_one) < 2 ^ 63)
    by (simpl; lia).
  split; [exact H1|]. split; [exact H2|].
  exact (after_Close_checkout_dials cfg_one d0 calm_ops dial_ok H1 H2).
Defined.

Lemma checkout_without_slots_returns_nil_witness :
  0 ≤ NumConns (cc cfg_one)
  ∧ Z.of_nat (length (hosts cfg_one)) * NumConns (cc cfg_one) < 2 ^ 63
  ∧ (o_pick elsewhere ∉ hosts cfg_one ∨ NumConns (cc cfg_one) = 0)
  ∧ ∃ s, session cfg_one d0 busy_ops = Returns tt s
      ∧ checkout elsewhere (sys_pool s, sys_drv s)
        = Returns {| conn := None; hpResp := {| Host := o_pick elsewhere |} |}
            (sys_pool s,
             logged [EvLog Warn "Timed-out waiting for connection pool";
                     EvTimerFired 5; EvTimerStart 5] (sys_drv s)).
Proof.
  assert (H1 : 0 ≤ NumConns (cc cfg_one)) by (simpl; lia).
  assert (H2 : Z.of_nat (length (hosts cfg_one)) * NumConns (cc cfg_one) < 2 ^ 63)
    by (simpl; lia).
  assert (H3 : o_pick elsewhere ∉ hosts cfg_one ∨ NumConns (cc cfg_one) = 0).
  { left. simpl. intros Hin. apply list_elem_of_singleton in Hin. discriminate. }
  split; [exact H1|]. split; [exact H2|]. split; [exact H3|].
  exact (checkout_without_slots_returns_nil cfg_one d0 busy_ops elsewhere H1 H2 H3).
Defined.


Lemma Size_counts_dials_since_built_witness :
  0 ≤ NumConns (cc cfg_one)
  ∧ Z.of_nat (length (hosts cfg_one)) * NumConns (cc cfg_one) < 2 ^ 63
  ∧ Forall (λ o, o ≠ OpClose) calm_ops
  ∧ ∃ s, session cfg_one d0 calm_ops = Returns tt s
      ∧ (length (conns d0) ≤ length (conns (sys_drv s)))%nat
      ∧ activeConns (sys_pool s)
        = seq (length (conns d0)) (length (conns (sys_drv s)) - length (conns d0))
      ∧ value_of (Size (sys_pool s, sys_drv s))
        = Some (length (conns (sys_drv s)) - length (conns d0))%nat.
Proof.
  assert (H1 : 0 ≤ NumConns (cc cfg_one)) by (simpl; lia).
  assert (H2 : Z.of_nat (length (hosts cfg_one)) * NumConns (cc cfg_one) < 2 ^ 63)
    by (simpl; lia).
  assert (H3 : Forall (λ o, o ≠ OpClose) calm_ops)
    by (unfold calm_ops; repeat constructor; discriminate).
  split; [exact H1|]. split; [exact H2|]. split; [exact H3|].
  exact (Size_counts_dials_since_built cfg_one d0 calm_ops H1 H2 H3).
Defined.

Lemma config_change_swaps_pool_witness :
  PoolExecutor.pool (PoolExecutor.exec pooled) = Some 0%nat
  ∧ PoolExecutor.pools pooled !! 0%nat = Some pool_idle
  ∧ hosts_hash cfg_two ≠ PoolExecutor.lastHash (PoolExecutor.exec pooled)
  ∧ 0 ≤ NumConns (cc cfg_two)
  ∧ Z.of_nat (length (hosts cfg_two)) * NumConns (cc cfg_two) < 2 ^ 63
  ∧ ∃ pnew d',
      PoolExecutor.watch_body hosts_hash (inr cfg_two) pooled
      = Returns tt
          (PoolExecutor.Machine
             {| PoolExecutor.ks := "dummyks"; PoolExecutor.initialised := true;
                PoolExecutor.lastHash := 2; PoolExecutor.pool := Some 1%nat |}
             (<[0%nat := closed_pool pool_idle]> (PoolExecutor.pools pooled) ++ [pnew]) d')
      ∧ 1%nat ≠ 0%nat
      ∧ Cfg pnew = cfg_two ∧ activeConns pnew = []
      ∧ slots_ok (System pnew d' [])
      ∧ length (conns d') = length (conns (PoolExecutor.drv pooled))
      ∧ (∀ x, x ∈ activeConns pool_idle →
              (x < length (conns (PoolExecutor.drv pooled)))%nat →
              conns d' !! x = Some true).
Proof.
  assert (H1 : PoolExecutor.pool (PoolExecutor.exec pooled) = Some 0%nat) by reflexivity.
  assert (H2 : PoolExecutor.pools pooled !! 0%nat = Some pool_idle) by reflexivity.
  assert (H3 : hosts_hash cfg_two ≠ PoolExecutor.lastHash (PoolExecutor.exec pooled))
    by (vm_compute; discriminate).
  assert (H4 : 0 ≤ NumConns (cc cfg_two)) by (simpl; lia).
  assert (H5 : Z.of_nat (length (hosts cfg_two)) * NumConns (cc cfg_two) < 2 ^ 63)
    by (simpl; lia).
  split; [exact H1|]. split; [exact H2|]. split; [exact H3|].
  split; [exact H4|]. split; [exact H5|].
  exact (config_change_swaps_pool hosts_hash pooled cfg_two 0%nat pool_idle
           H1 H2 H3 H4 H5).
Defined.

Lemma reload_is_idempotent_witness :
  PoolExecutor.pool (PoolExecutor.exec pooled) = Some 0%nat
  ∧ PoolExecutor.pools pooled !! 0%nat = Some pool_idle
  ∧ hosts_hash cfg_two ≠ PoolExecutor.lastHash (PoolExecutor.exec pooled)
  ∧ 0 ≤ NumConns (cc cfg_two)
  ∧ Z.of_nat (length (hosts cfg_two)) * NumConns (cc cfg_two) < 2 ^ 63
  ∧ ∃ m1,
      PoolExecutor.watch_body hosts_hash (inr cfg_two) pooled = Returns tt m1
      ∧ PoolExecutor.watchConfig hosts_hash [inr cfg_two; inr cfg_two] pooled
        = Returns tt
            (PoolExecutor.Machine (PoolExecutor.exec m1) (PoolExecutor.pools m1)
               (logged [EvLog Debug "Config changed but not invalidating connection pool";
                        EvLoadConfig "dummyks"] (PoolExecutor.drv m1))).
Proof.
  assert (H1 : PoolExecutor.pool (PoolExecutor.exec pooled) = Some 0%nat) by reflexivity.
  assert (H2 : PoolExecutor.pools pooled !! 0%nat = Some pool_idle) by reflexivity.
  assert (H3 : hosts_hash cfg_two ≠ PoolExecutor.lastHash (PoolExecutor.exec pooled))
    by (vm_compute; discriminate).
  assert (H4 : 0 ≤ NumConns (cc cfg_two)) by (simpl; lia).
  assert (H5 : Z.of_nat (length (hosts cfg_two)) * NumConns (cc cfg_two) < 2 ^ 63)
    by (simpl; lia).
  split; [exact H1|]. split; [exact H2|]. split; [exact H3|].
  split; [exact H4|]. split; [exact H5|].
  exact (reload_is_idempotent hosts_hash pooled cfg_two 0%nat pool_idle H1 H2 H3 H4 H5).
Defined.

Lemma quiet_notifications_change_nothing_witness :
  Forall (quiet hosts_hash (PoolExecutor.lastHash (PoolExecutor.exec pooled)))
         [inl "config service unavailable"; inr cfg_one]
  ∧ ∃ t, PoolExecutor.watchConfig hosts_hash
           [inl "config service unavailable"; inr cfg_one] pooled
         = Returns tt
             (PoolExecutor.Machine (PoolExecutor.exec pooled) (PoolExecutor.pools pooled)
                (logged t (PoolExecutor.drv pooled)))
         ∧ length t = (2 * 2)%nat.
Proof.
  assert (H1 : Forall (quiet hosts_hash (PoolExecutor.lastHash (PoolExecutor.exec pooled)))
                      [inl "config service unavailable"; inr cfg_one])
    by (repeat constructor).
  split; [exact H1|].
  exact (quiet_notifications_change_nothing hosts_hash pooled _ H1).
Defined.

Lemma statements_report_their_outcome_witness :
  PoolExecutor.initialised (PoolExecutor.exec pooled) = true
  ∧ PoolExecutor.pool (PoolExecutor.exec pooled) = Some 0%nat
  ∧ PoolExecutor.pools pooled !! 0%nat = Some pool_idle
  ∧ slots_ok (System pool_idle (PoolExecutor.drv pooled) [])
  ∧ ∃ m' p',
      PoolExecutor.Execute hosts_hash unit healthy_world "INSERT" [] pooled
      = Returns (Some "write timeout") m'
      ∧ PoolExecutor.exec m' = PoolExecutor.exec pooled
      ∧ PoolExecutor.pools m' = <[0%nat := p']> (PoolExecutor.pools pooled)
      ∧ hp p' = hp (marked {| Host := "host1" |} (Some "write timeout") pool_idle)
      ∧ slots_ok (System p' (PoolExecutor.drv m') []).
Proof.
  assert (H1 : PoolExecutor.initialised (PoolExecutor.exec pooled) = true) by reflexivity.
  assert (H2 : PoolExecutor.pool (PoolExecutor.exec pooled) = Some 0%nat) by reflexivity.
  assert (H3 : PoolExecutor.pools pooled !! 0%nat = Some pool_idle) by reflexivity.
  pose proof pool_idle_slots_ok as H4.
  split; [exact H1|]. split; [exact H2|]. split; [exact H3|]. split; [exact H4|].
  exact (proj2 (statements_report_their_outcome hosts_hash unit pooled healthy_world
                  "INSERT" [] 0%nat pool_idle [] H1 H2 H3 H4)).
Defined.

Lemma watcher_parks_after_failed_switch_witness :
  SessionExecutor.session (SessionExecutor.exec serving) = Some 0%nat
  ∧ SessionExecutor.sessions serving !! 0%nat = Some false
  ∧ hosts_hash cfg_two ≠ SessionExecutor.lastHash (SessionExecutor.exec serving)
  ∧ SessionExecutor.watchConfig hosts_hash
      [(inr cfg_two, Some "no hosts available"); (inr cfg_two, None)] serving
    = Blocks (failed_switch cfg_two 0%nat serving).
Proof.
  assert (H1 : SessionExecutor.session (SessionExecutor.exec serving) = Some 0%nat)
    by reflexivity.
  assert (H2 : SessionExecutor.sessions serving !! 0%nat = Some false) by reflexivity.
  assert (H3 : hosts_hash cfg_two
               ≠ SessionExecutor.lastHash (SessionExecutor.exec serving))
    by (vm_compute; discriminate).
  split; [exact H1|]. split; [exact H2|]. split; [exact H3|].
  exact (proj1 (watcher_parks_after_failed_switch hosts_hash serving cfg_two
                  "no hosts available" 0%nat [(inr cfg_two, None)] H1 H2 H3)).
Defined.

Lemma session_is_never_nil_once_initialised_witness :
  session_ready serving
  ∧ session_ready
      (state_of (SessionExecutor.reloadSession hosts_hash (Chan 0 [])
                   (inr cfg_two) (Some "no hosts available") serving)).
Proof.
  assert (H1 : session_ready serving) by (intros _; by eexists).
  split; [exact H1|].
  exact (proj2 (proj2 (session_is_never_nil_once_initialised hosts_hash unit serving
                         (inr cfg_two) (Some "no hosts available") ([], None) None
                         "SELECT" [] (Chan 0 []) H1))).
Defined.

Lemma testCache_store_then_fetch_witness :
  Auth.TestCache.failure Auth.TestCache.newTestCache = false
  ∧ Auth.TestCache.Fetch "sess-1"
      (Auth.TestCache.Store alice Auth.TestCache.newTestCache).1
    = (Some alice, true, None).
Proof.
  assert (H1 : Auth.TestCache.failure Auth.TestCache.newTestCache = false)
    by reflexivity.
  split; [exact H1|].
  exact (proj1 (proj2 (testCache_store_then_fetch Auth.TestCache.newTestCache alice H1))).
Defined.

Lemma testCache_invalidate_sticks_witness :
  Auth.TestCache.failure Auth.TestCache.newTestCache = false
  ∧ Auth.TestCache.Fetch "sess-1"
      (Auth.TestCache.Invalidate "sess-1" Auth.TestCache.newTestCache).1
    = (None, true, None).
Proof.
  assert (H1 : Auth.TestCache.failure Auth.TestCache.newTestCache = false)
    by reflexivity.
  split; [exact H1|].
  exact (proj1 (proj2 (testCache_invalidate_sticks Auth.TestCache.newTestCache
                         "sess-1" H1))).
Defined.

Lemma testCache_purge_forgets_witness :
  Auth.TestCache.failure Auth.TestCache.newTestCache = false
  ∧ Auth.TestCache.Fetch "sess-1"
      (Auth.TestCache.Purge "sess-1" Auth.TestCache.newTestCache).1
    = (None, false, None).
Proof.
  assert (H1 : Auth.TestCache.failure Auth.TestCache.newTestCache = false)
    by reflexivity.
  split; [exact H1|].
  exact (proj1 (proj2 (testCache_purge_forgets Auth.TestCache.newTestCache
                         "sess-1" H1))).
Defined.
